(** * automate.py: the GitHub repository automation script

    A shallow embedding of [automate.py] and the properties of its
    repository locator, workflow pusher, secret provisioner and
    orchestrator.

    Python strings are sequences of code points; here they are Rocq
    strings, i.e. sequences of bytes in UTF-8.  Every pattern the script
    searches for (".git", the two URL prefixes, "/", ".yml", ".yaml") is
    plain ASCII, and UTF-8 never uses an ASCII byte inside a multi-byte
    character, so the byte-level operations below find exactly the
    occurrences the code-point-level operations of Python find.
    [str.strip()] removes Unicode white space, which is matched by its
    encodings.  Output captured without [text=True] is bytes, which
    [bytes.decode()] accepts only when they are UTF-8. *)

From stdpp Require Import base strings gmap list pretty.
From Stdlib Require Import Ascii ZArith Lia.

Open Scope string_scope.
Open Scope Z_scope.

(** ** Python string operations used by the script *)

Module PyStr.

(** [s.startswith(p)] *)
Definition startswith (s p : string) : bool := String.prefix p s.

(** [s.endswith(suf)]: [s] is [suf] itself, or its tail ends with [suf]. *)
Fixpoint endswith (s suf : string) : bool :=
  String.eqb s suf ||
  match s with
  | EmptyString => false
  | String _ s' => endswith s' suf
  end.

(** [s[n:]] *)
Fixpoint drop (n : nat) (s : string) : string :=
  match n, s with
  | O, _ => s
  | S _, EmptyString => EmptyString
  | S n', String _ s' => drop n' s'
  end.

(** [s[:-n]] for a positive literal [n]: all but the last [n] characters
    (the empty string when [s] is shorter). *)
Definition drop_last (n : nat) (s : string) : string :=
  String.substring 0 (String.length s - n) s.

(** [s.replace(old, new)] for a non-empty [old]: scanning from the left,
    every non-overlapping occurrence of [old] is replaced.  [skip] counts
    the characters of a matched occurrence still to be passed over. *)
Fixpoint replace_from (old new : string) (skip : nat) (s : string) : string :=
  match s with
  | EmptyString => EmptyString
  | String c s' =>
      match skip with
      | S k => replace_from old new k s'
      | O =>
          if String.prefix old s
          then new ++ replace_from old new (String.length old - 1) s'
          else String c (replace_from old new 0 s')
      end
  end.

Definition replace (old new s : string) : string := replace_from old new 0 s.

(** [s.split(sep)] for a one-character separator: never the empty list,
    [''.split('/') == ['']]. *)
Fixpoint split (sep : ascii) (s : string) : list string :=
  match s with
  | EmptyString => [EmptyString]
  | String c s' =>
      if Ascii.eqb c sep then EmptyString :: split sep s'
      else match split sep s' with
           | h :: t => String c h :: t
           | [] => [String c EmptyString]
           end
  end.

(** A string given by the codes of its bytes. *)
Definition of_bytes (codes : list nat) : string :=
  fold_right (fun n s => String (ascii_of_nat n) s) EmptyString codes.

(** The characters removed by [str.strip()], those for which
    [str.isspace()] holds, each in its UTF-8 encoding: U+0009..U+000D,
    U+001C..U+0020, U+0085, U+00A0, U+1680, U+2000..U+200A, U+2028,
    U+2029, U+202F, U+205F and U+3000. *)
Definition whitespace : list string :=
  map of_bytes
    ([ [9]; [10]; [11]; [12]; [13]; [28]; [29]; [30]; [31]; [32];
      [194; 133]; [194; 160]; [225; 154; 128];
      [226; 128; 128]; [226; 128; 129]; [226; 128; 130]; [226; 128; 131];
      [226; 128; 132]; [226; 128; 133]; [226; 128; 134]; [226; 128; 135];
      [226; 128; 136]; [226; 128; 137]; [226; 128; 138];
      [226; 128; 168]; [226; 128; 169]; [226; 128; 175];
      [226; 129; 159]; [227; 128; 128] ])%nat.

(** The length in bytes of the white-space character [s] starts with. *)
Fixpoint space_length (spaces : list string) (s : string) : option nat :=
  match spaces with
  | [] => None
  | sp :: spaces' =>
      if String.prefix sp s then Some (String.length sp) else space_length spaces' s
  end.

(** [s.lstrip()]; [skip] counts the bytes of a white-space character
    still to be passed over. *)
Fixpoint lstrip_from (skip : nat) (s : string) : string :=
  match s with
  | EmptyString => EmptyString
  | String _ s' =>
      match skip with
      | S k => lstrip_from k s'
      | O =>
          match space_length whitespace s with
          | Some n => lstrip_from (n - 1) s'
          | None => s
          end
      end
  end.

Definition lstrip (s : string) : string := lstrip_from 0 s.

(** [s.rstrip()]: nothing is left of a string of white space, and the
    first byte stays otherwise.  (A white-space character never starts
    inside another character: its first byte is not a continuation
    byte.) *)
Fixpoint rstrip (s : string) : string :=
  match s with
  | EmptyString => EmptyString
  | String c s' =>
      if String.eqb (lstrip s) EmptyString then EmptyString else String c (rstrip s')
  end.

(** [s.strip()] *)
Definition strip (s : string) : string := rstrip (lstrip s).

(** [l[-1]] on the result of a split, which is never empty. *)
Definition last_segment (l : list string) : string := List.last l EmptyString.

(** [sep.join(l)] *)
Definition join (sep : string) (l : list string) : string := String.concat sep l.

(** [c * n] for a one-character string [c] *)
Fixpoint repeat_char (c : ascii) (n : nat) : string :=
  match n with
  | O => EmptyString
  | S n' => String c (repeat_char c n')
  end.

(** The bytes that may follow a first byte with code [c] in UTF-8, each
    as a range; [None] when no character starts with [c].  The ranges
    leave out the overlong forms, the surrogates and what lies beyond
    U+10FFFF. *)
Definition utf8_lead (c : nat) : option (list (nat * nat)) :=
  if (c <? 128)%nat then Some []
  else if (c <? 194)%nat then None
  else if (c <? 224)%nat then Some ([(128, 191)])%nat
  else if (c =? 224)%nat then Some ([(160, 191); (128, 191)])%nat
  else if (c =? 237)%nat then Some ([(128, 159); (128, 191)])%nat
  else if (c <? 240)%nat then Some ([(128, 191); (128, 191)])%nat
  else if (c =? 240)%nat then Some ([(144, 191); (128, 191); (128, 191)])%nat
  else if (c <? 244)%nat then Some ([(128, 191); (128, 191); (128, 191)])%nat
  else if (c =? 244)%nat then Some ([(128, 143); (128, 191); (128, 191)])%nat
  else None.

Fixpoint utf8_from (pending : list (nat * nat)) (b : string) : bool :=
  match b with
  | EmptyString => match pending with [] => true | _ => false end
  | String c b' =>
      let n := nat_of_ascii c in
      match pending with
      | (lo, hi) :: rest => (lo <=? n)%nat && (n <=? hi)%nat && utf8_from rest b'
      | [] =>
          match utf8_lead n with
          | Some following => utf8_from following b'
          | None => false
          end
      end
  end.

(** [b.decode()] returns: the bytes [b] are UTF-8. *)
Definition decodes (b : string) : bool := utf8_from [] b.

(** Truthiness of a string: [bool(s)] *)
Definition truthy (s : string) : bool := negb (String.eqb s EmptyString).

(** Truthiness of an optional string ([None] or [str]) *)
Definition truthy_opt (o : option string) : bool :=
  match o with
  | Some s => truthy s
  | None => false
  end.

(** Number of occurrences of a character *)
Fixpoint count (c : ascii) (s : string) : nat :=
  match s with
  | EmptyString => O
  | String a s' => ((if Ascii.eqb a c then 1 else 0) + count c s')%nat
  end.

End PyStr.

(** [os.path.join] of posixpath, two components at a time. *)
Definition path_join2 (path b : string) : string :=
  if PyStr.startswith b "/" then b
  else if negb (PyStr.truthy path) || PyStr.endswith path "/" then path ++ b
  else path ++ "/" ++ b.

Definition os_path_join (a : string) (p : list string) : string :=
  fold_left path_join2 p a.

(** ** Exceptions *)

Inductive exn : Type :=
| ValueError (msg : string)
| Exception (msg : string)
| CalledProcessError (returncode : Z) (stderr : string)
| KeyError (key : string)
| LibraryError (msg : string)
| SystemExit (code : Z).

(** [isinstance(e, Exception)]: everything but [SystemExit], which derives
    from [BaseException] only. *)
Definition is_Exception (e : exn) : bool :=
  match e with
  | SystemExit _ => false
  | _ => true
  end.

(** [str(e)] *)
Definition str_exn (e : exn) : string :=
  match e with
  | ValueError msg => msg
  | Exception msg => msg
  | CalledProcessError rc _ =>
      "Command returned non-zero exit status " ++ pretty rc ++ "."
  | KeyError key => "'" ++ key ++ "'"
  | LibraryError msg => msg
  | SystemExit code => pretty code
  end.

Inductive outcome (A : Type) : Type :=
| Ok (a : A)
| Raise (e : exn).
Arguments Ok {A} a.
Arguments Raise {A} e.

(** ** Repository Locator *)

Definition https_prefix : string := "https://github.com/".
Definition ssh_prefix : string := "git@github.com:".

Definition strip_git_suffix (repo_url : string) : string :=
  if PyStr.endswith repo_url ".git" then PyStr.drop_last 4 repo_url else repo_url.

Definition invalid_url (repo_url : string) : exn :=
  ValueError ("Invalid GitHub URL format: " ++ repo_url).

Definition extract_repo_info (repo_url : string) : outcome (string * string) :=
  let repo_url := strip_git_suffix repo_url in
  let parts :=
    if PyStr.startswith repo_url https_prefix then
      Some (PyStr.split "/" (PyStr.replace https_prefix "" repo_url))
    else if PyStr.startswith repo_url ssh_prefix then
      Some (PyStr.split "/" (PyStr.replace ssh_prefix "" repo_url))
    else None in
  match parts with
  | None => Raise (invalid_url repo_url)
  | Some parts =>
      match parts with
      | [owner; repo] => Ok (owner, repo)
      | _ => Raise (invalid_url repo_url)
      end
  end.

(** ** The environment the script runs in

    The script talks to three collaborators: the GitHub REST API (through
    a [requests] session), the [git] command-line tool (through
    [subprocess.run]) and the operating system (files, scratch
    directories, the PyNaCl library).  A host answers each call from its
    current state; an answer is a returned value or a failure, which the
    caller sees as an exception of some subclass of [Exception]. *)

Inductive reply (A : Type) : Type :=
| Returned (a : A)
| Failed (msg : string).
Arguments Returned {A} a.
Arguments Failed {A} msg.

(** A [requests.Response]: [json = None] when the body does not parse. *)
Record response : Type := mkResponse {
  status_code : Z;
  text : string;
  json : option (gmap string string)
}.

(** A [subprocess.CompletedProcess] with captured output: the decoded
    text, in UTF-8, for a command run with [text=True] ([git clone] and
    the queries of [get_default_branch]), and the captured bytes as they
    are for the others (the commands of [push_workflows]).  A [text=True]
    run whose output does not decode raises inside [subprocess.run]: it
    is a [Failed] reply of the host. *)
Record completed : Type := mkCompleted {
  returncode : Z;
  stdout : string;
  stderr : string
}.

Inductive json_value : Type :=
| JStr (s : string)
| JBool (b : bool).

(** [host_decode_error b] is the text of the [UnicodeDecodeError] that the
    interpreter raises for bytes [b] that are not UTF-8. *)
Class Host (W : Type) : Type := {
  host_get : string -> W -> reply response * W;
  host_put : string -> list (string * json_value) -> W -> reply response * W;
  host_run : list string -> string -> W -> reply completed * W;
  host_getcwd : W -> reply string * W;
  host_chdir : string -> W -> reply unit * W;
  host_makedirs : string -> W -> reply unit * W;
  host_listdir : string -> W -> reply (list string) * W;
  host_copy2 : string -> string -> W -> reply unit * W;
  host_path_exists : string -> W -> bool * W;
  host_tempdir : W -> reply string * W;
  host_cleanup : string -> W -> reply unit * W;
  host_nacl_installed : bool;
  host_seal : string -> string -> W -> reply string * W;
  host_sleep : Z -> W -> W;
  host_decode_error : string -> string
}.

(** What an observer of a run sees, in order. *)
Inductive event : Type :=
| EvPrint (line : string)
| EvGet (url : string) (r : reply response)
| EvPut (url : string) (data : list (string * json_value)) (r : reply response)
| EvRun (args : list string) (cwd : string) (r : reply completed)
| EvGetcwd (r : reply string)
| EvChdir (path : string) (r : reply unit)
| EvMakedirs (path : string) (r : reply unit)
| EvListdir (path : string) (r : reply (list string))
| EvCopy2 (src dst : string) (r : reply unit)
| EvPathExists (path : string) (b : bool)
| EvTempdir (r : reply string)
| EvCleanup (path : string) (r : reply unit)
| EvImportNacl (ok : bool)
| EvSeal (public_key value : string) (r : reply string)
| EvSleep (seconds : Z).

(** ** Results of processing one repository *)

Inductive status : Type := success | partial | error.

(** The result dictionary.  The keys ['repo'] and ['status'] are always
    present; the others are [None] when the key is absent. *)
Record ProcessingResult : Type := mkResult {
  repo : string;
  status_of : status;
  message : option string;
  workflows_pushed : option bool;
  secrets_added : option (gmap string bool);
  permissions_updated : option bool;
  errors : option (list string)
}.

Definition error_result (repo_url msg : string) : ProcessingResult :=
  mkResult repo_url error (Some msg) None None None None.

Definition fresh_result (repo_url : string) : ProcessingResult :=
  mkResult repo_url success None (Some false) (Some ∅) (Some false) (Some []).

(** [result['workflows_pushed'] = b] *)
Definition set_workflows_pushed (b : bool) (r : ProcessingResult) : ProcessingResult :=
  mkResult (repo r) (status_of r) (message r) (Some b) (secrets_added r)
           (permissions_updated r) (errors r).

(** [result['secrets_added'][name] = b] *)
Definition set_secret (name : string) (b : bool) (r : ProcessingResult) : ProcessingResult :=
  mkResult (repo r) (status_of r) (message r) (workflows_pushed r)
           (insert name b <$> secrets_added r) (permissions_updated r) (errors r).

(** [result['permissions_updated'] = b] *)
Definition set_permissions_updated (b : bool) (r : ProcessingResult) : ProcessingResult :=
  mkResult (repo r) (status_of r) (message r) (workflows_pushed r) (secrets_added r)
           (Some b) (errors r).

(** [result['errors'].append(msg)] *)
Definition append_error (msg : string) (r : ProcessingResult) : ProcessingResult :=
  mkResult (repo r) (status_of r) (message r) (workflows_pushed r) (secrets_added r)
           (permissions_updated r) ((fun l : list string => (l ++ [msg])%list) <$> errors r).

(** [result['status'] = s] *)
Definition set_status (s : status) (r : ProcessingResult) : ProcessingResult :=
  mkResult (repo r) s (message r) (workflows_pushed r) (secrets_added r)
           (permissions_updated r) (errors r).

(** [bool(result['errors'])] and [bool(result.get('errors'))] *)
Definition has_errors (r : ProcessingResult) : bool :=
  match errors r with
  | Some (_ :: _) => true
  | _ => false
  end.

Definition nl : string := String (ascii_of_nat 10) EmptyString.

Definition GITHUB_API_BASE : string := "https://api.github.com".

(** ** The script, over an arbitrary host

    Effects are threaded through a state, exception and log monad: the
    state is the host's state, the exceptions are those of [exn], the log
    is the sequence of events of the run. *)

Declare Scope py_scope.
Delimit Scope py_scope with py.

Section Script.

Context {W : Type} {host : Host W}.

(** What running a computation from a host state gives: the value
    returned or the exception raised, the host state afterwards, and the
    events of the run in order. *)
Record ran (A : Type) : Type := Ran {
  value : outcome A;
  after : W;
  log : list event
}.
Arguments Ran {A} value after log.
Arguments value {A} r.
Arguments after {A} r.
Arguments log {A} r.

Definition M (A : Type) : Type := W -> ran A.

Definition ret {A : Type} (a : A) : M A := fun w => Ran (Ok a) w [].

Definition bind {A B : Type} (m : M A) (k : A -> M B) : M B :=
  fun w =>
    let r := m w in
    match value r with
    | Ok a =>
        let r' := k a (after r) in
        Ran (value r') (after r') (log r ++ log r')
    | Raise e => Ran (Raise e) (after r) (log r)
    end.

Definition raise {A : Type} (e : exn) : M A := fun w => Ran (Raise e) w [].

Definition lift {A : Type} (o : outcome A) : M A := fun w => Ran o w [].

Definition emit (ev : event) : M unit := fun w => Ran (Ok tt) w [ev].

(** A call into the host: the answer is logged, a failure is raised. *)
Definition call {A : Type} (f : W -> reply A * W) (ev : reply A -> event) : M A :=
  fun w =>
    let a := f w in
    match a.1 with
    | Returned x => Ran (Ok x) a.2 [ev a.1]
    | Failed msg => Ran (Raise (LibraryError msg)) a.2 [ev a.1]
    end.

(** [try: body  except ...: handler]; the handler says which exceptions
    it catches. *)
Definition try_except {A : Type} (body : M A) (handler : exn -> option (M A)) : M A :=
  fun w =>
    let r := body w in
    match value r with
    | Ok a => r
    | Raise e =>
        match handler e with
        | Some h =>
            let r' := h (after r) in
            Ran (value r') (after r') (log r ++ log r')
        | None => r
        end
    end.

(** [try: body  finally: final] *)
Definition try_finally {A : Type} (body : M A) (final : M unit) : M A :=
  fun w =>
    let r := body w in
    let r' := final (after r) in
    match value r' with
    | Ok _ => Ran (value r) (after r') (log r ++ log r')
    | Raise e => Ran (Raise e) (after r') (log r ++ log r')
    end.

(** [except Exception as e: h e] *)
Definition except_Exception {A : Type} (h : exn -> M A) (e : exn) : option (M A) :=
  if is_Exception e then Some (h e) else None.

(** [except subprocess.CalledProcessError as e: h e.stderr] *)
Definition except_CalledProcessError {A : Type} (h : string -> M A) (e : exn)
  : option (M A) :=
  match e with
  | CalledProcessError _ err => Some (h err)
  | _ => None
  end.

(** A bare [except: h] *)
Definition except_all {A : Type} (h : M A) (e : exn) : option (M A) := Some h.

Notation "x <- m ;; k" := (bind m (fun x => k))
  (at level 100, m at next level, right associativity) : py_scope.
Notation "m ;; k" := (bind m (fun _ => k))
  (at level 100, right associativity) : py_scope.

Local Open Scope py_scope.

(** [for x in l: s = body x s] *)
Fixpoint for_each {A S : Type} (l : list A) (body : A -> S -> M S) (s : S) : M S :=
  match l with
  | [] => ret s
  | x :: l' => s' <- body x s ;; for_each l' body s'
  end.

(** *** Primitive operations *)

Definition print (line : string) : M unit := emit (EvPrint line).

Definition sys_exit {A : Type} (code : Z) : M A := raise (SystemExit code).

Definition session_get (url : string) : M response :=
  call (host_get url) (EvGet url).

Definition session_put (url : string) (data : list (string * json_value)) : M response :=
  call (host_put url data) (EvPut url data).

(** [subprocess.run(args, capture_output=True, cwd=cwd, check=check)] *)
Definition subprocess_run (args : list string) (cwd : string) (check : bool)
  : M completed :=
  p <- call (host_run args cwd) (EvRun args cwd) ;;
  if check && negb (returncode p =? 0)
  then raise (CalledProcessError (returncode p) (stderr p))
  else ret p.

Definition os_getcwd : M string := call host_getcwd EvGetcwd.
Definition os_chdir (path : string) : M unit := call (host_chdir path) (EvChdir path).
Definition os_makedirs (path : string) : M unit :=
  call (host_makedirs path) (EvMakedirs path).
Definition os_listdir (path : string) : M (list string) :=
  call (host_listdir path) (EvListdir path).
Definition shutil_copy2 (src dst : string) : M unit :=
  call (host_copy2 src dst) (EvCopy2 src dst).

Definition os_path_exists (path : string) : M bool :=
  fun w =>
    let a := host_path_exists path w in
    Ran (Ok a.1) a.2 [EvPathExists path a.1].

Definition time_sleep (seconds : Z) : M unit :=
  fun w => Ran (Ok tt) (host_sleep seconds w) [EvSleep seconds].

(** [with tempfile.TemporaryDirectory() as temp_dir: body] *)
Definition with_tempdir {A : Type} (body : string -> M A) : M A :=
  temp_dir <- call host_tempdir EvTempdir ;;
  try_finally (body temp_dir) (call (host_cleanup temp_dir) (EvCleanup temp_dir)).

(** [d[k]] on a dictionary parsed from JSON *)
Definition dict_get (d : gmap string string) (k : string) : M string :=
  match d !! k with
  | Some v => ret v
  | None => raise (KeyError k)
  end.

(** *** class GitHubAutomation *)

Definition check_repo_exists (owner repo : string) : M bool :=
  let url := GITHUB_API_BASE ++ "/repos/" ++ owner ++ "/" ++ repo in
  response <- session_get url ;;
  ret (status_code response =? 200).

Definition get_repo_public_key (owner repo : string) : M (gmap string string) :=
  let url := GITHUB_API_BASE ++ "/repos/" ++ owner ++ "/" ++ repo
             ++ "/actions/secrets/public-key" in
  response <- session_get url ;;
  if status_code response =? 200 then
    match json response with
    | Some d => ret d
    | None => raise (LibraryError "Expecting value")
    end
  else
    raise (Exception ("Failed to get public key: " ++ pretty (status_code response)
                      ++ " - " ++ text response)).

(** The three PyNaCl steps (public key object, sealed box, base64) are
    one call into the host; a missing library ends the process. *)
Definition encrypt_secret (public_key secret_value : string) : M string :=
  emit (EvImportNacl host_nacl_installed) ;;
  if host_nacl_installed then
    call (host_seal public_key secret_value) (EvSeal public_key secret_value)
  else
    print "❌ Error: PyNaCl library required for secret encryption" ;;
    print "Install it with: pip install PyNaCl" ;;
    sys_exit 1.

Definition secret_url (owner repo secret_name : string) : string :=
  GITHUB_API_BASE ++ "/repos/" ++ owner ++ "/" ++ repo ++ "/actions/secrets/"
  ++ secret_name.

Definition create_or_update_secret (owner repo secret_name secret_value : string)
  : M bool :=
  try_except
    (public_key_data <- get_repo_public_key owner repo ;;
     key <- dict_get public_key_data "key" ;;
     encrypted_value <- encrypt_secret key secret_value ;;
     let url := secret_url owner repo secret_name in
     key_id <- dict_get public_key_data "key_id" ;;
     let data := [("encrypted_value", JStr encrypted_value); ("key_id", JStr key_id)] in
     response <- session_put url data ;;
     if (status_code response =? 201) || (status_code response =? 204) then ret true
     else
       print ("   ❌ Failed to set secret " ++ secret_name ++ ": "
              ++ pretty (status_code response) ++ " - " ++ text response) ;;
       ret false)
    (except_Exception (fun e =>
       print ("   ❌ Error setting secret " ++ secret_name ++ ": " ++ str_exn e) ;;
       ret false)).

Definition permissions_url (owner repo : string) : string :=
  GITHUB_API_BASE ++ "/repos/" ++ owner ++ "/" ++ repo ++ "/actions/permissions".

Definition update_workflow_permissions (owner repo : string) : M bool :=
  try_except
    (let url := permissions_url owner repo in
     let data := [("enabled", JBool true);
                  ("default_workflow_permissions", JStr "write");
                  ("can_approve_pull_request_reviews", JBool true)] in
     response <- session_put url data ;;
     if (status_code response =? 200) || (status_code response =? 204) then ret true
     else
       print ("   ❌ Failed to update workflow permissions: "
              ++ pretty (status_code response) ++ " - " ++ text response) ;;
       ret false)
    (except_Exception (fun e =>
       print ("   ❌ Error updating workflow permissions: " ++ str_exn e) ;;
       ret false)).

Definition clone_repo (token repo_url temp_dir : string) : M string :=
  info <- lift (extract_repo_info repo_url) ;;
  let '(owner, repo) := info in
  let clone_url := "https://" ++ token ++ "@github.com/" ++ owner ++ "/" ++ repo
                   ++ ".git" in
  let repo_path := os_path_join temp_dir [repo] in
  try_except
    (original_cwd <- os_getcwd ;;
     subprocess_run ["git"; "clone"; clone_url; repo_path] original_cwd true ;;
     ret repo_path)
    (except_CalledProcessError (fun err =>
       raise (Exception ("Failed to clone repository: " ++ err)))).

(** [for branch in ['main', 'master']: ... return branch] *)
Fixpoint first_local_branch (repo_path : string) (branches : list string)
  : M (option string) :=
  match branches with
  | [] => ret None
  | branch :: rest =>
      result <- subprocess_run
                  ["git"; "show-ref"; "--verify"; "--quiet"; "refs/heads/" ++ branch]
                  repo_path false ;;
      if returncode result =? 0 then ret (Some branch)
      else first_local_branch repo_path rest
  end.

Definition get_default_branch (repo_path : string) : M string :=
  try_except
    (result <- subprocess_run ["git"; "branch"; "--show-current"] repo_path true ;;
     let current_branch := PyStr.strip (stdout result) in
     if PyStr.truthy current_branch then ret current_branch
     else
       result <- subprocess_run ["git"; "symbolic-ref"; "refs/remotes/origin/HEAD"]
                   repo_path false ;;
       if returncode result =? 0 then
         ret (PyStr.last_segment (PyStr.split "/" (PyStr.strip (stdout result))))
       else
         found <- first_local_branch repo_path ["main"; "master"] ;;
         match found with
         | Some branch => ret branch
         | None => ret "main"
         end)
    (except_all (ret "main")).

Definition is_workflow_file (workflow_file : string) : bool :=
  PyStr.endswith workflow_file ".yml" || PyStr.endswith workflow_file ".yaml".

(** The body of the copy loop of [push_workflows]. *)
Definition copy_workflow (workflows_source workflows_dest workflow_file : string)
  (_ : unit) : M unit :=
  if is_workflow_file workflow_file then
    let src_file := os_path_join workflows_source [workflow_file] in
    let dest_file := os_path_join workflows_dest [workflow_file] in
    shutil_copy2 src_file dest_file ;;
    print ("   📋 Copied " ++ workflow_file)
  else ret tt.

(** The statements of the [try] block of [push_workflows] that follow the
    assignment of [original_cwd]. *)
Definition push_workflows_body (repo_path workflows_source : string) : M bool :=
  let workflows_dest := os_path_join repo_path [".github"; "workflows"] in
  os_makedirs workflows_dest ;;
  files <- os_listdir workflows_source ;;
  for_each files (copy_workflow workflows_source workflows_dest) tt ;;
  subprocess_run ["git"; "add"; ".github/workflows/"] repo_path true ;;
  result <- subprocess_run ["git"; "diff"; "--cached"; "--quiet"] repo_path false ;;
  if returncode result =? 0 then
    print "   ℹ️  No changes to commit (workflows already up to date)" ;;
    ret true
  else
    subprocess_run ["git"; "commit"; "-m"; "Add/Update GitHub Actions workflows"]
      repo_path true ;;
    default_branch <- get_default_branch repo_path ;;
    print ("   📤 Pushing to " ++ default_branch ++ " branch...") ;;
    subprocess_run ["git"; "push"; "origin"; default_branch] repo_path true ;;
    ret true.

(** [b.decode()]: the bytes as text when they are UTF-8, and a
    [UnicodeDecodeError] otherwise, whose text is the interpreter's. *)
Definition bytes_decode (b : string) : M string :=
  if PyStr.decodes b then ret b else raise (LibraryError (host_decode_error b)).

(** [e.stderr.decode() if e.stderr else 'Unknown error']: the commands of
    [push_workflows] capture their output as bytes. *)
Definition stderr_or_unknown (err : string) : M string :=
  if PyStr.truthy err then bytes_decode err else ret "Unknown error".

(** [original_cwd] is assigned by the first statement of the [try] block.
    When [os.getcwd()] raises, the name is unbound, the [os.chdir] of the
    [finally] block fails before it reaches the host and the failure is
    swallowed, so the exception of [os.getcwd()] goes to the caller (it is
    not a [CalledProcessError]).  Otherwise the [finally] block restores
    the directory and swallows any failure of that. *)
Definition push_workflows (repo_path workflows_source : string) : M bool :=
  original_cwd <- os_getcwd ;;
  try_finally
    (try_except
       (push_workflows_body repo_path workflows_source)
       (except_CalledProcessError (fun err =>
          text <- stderr_or_unknown err ;;
          print ("   ❌ Git operation failed: " ++ text) ;;
          ret false)))
    (try_except (os_chdir original_cwd) (except_all (ret tt))).

(** The workflow stage of [process_repository]: the body of the [with]
    block.  Nothing can raise between the two updates of [result] in the
    [try] block, so the handler sees [result] as it was on entry. *)
Definition workflow_stage (token repo_url workflows_source temp_dir : string)
  (result : ProcessingResult) : M ProcessingResult :=
  try_except
    (print "   📥 Cloning repository..." ;;
     repo_path <- clone_repo token repo_url temp_dir ;;
     print "   🚀 Pushing workflows..." ;;
     workflows_success <- push_workflows repo_path workflows_source ;;
     let result := set_workflows_pushed workflows_success result in
     if workflows_success then
       print "   ✅ Workflows pushed successfully" ;;
       ret result
     else
       ret (append_error "Failed to push workflows" result))
    (except_Exception (fun e =>
       let error_msg := "Failed to process workflows: " ++ str_exn e in
       print ("   ❌ " ++ error_msg) ;;
       ret (append_error error_msg result))).

(** The body of the loop over [SECRETS_TO_ADD.items()]. *)
Definition secret_step (owner repo : string) (item : string * option string)
  (result : ProcessingResult) : M ProcessingResult :=
  let '(secret_name, secret_value) := item in
  let skip :=
    print ("   ⚠️  Skipping " ++ secret_name ++ " (value not found in environment)") ;;
    ret (set_secret secret_name false result) in
  match secret_value with
  | Some value =>
      if PyStr.truthy value then
        success <- create_or_update_secret owner repo secret_name value ;;
        let result := set_secret secret_name success result in
        if success then
          print ("   ✅ Secret " ++ secret_name ++ " set successfully") ;;
          ret result
        else
          ret (append_error ("Failed to set secret " ++ secret_name) result)
      else skip
  | None => skip
  end.

Definition permission_stage (owner repo : string) (result : ProcessingResult) : M ProcessingResult :=
  print "   🔧 Updating workflow permissions..." ;;
  permissions_success <- update_workflow_permissions owner repo ;;
  let result := set_permissions_updated permissions_success result in
  if permissions_success then
    print "   ✅ Workflow permissions updated successfully" ;;
    print "      - Read and write permissions enabled" ;;
    print "      - GitHub Actions can create and approve pull requests" ;;
    ret result
  else
    ret (append_error "Failed to update workflow permissions" result).

Definition not_accessible : string := "Repository not found or not accessible".

(** The statements of the [try] block of [process_repository] that
    follow the existence check. *)
Definition stages (token : string) (SECRETS_TO_ADD : list (string * option string))
  (repo_url workflows_source owner repo : string) : M ProcessingResult :=
  let result := fresh_result repo_url in
  result <- with_tempdir (fun temp_dir =>
              workflow_stage token repo_url workflows_source temp_dir result) ;;
  print "   🔐 Setting repository secrets..." ;;
  result <- for_each SECRETS_TO_ADD (secret_step owner repo) result ;;
  result <- permission_stage owner repo result ;;
  let result := if has_errors result then set_status partial result else result in
  ret result.

Definition processing_line (repo_url : string) : string :=
  nl ++ "🔄 Processing repository: " ++ repo_url.

Definition process_repository (token : string) (SECRETS_TO_ADD : list (string * option string))
  (repo_url workflows_source : string) : M ProcessingResult :=
  print (processing_line repo_url) ;;
  try_except
    (info <- lift (extract_repo_info repo_url) ;;
     let '(owner, repo) := info in
     reachable <- check_repo_exists owner repo ;;
     if negb reachable then ret (error_result repo_url not_accessible)
     else stages token SECRETS_TO_ADD repo_url workflows_source owner repo)
    (except_Exception (fun e => ret (error_result repo_url (str_exn e)))).

(** *** main *)

(** [enumerate(l, start)] *)
Fixpoint enumerate {A : Type} (start : nat) (l : list A) : list (nat * A) :=
  match l with
  | [] => []
  | x :: l' => (start, x) :: enumerate (S start) l'
  end.

Definition status_emoji (s : status) : string :=
  match s with
  | success => "✅"
  | partial => "⚠️ "
  | error => "❌"
  end.

Definition tick (b : bool) : string := if b then "✅" else "❌".

(** [sum(1 for success in result['secrets_added'].values() if success)] *)
Definition count_added (m : gmap string bool) : nat :=
  length (filter (fun kv : string * bool => kv.2 = true) (map_to_list m)).

(** The body of the summary loop of [main]. *)
Definition print_result (result : ProcessingResult) (_ : unit) : M unit :=
  let repo_name := PyStr.last_segment (PyStr.split "/" (repo result)) in
  print (nl ++ status_emoji (status_of result) ++ " " ++ repo_name) ;;
  match status_of result with
  | error =>
      print ("   Error: " ++ default "Unknown error" (message result))
  | _ =>
      match workflows_pushed result with
      | Some b => print ("   Workflows: " ++ tick b)
      | None => ret tt
      end ;;
      match secrets_added result with
      | Some m =>
          print ("   Secrets: " ++ pretty (count_added m) ++ "/" ++ pretty (size m)
                 ++ " added")
      | None => ret tt
      end ;;
      match permissions_updated result with
      | Some b => print ("   Workflow Permissions: " ++ tick b)
      | None => ret tt
      end ;;
      if has_errors result then
        print ("   Errors: " ++ PyStr.join ", " (default [] (errors result)))
      else ret tt
  end.

Definition workflows_dir : string := ".github/workflows".

(** The body of the processing loop of [main]; the loop state is
    [(results, successful_repos)]. *)
Definition process_step (token : string) (SECRETS_TO_ADD : list (string * option string))
  (total : nat) (item : nat * string) (acc : list ProcessingResult * nat)
  : M (list ProcessingResult * nat) :=
  let '(i, repo_url) := item in
  let '(results, successful_repos) := acc in
  print (nl ++ "[" ++ pretty i ++ "/" ++ pretty total ++ "] "
         ++ PyStr.repeat_char "=" 40) ;;
  result <- process_repository token SECRETS_TO_ADD repo_url workflows_dir ;;
  let results := (results ++ [result])%list in
  let successful_repos :=
    match status_of result with
    | success => S successful_repos
    | _ => successful_repos
    end in
  (if (i <? total)%nat then time_sleep 2 else ret tt) ;;
  ret (results, successful_repos).

Definition summary_header : string := "📊 AUTOMATION SUMMARY".

(** The statements of [main] that follow the check of the workflows
    directory: the warning about missing values, the processing loop and
    the summary. *)
Definition process_all (GITHUB_TOKEN : string) (SECRETS_TO_ADD : list (string * option string))
  (repo_urls : list string) : M unit :=
  let missing_vars :=
    map fst (filter (fun kv : string * option string =>
                       negb (PyStr.truthy_opt kv.2) = true) SECRETS_TO_ADD) in
  match missing_vars with
  | [] => ret tt
  | _ =>
      print ("⚠️  Warning: Missing environment variables: "
             ++ PyStr.join ", " missing_vars) ;;
      print "These secrets will be skipped."
  end ;;
  print (nl ++ "📋 Processing " ++ pretty (length repo_urls) ++ " repositories...") ;;
  acc <- for_each (enumerate 1 repo_urls)
           (process_step GITHUB_TOKEN SECRETS_TO_ADD (length repo_urls)) ([], O) ;;
  let '(results, successful_repos) := acc in
  print (nl ++ PyStr.repeat_char "=" 60) ;;
  print summary_header ;;
  print (PyStr.repeat_char "=" 60) ;;
  print ("✅ Successfully processed: " ++ pretty successful_repos ++ "/"
         ++ pretty (length repo_urls) ++ " repositories") ;;
  for_each results print_result tt ;;
  print (nl ++ "🎉 Automation completed!").

Definition banner : string := "🚀 GitHub Repository Automation Script".

Definition no_workflows_line : string :=
  "❌ Error: Workflows directory '" ++ workflows_dir ++ "' not found!".

Definition main (GITHUB_TOKEN : string) (SECRETS_TO_ADD : list (string * option string))
  (repo_urls : list string) : M unit :=
  print banner ;;
  print (PyStr.repeat_char "=" 50) ;;
  found <- os_path_exists workflows_dir ;;
  if negb found then
    print no_workflows_line ;;
    sys_exit 1
  else process_all GITHUB_TOKEN SECRETS_TO_ADD repo_urls.

(** *** Module level *)

(** The dictionary [SECRETS_TO_ADD], in insertion order; the values come
    from the process environment. *)
Definition SECRETS_TO_ADD (env : gmap string string) : list (string * option string) :=
  [ ("AWS_ACCESS_KEY_ID", env !! "AWS_ACCESS_KEY_ID");
    ("AWS_SECRET_ACCESS_KEY", env !! "AWS_SECRET_ACCESS_KEY");
    ("AWS_REGION", env !! "AWS_REGION");
    ("AWS_BEDROCK_MODEL_ID", env !! "AWS_BEDROCK_MODEL_ID") ].

Definition no_token_lines : list string :=
  [ "❌ Error: GITHUB_TOKEN environment variable not set!";
    "Please set your GitHub Personal Access Token:";
    "export GITHUB_TOKEN='your_token_here'" ].

(** The body of the module-level guard [if not GITHUB_TOKEN:]. *)
Definition no_token : M unit :=
  print "❌ Error: GITHUB_TOKEN environment variable not set!" ;;
  print "Please set your GitHub Personal Access Token:" ;;
  print "export GITHUB_TOKEN='your_token_here'" ;;
  sys_exit 1.

(** Running the file as a script: the module-level statements, then
    [main()].  [env] is the process environment after [load_dotenv()]. *)
Definition script (env : gmap string string) (repo_urls : list string) : M unit :=
  match env !! "GITHUB_TOKEN" with
  | Some GITHUB_TOKEN =>
      if PyStr.truthy GITHUB_TOKEN then main GITHUB_TOKEN (SECRETS_TO_ADD env) repo_urls
      else no_token
  | None => no_token
  end.

(** The exit code of the interpreter for the outcome of the script:
    0 on normal completion, the code of a [SystemExit], 1 for any other
    uncaught exception. *)
Definition exit_code {A : Type} (o : outcome A) : Z :=
  match o with
  | Ok _ => 0
  | Raise (SystemExit code) => code
  | Raise _ => 1
  end.

End Script.

Arguments ran W A : clear implicits.
Arguments M W A : clear implicits.
Arguments Ran {W A} value after log.
Arguments value {W A} r.
Arguments after {W A} r.
Arguments log {W A} r.

(** The list of repositories of the script. *)
Definition repo_urls : list string :=
  [ "https://github.com/anisharma07/c4gt-website";
    "https://github.com/anisharma07/Invoice-PPT-Subscribe-Storacha-Storage";
    "https://github.com/anisharma07/web3-invoice-token-gated-storacha" ].

(** ** Observing a run *)

(** The sub-command of a [git] invocation. *)
Definition git_subcommand (ev : event) : option string :=
  match ev with
  | EvRun (_ :: sub :: _) _ _ => Some sub
  | _ => None
  end.

Definition is_commit_or_push (ev : event) : bool :=
  match git_subcommand ev with
  | Some sub => String.eqb sub "commit" || String.eqb sub "push"
  | None => false
  end.

(** The staged diff was asked for in [repo_path] and came back empty. *)
Definition is_empty_diff (repo_path : string) (ev : event) : Prop :=
  exists p, ev = EvRun ["git"; "diff"; "--cached"; "--quiet"] repo_path (Returned p)
            /\ returncode p = 0.

Definition repo_api_url (owner repo : string) : string :=
  GITHUB_API_BASE ++ "/repos/" ++ owner ++ "/" ++ repo.

Definition public_key_url (owner repo : string) : string :=
  GITHUB_API_BASE ++ "/repos/" ++ owner ++ "/" ++ repo ++ "/actions/secrets/public-key".

(** The requests that go to the API, by method and URL, in order. *)
Definition api_request (ev : event) : option (string * string) :=
  match ev with
  | EvGet url _ => Some ("GET", url)
  | EvPut url _ _ => Some ("PUT", url)
  | _ => None
  end.

Definition api_requests (l : list event) : list (string * string) := omap api_request l.

(** The lines that announce the repositories of [repo_urls], in order. *)
Definition processing_lines (repo_urls : list string) : list event :=
  map (fun repo_url => EvPrint (processing_line repo_url)) repo_urls.

(** A request about the secret [secret_name] of a repository. *)
Definition is_secret_put (owner repo secret_name : string) (ev : event) : Prop :=
  exists data r, ev = EvPut (secret_url owner repo secret_name) data r.

(** The upload of [secret_name] was answered 201 or 204. *)
Definition is_accepted_put (owner repo secret_name : string) (ev : event) : Prop :=
  exists data resp,
    ev = EvPut (secret_url owner repo secret_name) data (Returned resp)
    /\ (status_code resp = 201 \/ status_code resp = 204).

(** A request for the public key of the repository: the first call of
    every attempt to set a secret. *)
Definition is_key_get (owner repo : string) (ev : event) : bool :=
  match ev with
  | EvGet url _ => String.eqb url (public_key_url owner repo)
  | _ => false
  end.

Definition is_permissions_put (owner repo : string) (ev : event) : Prop :=
  exists data r, ev = EvPut (permissions_url owner repo) data r.

(** The events of an attempt to set [secret_name]. *)
Definition secret_event (owner repo secret_name : string) (ev : event) : Prop :=
  match ev with
  | EvGet url _ => url = public_key_url owner repo
  | EvPut url _ _ => url = secret_url owner repo secret_name
  | EvImportNacl _ | EvSeal _ _ _ | EvPrint _ => True
  | _ => False
  end.

(** The events of the permission update. *)
Definition permission_event (owner repo : string) (ev : event) : Prop :=
  match ev with
  | EvPut url _ _ => url = permissions_url owner repo
  | EvPrint _ => True
  | _ => False
  end.

(** The events of the workflow stage: console output, [git] and the
    file system, never the API or the scratch directory itself. *)
Definition is_local (ev : event) : bool :=
  match ev with
  | EvPrint _ | EvRun _ _ _ | EvGetcwd _ | EvChdir _ _ | EvMakedirs _ _
  | EvListdir _ _ | EvCopy2 _ _ _ => true
  | _ => false
  end.

(** Creating or removing the scratch directory failed. *)
Definition is_scratch_failure (ev : event) : bool :=
  match ev with
  | EvTempdir (Failed _) => true
  | EvCleanup _ (Failed _) => true
  | _ => false
  end.

Definition scratch_failed (l : list event) : Prop :=
  Exists (fun ev => is_scratch_failure ev = true) l.

(** A secret is attempted when its configured value is a non-empty string. *)
Definition has_value (item : string * option string) : bool := PyStr.truthy_opt item.2.

(** The answer of the host to the existence check of [repo_url], asked
    first thing from the state [w]: the repository is reachable when the
    locator accepts the URL and the API answers 200. *)
Definition reachable {W : Type} {host : Host W} (repo_url : string) (w : W) : bool :=
  match extract_repo_info repo_url with
  | Ok (owner, repo) =>
      match (host_get (repo_api_url owner repo) w).1 with
      | Returned resp => status_code resp =? 200
      | Failed _ => false
      end
  | Raise _ => false
  end.

(** ** The locator as the specification words it

    Strip the extension, strip the known URL prefix, split on "/", and
    accept exactly two non-empty segments. *)

Definition spec_strip_prefix (s : string) : string :=
  if PyStr.startswith s https_prefix then PyStr.drop (String.length https_prefix) s
  else if PyStr.startswith s ssh_prefix then PyStr.drop (String.length ssh_prefix) s
  else s.

Definition spec_locator (repo_url : string) : option (string * string) :=
  match PyStr.split "/" (spec_strip_prefix (strip_git_suffix repo_url)) with
  | [owner; name] =>
      if PyStr.truthy owner && PyStr.truthy name then Some (owner, name) else None
  | _ => None
  end.

(** What the code splits on "/": the reference without its ".git" suffix
    and with every occurrence of its prefix deleted; [None] when the
    reference starts with neither known prefix. *)
Definition locator_remainder (u : string) : option string :=
  if PyStr.startswith u https_prefix then Some (PyStr.replace https_prefix "" u)
  else if PyStr.startswith u ssh_prefix then Some (PyStr.replace ssh_prefix "" u)
  else None.

Definition slash_free (s : string) : Prop := PyStr.count "/" s = O.

(** ** The locator on references that hold their prefix once

    The same steps in the specification's words, without the demand that
    the segments be non-empty and with the unknown prefix rejected: strip
    the extension, take what follows the known prefix, split on "/", and
    accept exactly two segments. *)

Definition spec_strip_suffix (s : string) : string :=
  if PyStr.endswith s ".git" then PyStr.drop_last (String.length ".git") s else s.

(** The known prefix [u] starts with, and what follows it. *)
Definition known_prefix (u : string) : option (string * string) :=
  if PyStr.startswith u https_prefix
  then Some (https_prefix, PyStr.drop (String.length https_prefix) u)
  else if PyStr.startswith u ssh_prefix
  then Some (ssh_prefix, PyStr.drop (String.length ssh_prefix) u)
  else None.

Definition two_segments (rem : string) : option (string * string) :=
  match PyStr.split "/" rem with
  | [owner; name] => Some (owner, name)
  | _ => None
  end.

Definition located (repo_url : string) : option (string * string) :=
  match known_prefix (spec_strip_suffix repo_url) with
  | Some (_, rem) => two_segments rem
  | None => None
  end.

(** [p] occurs somewhere in [s]. *)
Fixpoint occurs (p s : string) : bool :=
  String.prefix p s ||
  match s with
  | EmptyString => false
  | String _ s' => occurs p s'
  end.

(** The reference, without its extension, holds its known prefix at the
    start only (or starts with none). *)
Definition prefix_once (repo_url : string) : bool :=
  match known_prefix (spec_strip_suffix repo_url) with
  | Some (prefix, rem) => negb (occurs prefix rem)
  | None => true
  end.

(** ** Default-branch resolution as the specification words it

    The four questions asked of [git], in order, each from the host state
    the previous one left, and the preference order on their answers. *)

Definition q_current : list string := ["git"; "branch"; "--show-current"].
Definition q_remote_head : list string :=
  ["git"; "symbolic-ref"; "refs/remotes/origin/HEAD"].
Definition q_local (branch : string) : list string :=
  ["git"; "show-ref"; "--verify"; "--quiet"; "refs/heads/" ++ branch].

Record branch_answers : Type := mkAnswers {
  ans_current : reply completed;
  ans_remote_head : reply completed;
  ans_main : reply completed;
  ans_master : reply completed
}.

Definition ask_branches {W : Type} {host : Host W} (repo_path : string) (w : W)
  : branch_answers :=
  let a1 := host_run q_current repo_path w in
  let a2 := host_run q_remote_head repo_path a1.2 in
  let a3 := host_run (q_local "main") repo_path a2.2 in
  let a4 := host_run (q_local "master") repo_path a3.2 in
  mkAnswers a1.1 a2.1 a3.1 a4.1.

(** (i) the current branch name when non-empty, else (ii) the remote
    symbolic HEAD when the lookup succeeds, else (iii) the first of "main"
    and "master" that is a local ref, else (iv) "main". *)
Definition preferred_branch (current remote_head main master : completed) : string :=
  if PyStr.truthy (PyStr.strip (stdout current)) then PyStr.strip (stdout current)
  else if returncode remote_head =? 0 then
    PyStr.last_segment (PyStr.split "/" (PyStr.strip (stdout remote_head)))
  else if returncode main =? 0 then "main"
  else if returncode master =? 0 then "master"
  else "main".

(** The same order, with what the code does when [git] does not answer:
    a failed current-branch query, or any query that raises, gives "main". *)
Definition resolve_branch (a : branch_answers) : string :=
  match ans_current a with
  | Returned c =>
      if negb (returncode c =? 0) then "main"
      else if PyStr.truthy (PyStr.strip (stdout c)) then PyStr.strip (stdout c)
      else
        match ans_remote_head a with
        | Returned r =>
            if returncode r =? 0 then
              PyStr.last_segment (PyStr.split "/" (PyStr.strip (stdout r)))
            else
              match ans_main a with
              | Returned m =>
                  if returncode m =? 0 then "main"
                  else
                    match ans_master a with
                    | Returned ms => if returncode ms =? 0 then "master" else "main"
                    | Failed _ => "main"
                    end
              | Failed _ => "main"
              end
        | Failed _ => "main"
        end
  | Failed _ => "main"
  end.

(** The branch a remote symbolic HEAD reference names: what follows
    "refs/remotes/origin/", for a branch name that holds no "/". *)
Definition remote_prefix : string := "refs/remotes/origin/".

Definition head_branch (ref : string) : option string :=
  if PyStr.startswith ref remote_prefix then
    let branch := PyStr.drop (String.length remote_prefix) ref in
    if Nat.eqb (PyStr.count "/" branch) 0 then Some branch else None
  else None.

(** The order of preference in the states where [git] answers the
    current-branch query with status 0: (i) the current branch name when
    non-empty, else (ii) the branch the remote symbolic HEAD names when
    the lookup succeeds, else (iii) the first of "main" and "master" that
    is a local ref, else (iv) "main".  In the other states, and when a
    later query cannot be run, "main".  [None] where the remote HEAD is
    consulted and is not "refs/remotes/origin/" and a branch name
    without "/". *)
Definition ordered_branch (a : branch_answers) : option string :=
  match ans_current a with
  | Failed _ => Some "main"
  | Returned current =>
      if negb (returncode current =? 0) then Some "main"
      else if PyStr.truthy (PyStr.strip (stdout current))
      then Some (PyStr.strip (stdout current))
      else
        match ans_remote_head a with
        | Failed _ => Some "main"
        | Returned remote_head =>
            if returncode remote_head =? 0
            then head_branch (PyStr.strip (stdout remote_head))
            else
              match ans_main a, ans_master a with
              | Failed _, _ => Some "main"
              | Returned main, Failed _ =>
                  Some "main"
              | Returned main, Returned master =>
                  if returncode main =? 0 then Some "main"
                  else if returncode master =? 0 then Some "master"
                  else Some "main"
              end
        end
  end.

(** ** Properties of computations *)

(** Every event of every run of [m] satisfies [P]. *)
Definition emits {W A : Type} (P : event -> Prop) (m : M W A) : Prop :=
  forall w, Forall P (log (m w)).

(** [m] never ends the process. *)
Definition no_exit {W A : Type} (m : M W A) : Prop :=
  forall w code, value (m w) <> Raise (SystemExit code).

(** [m] always returns a value. *)
Definition total {W A : Type} (m : M W A) : Prop :=
  forall w, exists a, value (m w) = Ok a.

(** Whatever the host answers, the outcome and the events of [m] satisfy
    [Q]. *)
Definition post {W A : Type} (m : M W A) (Q : outcome A -> list event -> Prop) : Prop :=
  forall w, Q (value (m w)) (log (m w)).

(** [m] leaves the host in the state it found it. *)
Definition keeps {W A : Type} (m : M W A) : Prop :=
  forall w, after (m w) = w.

(** An event that is neither an empty staged diff in [repo_path] nor a
    commit or a push. *)
Definition silent (repo_path : string) (ev : event) : Prop :=
  ~ is_empty_diff repo_path ev /\ is_commit_or_push ev = false.

(** The two ways a run of the workflow push can go: the staged diff never
    came back empty, or the run returned [True] without a commit or a
    push. *)
Definition short_circuits {W : Type} (repo_path : string) (m : M W bool) : Prop :=
  forall w,
    Forall (fun ev => ~ is_empty_diff repo_path ev) (log (m w))
    \/ (value (m w) = Ok true /\ Forall (fun ev => is_commit_or_push ev = false) (log (m w))).

(** ** The stages of one repository, as relations on results and logs *)

(** A result dictionary with all its six keys. *)
Definition report (repo_url : string) (st : status) (pushed : bool)
  (added : gmap string bool) (permitted : bool) (errs : list string) : ProcessingResult :=
  mkResult repo_url st None (Some pushed) (Some added) (Some permitted) (Some errs).

Definition failed_push : string := "Failed to push workflows".

Definition failed_workflows (e : string) : string := "Failed to process workflows: " ++ e.

(** What the workflow stage records: the flag and no error, or no flag
    and one error (a failed push, or an exception while cloning or
    pushing). *)
Definition pushed_with (pushed : bool) (errs : list string) : Prop :=
  (pushed = true /\ errs = [])
  \/ (pushed = false /\ (errs = [failed_push] \/ exists e, errs = [failed_workflows e])).

(** The log of one attempt to set the secret [name] and the flag [b]
    recorded for it: the events are those of an attempt, the public key is
    asked for once, and the flag is [True] exactly when the upload was
    answered 201 or 204. *)
Definition attempt_log (owner repo name : string) (b : bool) (l : list event) : Prop :=
  Forall (secret_event owner repo name) l
  /\ length (List.filter (is_key_get owner repo) l) = 1%nat
  /\ (b = true <-> Exists (is_accepted_put owner repo name) l).

(** The lines printed and the error recorded by the loop over the secrets. *)
Definition skip_line (secret_name : string) : string :=
  "   ⚠️  Skipping " ++ secret_name ++ " (value not found in environment)".

Definition set_line (secret_name : string) : string :=
  "   ✅ Secret " ++ secret_name ++ " set successfully".

Definition failed_secret (secret_name : string) : string :=
  "Failed to set secret " ++ secret_name.

(** The loop over the configured secrets, run to its end: it takes the
    mapping of recorded flags from [m] to [m'], appends the errors [errs]
    and has the events [l]. *)
Inductive provisioned (owner repo : string) :
  list (string * option string) -> gmap string bool -> gmap string bool ->
  list string -> list event -> Prop :=
| prov_done m : provisioned owner repo [] m m [] []
| prov_skip name value rest m m' errs l :
    has_value (name, value) = false ->
    provisioned owner repo rest (<[name := false]> m) m' errs l ->
    provisioned owner repo ((name, value) :: rest) m m' errs
      (EvPrint (skip_line name) :: l)
| prov_set name value rest m m' errs l1 l :
    has_value (name, value) = true ->
    attempt_log owner repo name true l1 ->
    provisioned owner repo rest (<[name := true]> m) m' errs l ->
    provisioned owner repo ((name, value) :: rest) m m' errs
      (l1 ++ EvPrint (set_line name) :: l)
| prov_fail name value rest m m' errs l1 l :
    has_value (name, value) = true ->
    attempt_log owner repo name false l1 ->
    provisioned owner repo rest (<[name := false]> m) m' errs l ->
    provisioned owner repo ((name, value) :: rest) m m' (failed_secret name :: errs)
      (l1 ++ l).

(** [name] is configured with a value. *)
Definition attempted_in (secrets : list (string * option string)) (name : string) : Prop :=
  exists v, (name, v) ∈ secrets /\ has_value (name, v) = true.

Definition failed_permissions : string := "Failed to update workflow permissions".

(** What the permission stage records, and its events. *)
Definition permitted_with (owner repo : string) (permitted : bool) (errs : list string)
  (l : list event) : Prop :=
  Forall (permission_event owner repo) l
  /\ Exists (is_permissions_put owner repo) l
  /\ ((permitted = true /\ errs = []) \/ (permitted = false /\ errs = [failed_permissions])).

(** [result['status'] = 'partial'] when there are errors. *)
Definition close_result (result : ProcessingResult) : ProcessingResult :=
  if has_errors result then set_status partial result else result.

Definition secrets_line : string := "   🔐 Setting repository secrets...".

(** The ways the stages of a reachable repository can go: the scratch
    directory cannot be created; it cannot be removed; a missing sealing
    library ends the process in the secrets stage; or the three stages
    run to the end. *)
Inductive stages_run (owner repo : string) (secrets : list (string * option string))
  (repo_url : string) (nacl : bool) : outcome ProcessingResult -> list event -> Prop :=
| run_no_scratch msg :
    stages_run owner repo secrets repo_url nacl (Raise (LibraryError msg))
      [EvTempdir (Failed msg)]
| run_no_cleanup temp_dir lw msg :
    Forall (fun ev => is_local ev = true) lw ->
    stages_run owner repo secrets repo_url nacl (Raise (LibraryError msg))
      (EvTempdir (Returned temp_dir) :: lw ++ [EvCleanup temp_dir (Failed msg)])
| run_exit temp_dir lw l :
    Forall (fun ev => is_local ev = true) lw ->
    nacl = false ->
    stages_run owner repo secrets repo_url nacl (Raise (SystemExit 1))
      (EvTempdir (Returned temp_dir) :: lw ++ EvCleanup temp_dir (Returned tt) :: l)
| run_complete temp_dir lw ls lp pushed e1 added e2 permitted e3 :
    Forall (fun ev => is_local ev = true) lw ->
    pushed_with pushed e1 ->
    provisioned owner repo secrets ∅ added e2 ls ->
    permitted_with owner repo permitted e3 lp ->
    stages_run owner repo secrets repo_url nacl
      (Ok (close_result (report repo_url success pushed added permitted (e1 ++ e2 ++ e3))))
      (EvTempdir (Returned temp_dir) :: lw ++ EvCleanup temp_dir (Returned tt)
       :: EvPrint secrets_line :: ls ++ lp).

(** A run of [process_repository] in which the three stages ran to the
    end: the result and the log, by stage. *)
Inductive complete_run (owner repo : string) (secrets : list (string * option string))
  (repo_url : string) (answer : reply response) (res : ProcessingResult)
  (l : list event) : Prop :=
| completed_run temp_dir lw ls lp pushed e1 added e2 permitted e3 :
    l = EvPrint (processing_line repo_url) :: EvGet (repo_api_url owner repo) answer
        :: EvTempdir (Returned temp_dir) :: lw ++ EvCleanup temp_dir (Returned tt)
        :: EvPrint secrets_line :: ls ++ lp ->
    res = close_result (report repo_url success pushed added permitted (e1 ++ e2 ++ e3)) ->
    Forall (fun ev => is_local ev = true) lw ->
    pushed_with pushed e1 ->
    provisioned owner repo secrets ∅ added e2 ls ->
    permitted_with owner repo permitted e3 lp ->
    complete_run owner repo secrets repo_url answer res l.

(** What the outer handler of [process_repository] makes of the outcome
    of the stages: an [Exception] becomes an error result, anything else
    goes through. *)
Definition handled (repo_url : string) (v : outcome ProcessingResult)
  : outcome ProcessingResult :=
  match v with
  | Ok res => Ok res
  | Raise e => if is_Exception e then Ok (error_result repo_url (str_exn e)) else Raise e
  end.

(** ** Observing the remaining stages *)

(** The URL [clone_repo] clones from. *)
Definition clone_url (token owner repo : string) : string :=
  "https://" ++ token ++ "@github.com/" ++ owner ++ "/" ++ repo ++ ".git".

(** The workflow directory of a clone. *)
Definition workflows_dest (repo_path : string) : string :=
  os_path_join repo_path [".github"; "workflows"].

(** What [push_workflows] may do: print, ask for and restore the working
    directory, create the workflow directory of the clone, list the
    source directory, copy a workflow file from the source directory into
    the workflow directory of the clone under its own name, and run
    [git] in the clone. *)
Definition push_event (repo_path workflows_source : string) (ev : event) : Prop :=
  match ev with
  | EvPrint _ | EvGetcwd _ | EvChdir _ _ => True
  | EvMakedirs path _ => path = workflows_dest repo_path
  | EvListdir path _ => path = workflows_source
  | EvCopy2 src dst _ =>
      exists file, is_workflow_file file = true
                   /\ src = os_path_join workflows_source [file]
                   /\ dst = os_path_join (workflows_dest repo_path) [file]
  | EvRun args cwd _ => cwd = repo_path /\ exists rest, args = "git" :: rest
  | _ => False
  end.

Definition git_add : list string := ["git"; "add"; ".github/workflows/"].
Definition git_diff : list string := ["git"; "diff"; "--cached"; "--quiet"].
Definition git_commit : list string :=
  ["git"; "commit"; "-m"; "Add/Update GitHub Actions workflows"].
Definition git_push (branch : string) : list string := ["git"; "push"; "origin"; branch].

(** The [git] commands of [push_workflows] that run with [check=True]. *)
Definition is_checked (args : list string) : Prop :=
  args = git_add \/ args = git_commit \/ exists branch, args = git_push branch.

(** The error text of a failed command as [push_workflows] prints it. *)
Definition stderr_text (err : string) : string :=
  if PyStr.truthy err then err else "Unknown error".

Definition git_failed_line (err : string) : string :=
  "   ❌ Git operation failed: " ++ stderr_text err.

(** The error text can be shown: there is none, or it is UTF-8. *)
Definition shown (err : string) : bool := negb (PyStr.truthy err) || PyStr.decodes err.

(** [args] ran in [repo_path] and exited with status 0. *)
Definition succeeded (repo_path : string) (args : list string) (l : list event) : Prop :=
  exists p, EvRun args repo_path (Returned p) ∈ l /\ returncode p = 0.

(** [args] is a checked command that ran in [repo_path], exited with
    the status and the error text of [p], and that status is not 0. *)
Definition failed_with (repo_path : string) (args : list string) (p : completed)
  (l : list event) : Prop :=
  is_checked args /\ EvRun args repo_path (Returned p) ∈ l /\ returncode p <> 0.

(** [ev] is not a checked command that failed in [repo_path]. *)
Definition checked_ok (repo_path : string) (ev : event) : Prop :=
  forall args p,
    ev = EvRun args repo_path (Returned p) -> is_checked args -> returncode p = 0.

(** What a run of [push_workflows] with outcome [v] has in its log:
    [True] after a successful [git add] and either an empty staged diff
    or a successful commit and push; [False] after a checked command
    that failed, whose error text could be shown and was printed; the
    decoding error after a checked command that failed with an error
    text that is not UTF-8; any other exception only when a library call
    failed and no checked command did. *)
Definition push_outcome {W : Type} {host : Host W} (repo_path : string)
  (v : outcome bool) (l : list event) : Prop :=
  match v with
  | Ok true =>
      succeeded repo_path git_add l
      /\ (succeeded repo_path git_diff l
          \/ (succeeded repo_path git_commit l
              /\ exists branch, succeeded repo_path (git_push branch) l))
  | Ok false =>
      exists args p,
        failed_with repo_path args p l
        /\ shown (stderr p) = true
        /\ EvPrint (git_failed_line (stderr p)) ∈ l
  | Raise e =>
      (exists args p,
         failed_with repo_path args p l
         /\ shown (stderr p) = false
         /\ e = LibraryError (host_decode_error (stderr p)))
      \/ (exists msg, e = LibraryError msg /\ Forall (checked_ok repo_path) l)
  end.

(** The outcome of the [try] block of [push_workflows]: [True], or the
    exception of the command or of the library call that failed. *)
Definition body_outcome {W : Type} {host : Host W} (repo_path : string)
  (v : outcome bool) (l : list event) : Prop :=
  match v with
  | Ok b => push_outcome repo_path (Ok b) l /\ b = true
  | Raise (CalledProcessError rc err) =>
      exists args p, failed_with repo_path args p l /\ err = stderr p
  | Raise (LibraryError _) => Forall (checked_ok repo_path) l
  | Raise _ => False
  end.

(** The body of the request that sets a secret. *)
Definition secret_payload (encrypted_value key_id : string) : list (string * json_value) :=
  [("encrypted_value", JStr encrypted_value); ("key_id", JStr key_id)].

(** The body of the request that sets the workflow permissions. *)
Definition permissions_payload : list (string * json_value) :=
  [("enabled", JBool true);
   ("default_workflow_permissions", JStr "write");
   ("can_approve_pull_request_reviews", JBool true)].

(** Console output, the API and the sealing library: the events that do
    not touch the file system. *)
Definition is_remote (ev : event) : bool :=
  match ev with
  | EvPrint _ | EvGet _ _ | EvPut _ _ _ | EvImportNacl _ | EvSeal _ _ _ => true
  | _ => false
  end.

(** The scratch directory in the log of one repository: it is never
    asked for; or asking for it fails and ends the run; or it is created
    once, every [git] and file-system event lies between its creation
    and its removal, and the removal is attempted. *)
Definition scratch_scoped (l : list event) : Prop :=
  Forall (fun ev => is_remote ev = true) l
  \/ (exists pre msg,
        l = (pre ++ [EvTempdir (Failed msg)])%list
        /\ Forall (fun ev => is_remote ev = true) pre)
  \/ (exists pre temp_dir inside r rest,
        l = (pre ++ EvTempdir (Returned temp_dir) :: inside
                 ++ EvCleanup temp_dir r :: rest)%list
        /\ Forall (fun ev => is_remote ev = true) pre
        /\ Forall (fun ev => is_local ev = true) inside
        /\ Forall (fun ev => is_remote ev = true) rest).

(** [result['status'] == 'success'] *)
Definition is_success (result : ProcessingResult) : bool :=
  match status_of result with
  | success => true
  | _ => false
  end.

Definition is_sleep (ev : event) : bool :=
  match ev with
  | EvSleep _ => true
  | _ => false
  end.

(** The number of pauses of the processing loop over [n] repositories
    numbered from [start], out of [total]. *)
Fixpoint pauses (start n total : nat) : nat :=
  match n with
  | O => O
  | S n' => ((if (start <? total)%nat then 1 else 0) + pauses (S start) n' total)%nat
  end.

(** A [git clone]. *)
Definition is_clone (ev : event) : bool :=
  match ev with
  | EvRun (_ :: sub :: _) _ _ => String.eqb sub "clone"
  | _ => false
  end.

(** ** A reference host

    A small deterministic host used to run the script on concrete inputs.
    The API answers with a status that depends on the URL only; [git]
    keeps, for the workflow directory of the repository, the files of the
    remote, of the scratch clone, of its index and of its last commit,
    each as a map from file name to content. *)

Record sim : Type := mkSim {
  sim_get_status : string -> Z;
  sim_put_status : string -> Z;
  sim_tempdir_ok : bool;
  sim_show_current : Z * string;
  sim_remote_head : option string;
  sim_local_refs : list string;
  sim_push_ok : bool;
  sim_source : list (string * string);
  sim_remote : gmap string string;
  sim_work : gmap string string;
  sim_index : gmap string string;
  sim_head : gmap string string
}.

Definition sim_set_trees (s : sim) (remote work index head : gmap string string) : sim :=
  mkSim (sim_get_status s) (sim_put_status s) (sim_tempdir_ok s) (sim_show_current s)
        (sim_remote_head s) (sim_local_refs s) (sim_push_ok s) (sim_source s)
        remote work index head.

Definition basename (path : string) : string :=
  PyStr.last_segment (PyStr.split "/" path).

Fixpoint assoc (k : string) (l : list (string * string)) : option string :=
  match l with
  | [] => None
  | (k', v) :: l' => if String.eqb k k' then Some v else assoc k l'
  end.

Definition done_ok (out : string) : reply completed := Returned (mkCompleted 0 out "").
Definition done_with (rc : Z) (err : string) : reply completed :=
  Returned (mkCompleted rc "" err).

Definition sim_run (args : list string) (cwd : string) (s : sim) : reply completed * sim :=
  match args with
  | _ :: sub :: rest =>
      if String.eqb sub "clone" then
        (done_ok "", sim_set_trees s (sim_remote s) (sim_remote s) (sim_remote s) (sim_remote s))
      else if String.eqb sub "add" then
        (done_ok "", sim_set_trees s (sim_remote s) (sim_work s) (sim_work s) (sim_head s))
      else if String.eqb sub "diff" then
        (if decide (sim_index s = sim_head s) then done_ok "" else done_with 1 "", s)
      else if String.eqb sub "commit" then
        if decide (sim_index s = sim_head s) then (done_with 1 "nothing to commit", s)
        else (done_ok "", sim_set_trees s (sim_remote s) (sim_work s) (sim_index s) (sim_index s))
      else if String.eqb sub "push" then
        if sim_push_ok s then
          (done_ok "", sim_set_trees s (sim_head s) (sim_work s) (sim_index s) (sim_head s))
        else (done_with 1 "rejected", s)
      else if String.eqb sub "branch" then
        (Returned (mkCompleted (sim_show_current s).1 (sim_show_current s).2 ""), s)
      else if String.eqb sub "symbolic-ref" then
        match sim_remote_head s with
        | Some ref => (done_ok ref, s)
        | None => (done_with 128 "fatal: ref refs/remotes/origin/HEAD is not a symbolic ref", s)
        end
      else if String.eqb sub "show-ref" then
        if bool_decide (last rest ∈ (fun b => Some ("refs/heads/" ++ b)) <$> sim_local_refs s)
        then (done_ok "", s) else (done_with 1 "", s)
      else (done_with 1 "unknown command", s)
  | _ => (Failed "No such file or directory", s)
  end.

Definition sim_copy2 (src dst : string) (s : sim) : reply unit * sim :=
  match assoc (basename src) (sim_source s) with
  | Some content =>
      (Returned tt,
       sim_set_trees s (sim_remote s) (<[basename dst := content]> (sim_work s))
                     (sim_index s) (sim_head s))
  | None => (Failed "No such file or directory", s)
  end.

Definition sim_key : gmap string string :=
  <["key" := "cHVibGljLWtleQ=="]> (<["key_id" := "568250167242549743"]> ∅).

Definition sim_host (nacl : bool) : Host sim := {|
  host_get := fun url s => (Returned (mkResponse (sim_get_status s url) "" (Some sim_key)), s);
  host_put := fun url _ s => (Returned (mkResponse (sim_put_status s url) "" None), s);
  host_run := sim_run;
  host_getcwd := fun s => (Returned "/home/user/hub", s);
  host_chdir := fun _ s => (Returned tt, s);
  host_makedirs := fun _ s => (Returned tt, s);
  host_listdir := fun _ s => (Returned (map fst (sim_source s)), s);
  host_copy2 := sim_copy2;
  host_path_exists := fun _ s => (true, s);
  host_tempdir := fun s =>
    (if sim_tempdir_ok s then Returned "/tmp/tmpk3x9" else Failed "No space left on device", s);
  host_cleanup := fun _ s => (Returned tt, s);
  host_nacl_installed := nacl;
  host_seal := fun _ value s => (Returned ("sealed:" ++ value), s);
  host_sleep := fun _ s => s;
  host_decode_error := fun _ => "'utf-8' codec can't decode bytes"
|}.

#[global] Instance sim_default_host : Host sim := sim_host true.

(** A host where everything works: every request is answered 200 for a
    GET, 201 for a secret, 204 for the permissions; the clone is on
    [main]; the remote has no workflow yet; the source directory holds
    one workflow and one other file. *)
Definition sim_fine : sim := {|
  sim_get_status := fun _ => 200;
  sim_put_status := fun url => if PyStr.endswith url "/actions/permissions" then 204 else 201;
  sim_tempdir_ok := true;
  sim_show_current := (0, "main" ++ nl);
  sim_remote_head := Some ("refs/remotes/origin/main" ++ nl);
  sim_local_refs := ["main"];
  sim_push_ok := true;
  sim_source := [("ci.yml", "on: push"); ("README.md", "notes")];
  sim_remote := ∅;
  sim_work := ∅;
  sim_index := ∅;
  sim_head := ∅
|}.

Definition sim_with_api (get put : string -> Z) (s : sim) : sim :=
  mkSim get put (sim_tempdir_ok s) (sim_show_current s) (sim_remote_head s)
        (sim_local_refs s) (sim_push_ok s) (sim_source s) (sim_remote s) (sim_work s)
        (sim_index s) (sim_head s).

Definition sim_with_tempdir (ok : bool) (s : sim) : sim :=
  mkSim (sim_get_status s) (sim_put_status s) ok (sim_show_current s) (sim_remote_head s)
        (sim_local_refs s) (sim_push_ok s) (sim_source s) (sim_remote s) (sim_work s)
        (sim_index s) (sim_head s).

Definition sim_with_branches (current : Z * string) (remote_head : option string)
  (local_refs : list string) (s : sim) : sim :=
  mkSim (sim_get_status s) (sim_put_status s) (sim_tempdir_ok s) current remote_head
        local_refs (sim_push_ok s) (sim_source s) (sim_remote s) (sim_work s)
        (sim_index s) (sim_head s).

Definition example_secrets : list (string * option string) :=
  [ ("AWS_ACCESS_KEY_ID", Some "AKIAEXAMPLE");
    ("AWS_SECRET_ACCESS_KEY", Some "");
    ("AWS_REGION", Some "us-east-1");
    ("AWS_BEDROCK_MODEL_ID", None) ].

Definition example_url : string := "https://github.com/anisharma07/c4gt-website".

(** The API answers 404 to every GET. *)
Definition sim_unreachable : sim :=
  sim_with_api (fun _ => 404) (sim_put_status sim_fine) sim_fine.

(** The API refuses the secret "AWS_REGION" with 403. *)
Definition sim_refusing : sim :=
  sim_with_api (sim_get_status sim_fine)
    (fun url => if PyStr.endswith url "/AWS_REGION" then 403 else sim_put_status sim_fine url)
    sim_fine.

(** No scratch directory can be created. *)
Definition sim_no_scratch : sim := sim_with_tempdir false sim_fine.

(** The reference host started from a directory without [.github/workflows]. *)
Definition sim_host_no_workflows : Host sim := {|
  host_get := host_get (Host := sim_host true);
  host_put := host_put (Host := sim_host true);
  host_run := sim_run;
  host_getcwd := host_getcwd (Host := sim_host true);
  host_chdir := host_chdir (Host := sim_host true);
  host_makedirs := host_makedirs (Host := sim_host true);
  host_listdir := host_listdir (Host := sim_host true);
  host_copy2 := sim_copy2;
  host_path_exists := fun _ s => (false, s);
  host_tempdir := host_tempdir (Host := sim_host true);
  host_cleanup := host_cleanup (Host := sim_host true);
  host_nacl_installed := true;
  host_seal := host_seal (Host := sim_host true);
  host_sleep := host_sleep (Host := sim_host true);
  host_decode_error := host_decode_error (Host := sim_host true)
|}.

(** The reference host with a remote that refuses the clone. *)
Definition sim_run_no_clone (args : list string) (cwd : string) (s : sim)
  : reply completed * sim :=
  match args with
  | _ :: sub :: _ =>
      if String.eqb sub "clone" then (done_with 128 "remote: Repository not found.", s)
      else sim_run args cwd s
  | _ => sim_run args cwd s
  end.

Definition sim_host_no_clone : Host sim := {|
  host_get := host_get (Host := sim_host true);
  host_put := host_put (Host := sim_host true);
  host_run := sim_run_no_clone;
  host_getcwd := host_getcwd (Host := sim_host true);
  host_chdir := host_chdir (Host := sim_host true);
  host_makedirs := host_makedirs (Host := sim_host true);
  host_listdir := host_listdir (Host := sim_host true);
  host_copy2 := sim_copy2;
  host_path_exists := host_path_exists (Host := sim_host true);
  host_tempdir := host_tempdir (Host := sim_host true);
  host_cleanup := host_cleanup (Host := sim_host true);
  host_nacl_installed := true;
  host_seal := host_seal (Host := sim_host true);
  host_sleep := host_sleep (Host := sim_host true);
  host_decode_error := host_decode_error (Host := sim_host true)
|}.

(** Secrets configured without any value. *)
Definition example_no_values : list (string * option string) :=
  [ ("AWS_ACCESS_KEY_ID", None); ("AWS_REGION", Some "") ].

Definition example_env : gmap string string :=
  <["GITHUB_TOKEN" := "ghp_example"]> (<["AWS_REGION" := "us-east-1"]> ∅).

(** The result of the example repository on the host where everything
    works, and on the host that refuses "AWS_REGION". *)
Definition example_added (region : bool) : gmap string bool :=
  <["AWS_ACCESS_KEY_ID" := true]>
    (<["AWS_SECRET_ACCESS_KEY" := false]>
       (<["AWS_REGION" := region]> (<["AWS_BEDROCK_MODEL_ID" := false]> ∅))).

Definition example_result : ProcessingResult :=
  report example_url success true (example_added true) true [].

Definition example_partial_result : ProcessingResult :=
  report example_url partial true (example_added false) true
    [failed_secret "AWS_REGION"].


(** The workflow directory after the copy loop of [push_workflows] has
    run over [files] on the reference host. *)
Definition copy_all (source : list (string * string)) (files : list string)
  (work : gmap string string) : gmap string string :=
  fold_left
    (fun wk file =>
       if is_workflow_file file then
         match assoc file source with
         | Some content => <[file := content]> wk
         | None => wk
         end
       else wk)
    files work.

(** The workflow files of the source directory are in the remote, with
    the same content. *)
Definition up_to_date (s : sim) : Prop :=
  copy_all (sim_source s) (map fst (sim_source s)) (sim_remote s) = sim_remote s.

(** The trees of the reference host right after a clone. *)
Definition cloned (s : sim) : sim :=
  sim_set_trees s (sim_remote s) (sim_remote s) (sim_remote s) (sim_remote s).

(** The scratch clone of a second run: the reference host after a first
    run of the workflow stage, cloned again. *)
Definition example_second_clone : sim :=
  cloned (after (workflow_stage "token" example_url workflows_dir "/tmp/tmpk3x9"
                   (fresh_result example_url) sim_fine)).

(** * Properties *)

(** ** Strings *)

Section StringFacts.

Import PyStr.

Lemma app_cons (c : ascii) (a b : string) : String c a ++ b = String c (a ++ b).
Proof. reflexivity. Qed.

Lemma app_empty (b : string) : "" ++ b = b.
Proof. reflexivity. Qed.

Lemma prefix_app (p r : string) : String.prefix p (p ++ r) = true.
Proof.
  induction p as [|c p IH].
  - by destruct r.
  - rewrite app_cons. cbn. destruct (Ascii.ascii_dec c c); [exact IH | done].
Qed.

Lemma prefix_inv (p s : string) :
  String.prefix p s = true -> exists r, s = p ++ r.
Proof.
  revert s; induction p as [|c p IH]; intros s H.
  - by exists s.
  - destruct s as [|d s]; cbn in H; [done|].
    destruct (Ascii.ascii_dec c d) as [->|]; [|done].
    destruct (IH s H) as [r ->]. by exists r.
Qed.

Lemma startswith_iff (s p : string) :
  startswith s p = true <-> exists r, s = p ++ r.
Proof.
  split; [apply prefix_inv | intros [r ->]; apply prefix_app].
Qed.

Lemma endswith_iff (s suf : string) :
  endswith s suf = true <-> exists p, s = p ++ suf.
Proof.
  induction s as [|c s IH].
  - change (endswith "" suf) with (String.eqb "" suf || false).
    rewrite orb_false_r, String.eqb_eq. split.
    + intros <-. by exists "".
    + intros [p H]. destruct p; [done | discriminate].
  - change (endswith (String c s) suf)
      with (String.eqb (String c s) suf || endswith s suf).
    rewrite orb_true_iff, String.eqb_eq, IH. split.
    + intros [<- | [p ->]]; [by exists "" | by exists (String c p)].
    + intros [[|d p] H]; [by left | right].
      rewrite app_cons in H. injection H as -> ->. by exists p.
Qed.

Lemma str_length_app (a b : string) :
  String.length (a ++ b) = (String.length a + String.length b)%nat.
Proof. induction a as [|c a IH]; [done | by rewrite app_cons; cbn; rewrite IH]. Qed.

Lemma substring_app_l (p q : string) :
  String.substring 0 (String.length p) (p ++ q) = p.
Proof.
  induction p as [|c p IH].
  - by destruct q.
  - rewrite app_cons. cbn. by rewrite IH.
Qed.

Lemma drop_last_app (p suf : string) :
  drop_last (String.length suf) (p ++ suf) = p.
Proof.
  unfold drop_last. rewrite str_length_app.
  replace (String.length p + String.length suf - String.length suf)%nat
    with (String.length p) by lia.
  apply substring_app_l.
Qed.

(** Stripping the suffix undoes appending it. *)
Lemma strip_git_suffix_app (p : string) : strip_git_suffix (p ++ ".git") = p.
Proof.
  unfold strip_git_suffix.
  assert (H : endswith (p ++ ".git") ".git" = true) by (apply endswith_iff; eauto).
  rewrite H. apply (drop_last_app p ".git").
Qed.

Lemma split_nonempty (sep : ascii) (s : string) : split sep s <> [].
Proof.
  induction s as [|c s IH]; cbn; [done|].
  destruct (Ascii.eqb c sep); [done|]. by destruct (split sep s).
Qed.

Lemma split_length (sep : ascii) (s : string) :
  length (split sep s) = S (count sep s).
Proof.
  induction s as [|c s IH]; cbn; [done|].
  destruct (Ascii.eqb c sep); cbn; [by rewrite IH|].
  pose proof (split_nonempty sep s).
  destruct (split sep s); [done | exact IH].
Qed.

Lemma split_sep_free (sep : ascii) (s : string) :
  count sep s = O -> split sep s = [s].
Proof.
  induction s as [|c s IH]; cbn; [done|].
  destruct (Ascii.eqb c sep); [done|]. cbn. intros H. by rewrite (IH H).
Qed.

Lemma split_app (sep : ascii) (a b : string) :
  count sep a = O -> split sep (a ++ String sep b) = a :: split sep b.
Proof.
  induction a as [|c a IH].
  - rewrite app_empty. cbn. by rewrite Ascii.eqb_refl.
  - rewrite app_cons. cbn. destruct (Ascii.eqb c sep); [done|]. cbn.
    intros H. by rewrite (IH H).
Qed.

Lemma split_cons_inv (sep : ascii) (s h : string) (t : list string) :
  split sep s = h :: t ->
  count sep h = O /\
  match t with
  | [] => s = h
  | _ :: _ => exists s', s = h ++ String sep s' /\ split sep s' = t
  end.
Proof.
  revert h t; induction s as [|c s IH]; intros h t; cbn.
  - intros [= <- <-]. done.
  - destruct (Ascii.eqb c sep) eqn:E.
    + intros [= <- <-]. split; [done|].
      pose proof (split_nonempty sep s).
      destruct (split sep s) eqn:Es; [done|].
      apply Ascii.eqb_eq in E as ->. by exists s.
    + pose proof (split_nonempty sep s) as Hne.
      destruct (split sep s) as [|h' t'] eqn:Es; [done|].
      intros [= <- <-]. destruct (IH h' t' eq_refl) as [Hh Ht].
      split; [by cbn; rewrite E|].
      destruct t' as [|x t'].
      * by rewrite Ht.
      * destruct Ht as (s' & -> & Hs'). by exists s'.
Qed.

(** A string splits into exactly two segments when it is two
    separator-free strings around one separator. *)
Lemma split_two (sep : ascii) (s a b : string) :
  split sep s = [a; b] <->
  s = a ++ String sep b /\ count sep a = O /\ count sep b = O.
Proof.
  split.
  - intros H. destruct (split_cons_inv _ _ _ _ H) as [Ha (s' & -> & Hs')].
    destruct (split_cons_inv _ _ _ _ Hs') as [Hb ->]. done.
  - intros (-> & Ha & Hb). rewrite (split_app _ _ _ Ha). by rewrite (split_sep_free _ _ Hb).
Qed.

Lemma append_assoc (a b c : string) : (a ++ b) ++ c = a ++ (b ++ c).
Proof. induction a as [|x a IH]; [done|]. by rewrite !app_cons, IH. Qed.

Lemma count_app_sep (sep : ascii) (a b : string) : count sep (a ++ String sep b) <> O.
Proof.
  induction a as [|d a IH]; [rewrite app_empty; cbn; rewrite Ascii.eqb_refl; lia|].
  rewrite app_cons. cbn. destruct (Ascii.eqb d sep); lia.
Qed.

Lemma last_segment_cons (x : string) (l : list string) :
  l <> [] -> last_segment (x :: l) = last_segment l.
Proof. by destruct l. Qed.

(** The last segment of a split is the last segment of what follows any
    separator. *)
Lemma last_segment_split_app (sep : ascii) (a b : string) :
  last_segment (split sep (a ++ String sep b)) = last_segment (split sep b).
Proof.
  induction a as [|c a IH].
  - rewrite app_empty. cbn [split]. rewrite Ascii.eqb_refl.
    apply last_segment_cons, split_nonempty.
  - rewrite app_cons. cbn [split]. destruct (Ascii.eqb c sep).
    + rewrite last_segment_cons by apply split_nonempty. exact IH.
    + pose proof (split_length sep (a ++ String sep b)) as Hlen.
      pose proof (count_app_sep sep a b) as Hcount.
      destruct (split sep (a ++ String sep b)) as [|h [|x t]] eqn:E.
      * done.
      * cbn in Hlen. lia.
      * rewrite <- IH. done.
Qed.

Lemma count_app (c : ascii) (a b : string) :
  count c (a ++ b) = (count c a + count c b)%nat.
Proof.
  induction a as [|x a IH]; [done|]. rewrite app_cons. cbn [count]. rewrite IH. lia.
Qed.

Lemma replace_from_skip (old new a r : string) :
  replace_from old new (String.length a) (a ++ r) = replace_from old new 0 r.
Proof.
  induction a as [|x a IH]; [by destruct r|]. by rewrite app_cons.
Qed.

Lemma replace_occurrence (old new r : string) :
  old <> "" -> replace old new (old ++ r) = new ++ replace old new r.
Proof.
  intros Hold. unfold replace. destruct old as [|x old]; [done|].
  rewrite app_cons. cbn [replace_from]. rewrite <- app_cons, prefix_app.
  cbn [String.length]. rewrite Nat.sub_1_r. cbn [Nat.pred].
  by rewrite replace_from_skip.
Qed.

Lemma replace_absent (c : ascii) (old new r : string) :
  (count c r < count c old)%nat -> replace old new r = r.
Proof.
  unfold replace. induction r as [|x r IH]; [done|]. intros Hlt.
  cbn [replace_from]. destruct (String.prefix old (String x r)) eqn:Hpre.
  - apply prefix_inv in Hpre as [t Ht]. rewrite Ht, count_app in Hlt. lia.
  - f_equal. apply IH. cbn [count] in Hlt. lia.
Qed.

Lemma drop_app (p r : string) : drop (String.length p) (p ++ r) = r.
Proof. induction p as [|c p IH]; [by destruct r | by rewrite app_cons]. Qed.

(** Replacing a string that does not occur changes nothing. *)
Lemma replace_no_occurrence (old new s : string) :
  occurs old s = false -> replace old new s = s.
Proof.
  unfold replace. induction s as [|c s IH]; [done|].
  cbn [occurs replace_from]. intros [Hpre Hocc]%orb_false_elim.
  rewrite Hpre. f_equal. by apply IH.
Qed.

(** A reference that holds its prefix once: deleting every occurrence of
    the prefix leaves what follows it. *)
Lemma replace_prefix_once (prefix r : string) :
  prefix <> "" -> occurs prefix r = false ->
  replace prefix "" (prefix ++ r) = r.
Proof.
  intros Hne Hocc. rewrite replace_occurrence by done.
  rewrite app_empty. by apply replace_no_occurrence.
Qed.


End StringFacts.

(** ** Repository Locator *)

Example extract_https :
  extract_repo_info "https://github.com/anisharma07/c4gt-website"
  = Ok ("anisharma07", "c4gt-website").
Proof. reflexivity. Qed.

Example extract_ssh_git :
  extract_repo_info "git@github.com:anisharma07/py-multiaddr.git"
  = Ok ("anisharma07", "py-multiaddr").
Proof. reflexivity. Qed.

Example extract_three_segments :
  extract_repo_info "https://github.com/a/b/c"
  = Raise (invalid_url "https://github.com/a/b/c").
Proof. reflexivity. Qed.

Example extract_unknown_prefix :
  extract_repo_info "a/b" = Raise (invalid_url "a/b") /\ spec_locator "a/b" = Some ("a", "b").
Proof. split; reflexivity. Qed.

Example extract_repeated_prefix :
  extract_repo_info "https://github.com/https://github.com/a/b" = Ok ("a", "b")
  /\ prefix_once "https://github.com/https://github.com/a/b" = false.
Proof. split; reflexivity. Qed.

Lemma extract_repo_info_unfold (repo_url : string) :
  extract_repo_info repo_url =
  match locator_remainder (strip_git_suffix repo_url) with
  | Some rem =>
      match PyStr.split "/" rem with
      | [owner; repo] => Ok (owner, repo)
      | _ => Raise (invalid_url (strip_git_suffix repo_url))
      end
  | None => Raise (invalid_url (strip_git_suffix repo_url))
  end.
Proof.
  unfold extract_repo_info, locator_remainder.
  destruct (PyStr.startswith _ https_prefix); [done|].
  by destruct (PyStr.startswith _ ssh_prefix).
Qed.

(** The locator through the string the code splits: it returns
    [(owner, name)] exactly when what [locator_remainder] leaves is
    [owner], one "/", and [name], neither containing a "/"; in every
    other case it raises the "Invalid GitHub URL format" error. *)
Lemma extract_repo_info_remainder (repo_url : string) :
  match extract_repo_info repo_url with
  | Ok (owner, name) =>
      exists rem, locator_remainder (strip_git_suffix repo_url) = Some rem
                  /\ rem = owner ++ "/" ++ name
                  /\ slash_free owner /\ slash_free name
  | Raise e =>
      e = invalid_url (strip_git_suffix repo_url)
      /\ forall rem, locator_remainder (strip_git_suffix repo_url) = Some rem ->
           ~ exists owner name, rem = owner ++ "/" ++ name
                                /\ slash_free owner /\ slash_free name
  end.
Proof.
  rewrite extract_repo_info_unfold.
  destruct (locator_remainder _) as [rem|]; [|by split].
  destruct (PyStr.split "/" rem) as [|a [|b [|c l]]] eqn:E.
  - by destruct (split_nonempty _ _ E).
  - split; [done|]. intros ? [= <-] (o & n & Hrem).
    apply (split_two "/") in Hrem. congruence.
  - exists rem. apply split_two in E as (-> & Ho & Hn). by repeat split.
  - split; [done|]. intros ? [= <-] (o & n & Hrem).
    apply (split_two "/") in Hrem. congruence.
Qed.

(** On a reference that holds its prefix once, the code splits what
    follows the prefix. *)
Lemma locator_remainder_once (u prefix rem : string) :
  known_prefix u = Some (prefix, rem) -> occurs prefix rem = false ->
  locator_remainder u = Some rem.
Proof.
  unfold known_prefix, locator_remainder. intros Hknown Hocc.
  destruct (PyStr.startswith u https_prefix) eqn:Hhttps.
  - apply startswith_iff in Hhttps as [r ->].
    rewrite drop_app in Hknown. injection Hknown as <- <-.
    by rewrite replace_prefix_once.
  - destruct (PyStr.startswith u ssh_prefix) eqn:Hssh; [|done].
    apply startswith_iff in Hssh as [r ->].
    rewrite drop_app in Hknown. injection Hknown as <- <-.
    by rewrite replace_prefix_once.
Qed.

Lemma locator_remainder_unknown (u : string) :
  known_prefix u = None -> locator_remainder u = None.
Proof.
  unfold known_prefix, locator_remainder.
  destruct (PyStr.startswith u https_prefix); [done|].
  by destruct (PyStr.startswith u ssh_prefix).
Qed.

(** C3, for the references that hold their known prefix at the start
    only: the locator raises the "Invalid GitHub URL format" error
    exactly when the reference, without its ".git" suffix, starts with
    neither the HTTPS nor the SSH prefix, or what follows the prefix does
    not split on "/" into exactly two segments; otherwise it returns the
    two segments as [(owner, name)].  The segments may be empty.  Nothing
    is said of a reference in which the prefix occurs again. *)
Theorem extract_repo_info_located (repo_url : string) :
  prefix_once repo_url = true ->
  extract_repo_info repo_url =
  match located repo_url with
  | Some (owner, name) => Ok (owner, name)
  | None => Raise (invalid_url (spec_strip_suffix repo_url))
  end.
Proof.
  unfold prefix_once, located. intros Honce.
  rewrite extract_repo_info_unfold.
  change (strip_git_suffix repo_url) with (spec_strip_suffix repo_url).
  destruct (known_prefix (spec_strip_suffix repo_url)) as [[prefix rem]|] eqn:Hknown.
  - apply negb_true_iff in Honce.
    rewrite (locator_remainder_once _ _ _ Hknown Honce). unfold two_segments.
    by destruct (PyStr.split "/" rem) as [|owner [|name [|]]].
  - by rewrite (locator_remainder_unknown _ Hknown).
Qed.

Lemma extract_repo_info_located_witness :
  extract_repo_info "git@github.com:anisharma07/py-libp2p.git"
  = Ok ("anisharma07", "py-libp2p").
Proof.
  exact (extract_repo_info_located "git@github.com:anisharma07/py-libp2p.git" eq_refl).
Defined.

(** C3 as stated fails: a reference with a trailing "/" has an empty
    name segment, which the specification rejects and the code returns. *)
Lemma extract_repo_info_empty_segment :
  extract_repo_info "https://github.com/owner/" = Ok ("owner", "")
  /\ spec_locator "https://github.com/owner/" = None.
Proof. split; reflexivity. Qed.

(** ** The monad *)

Section MonadFacts.

Context {W : Type} {host : Host W}.

Local Open Scope py_scope.

Lemma bind_ok {A B : Type} (m : M W A) (k : A -> M W B) (w : W) (a : A) :
  value (m w) = Ok a ->
  bind m k w = Ran (value (k a (after (m w)))) (after (k a (after (m w))))
                   (log (m w) ++ log (k a (after (m w)))).
Proof. intros H. unfold bind. by rewrite H. Qed.

Lemma bind_raise {A B : Type} (m : M W A) (k : A -> M W B) (w : W) (e : exn) :
  value (m w) = Raise e ->
  bind m k w = Ran (Raise e) (after (m w)) (log (m w)).
Proof. intros H. unfold bind. by rewrite H. Qed.

Lemma total_no_exit {A : Type} (m : M W A) : total m -> no_exit m.
Proof. intros H w code. destruct (H w) as [a ->]. done. Qed.

(** *** Projections of a run *)

Lemma value_bind {A B : Type} (m : M W A) (k : A -> M W B) (w : W) :
  value (bind m k w) =
  match value (m w) with
  | Ok a => value (k a (after (m w)))
  | Raise e => Raise e
  end.
Proof. unfold bind. by destruct (value (m w)). Qed.

Lemma after_bind {A B : Type} (m : M W A) (k : A -> M W B) (w : W) :
  after (bind m k w) =
  match value (m w) with
  | Ok a => after (k a (after (m w)))
  | Raise e => after (m w)
  end.
Proof. unfold bind. by destruct (value (m w)). Qed.

Lemma log_bind {A B : Type} (m : M W A) (k : A -> M W B) (w : W) :
  log (bind m k w) =
  match value (m w) with
  | Ok a => (log (m w) ++ log (k a (after (m w))))%list
  | Raise e => log (m w)
  end.
Proof. unfold bind. by destruct (value (m w)). Qed.

Lemma value_call {A : Type} (f : W -> reply A * W) (ev : reply A -> event) (w : W) :
  value (call f ev w) =
  match (f w).1 with
  | Returned a => Ok a
  | Failed msg => Raise (LibraryError msg)
  end.
Proof. unfold call. by destruct (f w).1. Qed.

Lemma after_call {A : Type} (f : W -> reply A * W) (ev : reply A -> event) (w : W) :
  after (call f ev w) = (f w).2.
Proof. unfold call. by destruct (f w).1. Qed.

Lemma log_call {A : Type} (f : W -> reply A * W) (ev : reply A -> event) (w : W) :
  log (call f ev w) = [ev (f w).1].
Proof. unfold call. by destruct (f w).1. Qed.

Lemma value_subprocess_run (args : list string) (cwd : string) (check : bool) (w : W) :
  value (subprocess_run args cwd check w) =
  match (host_run args cwd w).1 with
  | Returned p =>
      if check && negb (returncode p =? 0)
      then Raise (CalledProcessError (returncode p) (stderr p)) else Ok p
  | Failed msg => Raise (LibraryError msg)
  end.
Proof.
  unfold subprocess_run. rewrite value_bind, value_call.
  destruct (host_run args cwd w).1; [|done]. by destruct (check && _).
Qed.

Lemma after_subprocess_run (args : list string) (cwd : string) (check : bool) (w : W) :
  after (subprocess_run args cwd check w) = (host_run args cwd w).2.
Proof.
  unfold subprocess_run. rewrite after_bind, value_call, after_call.
  destruct (host_run args cwd w).1; [|done]. by destruct (check && _).
Qed.

Lemma log_subprocess_run (args : list string) (cwd : string) (check : bool) (w : W) :
  log (subprocess_run args cwd check w) = [EvRun args cwd (host_run args cwd w).1].
Proof.
  unfold subprocess_run. rewrite log_bind, value_call, log_call.
  destruct (host_run args cwd w).1; [|done]. destruct (check && _); apply app_nil_r.
Qed.

Lemma value_try_except {A : Type} (body : M W A) (handler : exn -> option (M W A))
  (w : W) :
  value (try_except body handler w) =
  match value (body w) with
  | Ok a => Ok a
  | Raise e =>
      match handler e with
      | Some h => value (h (after (body w)))
      | None => Raise e
      end
  end.
Proof.
  unfold try_except. destruct (value (body w)) eqn:E; [done|].
  by destruct (handler e).
Qed.

Lemma log_try_except {A : Type} (body : M W A) (handler : exn -> option (M W A))
  (w : W) :
  log (try_except body handler w) =
  match value (body w) with
  | Ok a => log (body w)
  | Raise e =>
      match handler e with
      | Some h => (log (body w) ++ log (h (after (body w))))%list
      | None => log (body w)
      end
  end.
Proof.
  unfold try_except. destruct (value (body w)) eqn:E; [done|].
  by destruct (handler e).
Qed.

Lemma after_try_except {A : Type} (body : M W A) (handler : exn -> option (M W A))
  (w : W) :
  after (try_except body handler w) =
  match value (body w) with
  | Ok a => after (body w)
  | Raise e =>
      match handler e with
      | Some h => after (h (after (body w)))
      | None => after (body w)
      end
  end.
Proof.
  unfold try_except. destruct (value (body w)) eqn:E; [done|].
  by destruct (handler e).
Qed.

Lemma value_try_finally {A : Type} (body : M W A) (final : M W unit) (w : W) :
  value (try_finally body final w) =
  match value (final (after (body w))) with
  | Ok _ => value (body w)
  | Raise e => Raise e
  end.
Proof. unfold try_finally. by destruct (value (final _)). Qed.

Lemma log_try_finally {A : Type} (body : M W A) (final : M W unit) (w : W) :
  log (try_finally body final w) = (log (body w) ++ log (final (after (body w))))%list.
Proof. unfold try_finally. by destruct (value (final _)). Qed.

Lemma after_try_finally {A : Type} (body : M W A) (final : M W unit) (w : W) :
  after (try_finally body final w) = after (final (after (body w))).
Proof. unfold try_finally. by destruct (value (final _)). Qed.

(** *** Events *)

Lemma emits_ret {A : Type} (P : event -> Prop) (a : A) : emits (W := W) P (ret a).
Proof. intros w. constructor. Qed.

Lemma emits_raise {A : Type} (P : event -> Prop) (e : exn) : emits (W := W) P (raise (A := A) e).
Proof. intros w. constructor. Qed.

Lemma emits_lift {A : Type} (P : event -> Prop) (o : outcome A) : emits (W := W) P (lift o).
Proof. intros w. constructor. Qed.

Lemma emits_emit (P : event -> Prop) (ev : event) : P ev -> emits (W := W) P (emit ev).
Proof. intros H w. by repeat constructor. Qed.

Lemma emits_print (P : event -> Prop) (line : string) :
  P (EvPrint line) -> emits (W := W) P (print line).
Proof. apply emits_emit. Qed.

Lemma emits_call {A : Type} (P : event -> Prop) (f : W -> reply A * W)
  (ev : reply A -> event) :
  (forall r, P (ev r)) -> emits P (call f ev).
Proof.
  intros H w. unfold call. destruct (f w).1; cbn; by repeat constructor.
Qed.

Lemma emits_bind {A B : Type} (P : event -> Prop) (m : M W A) (k : A -> M W B) :
  emits P m -> (forall a, emits P (k a)) -> emits P (bind m k).
Proof.
  intros Hm Hk w. unfold bind. destruct (value (m w)) as [a|e]; cbn.
  - apply Forall_app. split; [apply Hm | apply Hk].
  - apply Hm.
Qed.

Lemma emits_try_except {A : Type} (P : event -> Prop) (body : M W A)
  (handler : exn -> option (M W A)) :
  emits P body ->
  (forall e, match handler e with Some h => emits P h | None => True end) ->
  emits P (try_except body handler).
Proof.
  intros Hb Hh w. unfold try_except. destruct (value (body w)) as [a|e]; [apply Hb|].
  specialize (Hh e). destruct (handler e) as [h|]; [|apply Hb]. cbn.
  apply Forall_app. split; [apply Hb | apply Hh].
Qed.

Lemma emits_try_finally {A : Type} (P : event -> Prop) (body : M W A) (final : M W unit) :
  emits P body -> emits P final -> emits P (try_finally body final).
Proof.
  intros Hb Hf w. unfold try_finally.
  destruct (value (final (after (body w)))); cbn;
    apply Forall_app; (split; [apply Hb | apply Hf]).
Qed.

Lemma emits_for_each {A S : Type} (P : event -> Prop) (l : list A)
  (body : A -> S -> M W S) (s : S) :
  (forall x s', emits P (body x s')) -> emits P (for_each l body s).
Proof.
  intros H. revert s. induction l as [|x l IH]; intros s; cbn.
  - apply emits_ret.
  - apply emits_bind; [apply H | intros s'; apply IH].
Qed.

Lemma emits_subprocess_run (P : event -> Prop) (args : list string) (cwd : string)
  (check : bool) :
  (forall r, P (EvRun args cwd r)) -> emits P (subprocess_run args cwd check).
Proof.
  intros H. apply emits_bind; [by apply emits_call|].
  intros p. destruct (_ && _); [apply emits_raise | apply emits_ret].
Qed.

Lemma emits_weaken {A : Type} (P Q : event -> Prop) (m : M W A) :
  (forall ev, P ev -> Q ev) -> emits P m -> emits Q m.
Proof. intros H Hm w. eapply Forall_impl; [apply Hm | exact H]. Qed.

(** *** Exits *)

Lemma no_exit_ret {A : Type} (a : A) : no_exit (W := W) (ret a).
Proof. by intros w code. Qed.

Lemma no_exit_raise {A : Type} (e : exn) :
  is_Exception e = true -> no_exit (W := W) (raise (A := A) e).
Proof. intros H w code. cbn. intros [= ->]. done. Qed.

Lemma no_exit_emit (ev : event) : no_exit (W := W) (emit ev).
Proof. by intros w code. Qed.

Lemma no_exit_call {A : Type} (f : W -> reply A * W) (ev : reply A -> event) :
  no_exit (call f ev).
Proof. intros w code. unfold call. by destruct (f w).1. Qed.

Lemma no_exit_bind {A B : Type} (m : M W A) (k : A -> M W B) :
  no_exit m -> (forall a, no_exit (k a)) -> no_exit (bind m k).
Proof.
  intros Hm Hk w code. unfold bind.
  destruct (value (m w)) as [a|e] eqn:E; cbn.
  - apply Hk.
  - intros [= ->]. by apply (Hm w code).
Qed.

Lemma no_exit_try_except {A : Type} (body : M W A) (handler : exn -> option (M W A)) :
  no_exit body ->
  (forall e, match handler e with Some h => no_exit h | None => True end) ->
  no_exit (try_except body handler).
Proof.
  intros Hb Hh w code. unfold try_except.
  destruct (value (body w)) as [a|e] eqn:E; [by rewrite E|].
  specialize (Hh e). destruct (handler e) as [h|]; cbn; [apply Hh|].
  rewrite E. intros [= ->]. by apply (Hb w code).
Qed.

Lemma no_exit_try_finally {A : Type} (body : M W A) (final : M W unit) :
  no_exit body -> no_exit final -> no_exit (try_finally body final).
Proof.
  intros Hb Hf w code. unfold try_finally.
  destruct (value (final (after (body w)))) as [[]|e] eqn:E; cbn.
  - apply Hb.
  - intros [= ->]. by apply (Hf (after (body w)) code).
Qed.

Lemma no_exit_for_each {A S : Type} (l : list A) (body : A -> S -> M W S) (s : S) :
  (forall x s', no_exit (body x s')) -> no_exit (for_each l body s).
Proof.
  intros H. revert s. induction l as [|x l IH]; intros s; cbn.
  - apply no_exit_ret.
  - apply no_exit_bind; [apply H | intros s'; apply IH].
Qed.

Lemma no_exit_subprocess_run (args : list string) (cwd : string) (check : bool) :
  no_exit (subprocess_run args cwd check).
Proof.
  apply no_exit_bind; [apply no_exit_call|].
  intros p. destruct (_ && _); [by apply no_exit_raise | apply no_exit_ret].
Qed.

(** *** Totality *)

Lemma total_ret {A : Type} (a : A) : total (W := W) (ret a).
Proof. intros w. by exists a. Qed.

Lemma total_emit (ev : event) : total (W := W) (emit ev).
Proof. intros w. by exists tt. Qed.

Lemma total_bind {A B : Type} (m : M W A) (k : A -> M W B) :
  total m -> (forall a, total (k a)) -> total (bind m k).
Proof.
  intros Hm Hk w. destruct (Hm w) as [a Ha].
  rewrite (bind_ok _ _ _ _ Ha). cbn. apply Hk.
Qed.

(** [try: body except Exception: h] returns whenever [body] cannot exit
    and the handler returns. *)
Lemma total_try_except_Exception {A : Type} (body : M W A) (h : exn -> M W A) :
  no_exit body -> (forall e, total (h e)) ->
  total (try_except body (except_Exception h)).
Proof.
  intros Hb Hh w. unfold try_except.
  destruct (value (body w)) as [a|e] eqn:E; [by exists a; rewrite E|].
  unfold except_Exception. destruct e; cbn; try apply Hh.
  by destruct (Hb w code).
Qed.

(** [try: body except: h] returns whenever the handler does. *)
Lemma total_try_except_all {A : Type} (body : M W A) (h : M W A) :
  total h -> total (try_except body (except_all h)).
Proof.
  intros Hh w. unfold try_except.
  destruct (value (body w)) as [a|e] eqn:E; [by exists a; rewrite E|].
  cbn. apply Hh.
Qed.

(** *** Postconditions

    One rule per construct of the script; applied backwards they run a
    function symbolically, with one case per answer of the host. *)

Lemma post_ret {A : Type} (a : A) (Q : outcome A -> list event -> Prop) :
  Q (Ok a) [] -> post (W := W) (ret a) Q.
Proof. by intros H w. Qed.

Lemma post_raise {A : Type} (e : exn) (Q : outcome A -> list event -> Prop) :
  Q (Raise e) [] -> post (W := W) (raise e) Q.
Proof. by intros H w. Qed.

Lemma post_lift {A : Type} (o : outcome A) (Q : outcome A -> list event -> Prop) :
  Q o [] -> post (W := W) (lift o) Q.
Proof. by intros H w. Qed.

Lemma post_emit (ev : event) (Q : outcome unit -> list event -> Prop) :
  Q (Ok tt) [ev] -> post (W := W) (emit ev) Q.
Proof. by intros H w. Qed.

Lemma post_call {A : Type} (f : W -> reply A * W) (ev : reply A -> event)
  (Q : outcome A -> list event -> Prop) :
  (forall x, Q (Ok x) [ev (Returned x)]) ->
  (forall msg, Q (Raise (LibraryError msg)) [ev (Failed msg)]) ->
  post (call f ev) Q.
Proof. intros Hok Hfail w. unfold call. destruct (f w).1; cbn; auto. Qed.

Lemma post_bind {A B : Type} (m : M W A) (k : A -> M W B)
  (Q : outcome B -> list event -> Prop) :
  post m (fun v l =>
            match v with
            | Ok a => post (k a) (fun v' l' => Q v' (l ++ l')%list)
            | Raise e => Q (Raise e) l
            end) ->
  post (bind m k) Q.
Proof.
  intros H w. specialize (H w). rewrite value_bind, log_bind.
  destruct (value (m w)); [apply H | exact H].
Qed.

Lemma post_try_except {A : Type} (body : M W A) (handler : exn -> option (M W A))
  (Q : outcome A -> list event -> Prop) :
  post body (fun v l =>
               match v with
               | Ok a => Q (Ok a) l
               | Raise e =>
                   match handler e with
                   | Some h => post h (fun v' l' => Q v' (l ++ l')%list)
                   | None => Q (Raise e) l
                   end
               end) ->
  post (try_except body handler) Q.
Proof.
  intros H w. specialize (H w). rewrite value_try_except, log_try_except.
  destruct (value (body w)); [exact H|]. destruct (handler e); [apply H | exact H].
Qed.

Lemma post_try_finally {A : Type} (body : M W A) (final : M W unit)
  (Q : outcome A -> list event -> Prop) :
  post body (fun v l =>
               post final (fun v' l' =>
                             match v' with
                             | Ok _ => Q v (l ++ l')%list
                             | Raise e => Q (Raise e) (l ++ l')%list
                             end)) ->
  post (try_finally body final) Q.
Proof.
  intros H w. specialize (H w (after (body w))).
  rewrite value_try_finally, log_try_finally.
  by destruct (value (final (after (body w)))).
Qed.

Lemma post_conseq {A : Type} (m : M W A) (Q Q' : outcome A -> list event -> Prop) :
  post m Q -> (forall v l, Q v l -> Q' v l) -> post m Q'.
Proof. intros H HQ w. apply HQ, H. Qed.

Lemma post_and {A : Type} (m : M W A) (Q Q' : outcome A -> list event -> Prop) :
  post m Q -> post m Q' -> post m (fun v l => Q v l /\ Q' v l).
Proof. intros H H' w. split; [apply H | apply H']. Qed.

Lemma post_subprocess_run (args : list string) (cwd : string) (check : bool)
  (Q : outcome completed -> list event -> Prop) :
  (forall p, Q (if check && negb (returncode p =? 0)
                then Raise (CalledProcessError (returncode p) (stderr p)) else Ok p)
               [EvRun args cwd (Returned p)]) ->
  (forall msg, Q (Raise (LibraryError msg)) [EvRun args cwd (Failed msg)]) ->
  post (subprocess_run args cwd check) Q.
Proof.
  intros Hok Hfail w. rewrite value_subprocess_run, log_subprocess_run.
  destruct (host_run args cwd w).1; auto.
Qed.

Lemma post_emits {A : Type} (P : event -> Prop) (m : M W A) :
  emits P m -> post m (fun _ l => Forall P l).
Proof. intros H w. apply H. Qed.

Lemma post_no_exit {A : Type} (m : M W A) :
  no_exit m -> post m (fun v _ => forall code, v <> Raise (SystemExit code)).
Proof. intros H w code. apply H. Qed.

(** *** Whole runs *)

Lemma ran_eta {A : Type} (r : ran W A) : r = Ran (value r) (after r) (log r).
Proof. by destruct r. Qed.

Lemma bind_ran {A B : Type} (m : M W A) (k : A -> M W B) (w w' w'' : W)
  (a : A) (v : outcome B) (l l' : list event) :
  m w = Ran (Ok a) w' l -> k a w' = Ran v w'' l' -> bind m k w = Ran v w'' (l ++ l')%list.
Proof. intros Hm Hk. unfold bind. rewrite Hm. cbn. by rewrite Hk. Qed.

Lemma try_except_ran_ok {A : Type} (body : M W A) (handler : exn -> option (M W A))
  (w w' : W) (a : A) (l : list event) :
  body w = Ran (Ok a) w' l -> try_except body handler w = Ran (Ok a) w' l.
Proof. intros H. unfold try_except. by rewrite H. Qed.

Lemma try_finally_ran {A : Type} (body : M W A) (final : M W unit)
  (w w' w'' : W) (v : outcome A) (l l' : list event) :
  body w = Ran v w' l -> final w' = Ran (Ok tt) w'' l' ->
  try_finally body final w = Ran v w'' (l ++ l')%list.
Proof. intros Hb Hf. unfold try_finally. rewrite Hb. cbn. by rewrite Hf. Qed.

Lemma bind_ran_raise {A B : Type} (m : M W A) (k : A -> M W B) (w w' : W)
  (e : exn) (l : list event) :
  m w = Ran (Raise e) w' l -> bind m k w = Ran (Raise e) w' l.
Proof. intros Hm. unfold bind. by rewrite Hm. Qed.

Lemma try_except_ran_caught {A : Type} (body : M W A) (handler : exn -> option (M W A))
  (h : M W A) (w w' w'' : W) (e : exn) (v : outcome A) (l l' : list event) :
  body w = Ran (Raise e) w' l -> handler e = Some h -> h w' = Ran v w'' l' ->
  try_except body handler w = Ran v w'' (l ++ l')%list.
Proof. intros Hb Hh Hr. unfold try_except. rewrite Hb. cbn. by rewrite Hh, Hr. Qed.

Lemma try_except_ran_passed {A : Type} (body : M W A) (handler : exn -> option (M W A))
  (w w' : W) (e : exn) (l : list event) :
  body w = Ran (Raise e) w' l -> handler e = None ->
  try_except body handler w = Ran (Raise e) w' l.
Proof. intros Hb Hh. unfold try_except. rewrite Hb. cbn. by rewrite Hh. Qed.

Lemma call_unfold {A : Type} (f : W -> reply A * W) (ev : reply A -> event) (w : W) :
  call f ev w =
  Ran (match (f w).1 with Returned x => Ok x | Failed msg => Raise (LibraryError msg) end)
      (f w).2 [ev (f w).1].
Proof. unfold call. by destruct (f w).1. Qed.

(** *** Runs that leave the host unchanged *)

Lemma keeps_ret {A : Type} (a : A) : keeps (W := W) (ret a).
Proof. by intros w. Qed.

Lemma keeps_bind {A B : Type} (m : M W A) (k : A -> M W B) :
  keeps m -> (forall a, keeps (k a)) -> keeps (bind m k).
Proof.
  intros Hm Hk w. rewrite after_bind. destruct (value (m w)); [|apply Hm].
  by rewrite Hk, Hm.
Qed.

Lemma keeps_try_except {A : Type} (body : M W A) (handler : exn -> option (M W A)) :
  keeps body -> (forall e, match handler e with Some h => keeps h | None => True end) ->
  keeps (try_except body handler).
Proof.
  intros Hb Hh w. rewrite after_try_except. destruct (value (body w)); [apply Hb|].
  specialize (Hh e). destruct (handler e); [|apply Hb]. by rewrite Hh, Hb.
Qed.

Lemma keeps_subprocess_run (args : list string) (cwd : string) (check : bool) :
  (forall w, (host_run args cwd w).2 = w) -> keeps (subprocess_run args cwd check).
Proof. intros H w. rewrite after_subprocess_run. apply H. Qed.

End MonadFacts.

(** ** Default-branch resolution *)

Section DefaultBranch.

Context {W : Type} {host : Host W}.

(** The branch returned is the one the answers of [git] resolve to; in
    particular [get_default_branch] always returns. *)
Lemma get_default_branch_resolve (repo_path : string) (w : W) :
  value (get_default_branch repo_path w) = Ok (resolve_branch (ask_branches repo_path w)).
Proof.
  unfold get_default_branch, resolve_branch, ask_branches.
  cbn [ans_current ans_remote_head ans_main ans_master].
  rewrite value_try_except, value_bind, value_subprocess_run, after_subprocess_run.
  change ["git"; "branch"; "--show-current"] with q_current.
  destruct (host_run q_current repo_path w) as [[c|msg] w1]; cbn [fst snd]; [|done].
  cbn [andb]. destruct (returncode c =? 0); cbn [negb]; [|done].
  destruct (PyStr.truthy (PyStr.strip (stdout c))); [done|].
  rewrite value_bind, value_subprocess_run, after_subprocess_run.
  change ["git"; "symbolic-ref"; "refs/remotes/origin/HEAD"] with q_remote_head.
  destruct (host_run q_remote_head repo_path w1) as [[r|msg] w2]; cbn [fst snd]; [|done].
  cbn [andb]. destruct (returncode r =? 0); [done|].
  rewrite value_bind. cbn [first_local_branch].
  rewrite value_bind, value_subprocess_run, !after_bind, value_subprocess_run,
    after_subprocess_run.
  change ["git"; "show-ref"; "--verify"; "--quiet"; "refs/heads/" ++ "main"]
    with (q_local "main").
  destruct (host_run (q_local "main") repo_path w2) as [[m|msg] w3]; cbn [fst snd]; [|done].
  cbn [andb]. destruct (returncode m =? 0); [done|].
  rewrite !value_bind, value_subprocess_run.
  change ["git"; "show-ref"; "--verify"; "--quiet"; "refs/heads/" ++ "master"]
    with (q_local "master").
  destruct (host_run (q_local "master") repo_path w3) as [[ms|msg] w4]; cbn [fst snd]; [|done].
  cbn [andb]. by destruct (returncode ms =? 0).
Qed.

Lemma get_default_branch_total (repo_path : string) : total (get_default_branch repo_path).
Proof. intros w. eexists. apply get_default_branch_resolve. Qed.

(** When [git] answers the four queries and the current-branch query
    exits with status 0, the branch returned is the preferred one, with
    the last segment of the remote symbolic HEAD reference for (ii). *)
Lemma get_default_branch_preference (repo_path : string) (w : W)
  (current remote_head main master : completed) :
  ask_branches repo_path w
  = mkAnswers (Returned current) (Returned remote_head) (Returned main) (Returned master) ->
  returncode current = 0 ->
  value (get_default_branch repo_path w)
  = Ok (preferred_branch current remote_head main master).
Proof.
  intros Hans Hrc. rewrite get_default_branch_resolve, Hans.
  unfold resolve_branch, preferred_branch. cbn [ans_current ans_remote_head ans_main ans_master].
  by rewrite Hrc.
Qed.


End DefaultBranch.

(** A detached clone whose remote HEAD is not set and that has only a
    local [master]. *)
Lemma get_default_branch_preference_witness :
  value (get_default_branch (host := sim_host true) "/tmp/tmpk3x9/c4gt-website"
           (sim_with_branches (0, nl) None ["master"] sim_fine))
  = Ok "master".
Proof.
  exact (get_default_branch_preference (host := sim_host true)
           "/tmp/tmpk3x9/c4gt-website"
           (sim_with_branches (0, nl) None ["master"] sim_fine)
           (mkCompleted 0 nl "")
           (mkCompleted 128 "" "fatal: ref refs/remotes/origin/HEAD is not a symbolic ref")
           (mkCompleted 1 "" "") (mkCompleted 0 "" "")
           eq_refl eq_refl).
Defined.



Example default_branch_current :
  value (get_default_branch (host := sim_host true) "/r"
           (sim_with_branches (0, "develop" ++ nl) (Some "refs/remotes/origin/main") ["main"]
              sim_fine))
  = Ok "develop".
Proof. reflexivity. Qed.

Example default_branch_remote_head :
  value (get_default_branch (host := sim_host true) "/r"
           (sim_with_branches (0, nl) (Some ("refs/remotes/origin/trunk" ++ nl)) ["main"]
              sim_fine))
  = Ok "trunk".
Proof. reflexivity. Qed.

Example default_branch_fallback :
  value (get_default_branch (host := sim_host true) "/r"
           (sim_with_branches (0, nl) None [] sim_fine))
  = Ok "main".
Proof. reflexivity. Qed.

(** When the current-branch query itself fails the remote HEAD is not
    consulted. *)
Example default_branch_query_fails :
  value (get_default_branch (host := sim_host true) "/r"
           (sim_with_branches (129, "") (Some "refs/remotes/origin/master") ["master"]
              sim_fine))
  = Ok "main".
Proof. reflexivity. Qed.

(** A remote HEAD whose branch name holds a "/": the last segment is
    returned, and [ordered_branch] is silent. *)
Example default_branch_nested_head :
  value (get_default_branch (host := sim_host true) "/r"
           (sim_with_branches (0, nl) (Some ("refs/remotes/origin/release/v1" ++ nl)) []
              sim_fine))
  = Ok "v1"
  /\ ordered_branch
       (ask_branches (host := sim_host true) "/r"
          (sim_with_branches (0, nl) (Some ("refs/remotes/origin/release/v1" ++ nl)) []
             sim_fine))
     = None.
Proof. split; reflexivity. Qed.

(** White space that is not ASCII is stripped from the branch name. *)
Example default_branch_unicode_space :
  value (get_default_branch (host := sim_host true) "/r"
           (sim_with_branches (0, PyStr.of_bytes [194; 160]%nat ++ "develop" ++ nl) None []
              sim_fine))
  = Ok "develop".
Proof. reflexivity. Qed.

(** ** Workflow Pusher *)

Section WorkflowPush.

Context {W : Type} {host : Host W}.

Variable repo_path : string.

Local Abbreviation quiet := (fun ev => ~ is_empty_diff repo_path ev).
Local Abbreviation calm := (fun ev => is_commit_or_push ev = false).

Lemma silent_quiet (ev : event) : silent repo_path ev -> quiet ev.
Proof. by intros []. Qed.

Lemma silent_calm (ev : event) : silent repo_path ev -> calm ev.
Proof. by intros []. Qed.

(** Events that are not a [git] invocation are silent. *)
Lemma silent_other (ev : event) :
  (forall args cwd r, ev <> EvRun args cwd r) -> silent repo_path ev.
Proof.
  intros H. split.
  - intros (p & -> & _). by eapply H.
  - destruct ev; try done. by edestruct H.
Qed.

Lemma quiet_run (args : list string) (cwd : string) (r : reply completed) :
  args <> ["git"; "diff"; "--cached"; "--quiet"] -> quiet (EvRun args cwd r).
Proof. intros H (p & [= -> _ _] & _). done. Qed.

Lemma short_circuits_quiet (m : M W bool) :
  emits quiet m -> short_circuits repo_path m.
Proof. intros H w. left. apply H. Qed.

Lemma short_circuits_bind {A : Type} (m : M W A) (k : A -> M W bool) :
  emits (silent repo_path) m -> (forall a, short_circuits repo_path (k a)) ->
  short_circuits repo_path (bind m k).
Proof.
  intros Hm Hk w. rewrite value_bind, log_bind.
  pose proof (Forall_impl _ _ _ (Hm w) silent_quiet) as Hq.
  pose proof (Forall_impl _ _ _ (Hm w) silent_calm) as Hc.
  destruct (value (m w)) as [a|e]; [|by left].
  destruct (Hk a (after (m w))) as [H|[Hv H]].
  - left. by apply Forall_app.
  - right. split; [done | by apply Forall_app].
Qed.

Lemma short_circuits_try_except (body : M W bool) (handler : exn -> option (M W bool)) :
  short_circuits repo_path body ->
  (forall e, match handler e with Some h => emits quiet h | None => True end) ->
  short_circuits repo_path (try_except body handler).
Proof.
  intros Hb Hh w. rewrite value_try_except, log_try_except.
  destruct (Hb w) as [H|[Hv H]].
  - left. destruct (value (body w)) as [a|e]; [done|].
    specialize (Hh e). destruct (handler e); [|done].
    apply Forall_app. split; [done | apply Hh].
  - right. by rewrite Hv.
Qed.

Lemma short_circuits_try_finally (body : M W bool) (final : M W unit) :
  short_circuits repo_path body -> emits (silent repo_path) final -> total final ->
  short_circuits repo_path (try_finally body final).
Proof.
  intros Hb Hf Ht w. rewrite value_try_finally, log_try_finally.
  pose proof (Forall_impl _ _ _ (Hf (after (body w))) silent_quiet) as Hq.
  pose proof (Forall_impl _ _ _ (Hf (after (body w))) silent_calm) as Hc.
  destruct (Ht (after (body w))) as [[] ->].
  destruct (Hb w) as [H|[Hv H]].
  - left. by apply Forall_app.
  - right. split; [done | by apply Forall_app].
Qed.

Lemma first_local_branch_quiet (path : string) (branches : list string) :
  emits quiet (first_local_branch path branches).
Proof.
  induction branches as [|b l IH]; cbn [first_local_branch].
  - apply emits_ret.
  - apply emits_bind.
    + apply emits_subprocess_run. intros r. by apply quiet_run.
    + intros p. destruct (returncode p =? 0); [apply emits_ret | apply IH].
Qed.

Lemma get_default_branch_quiet (path : string) : emits quiet (get_default_branch path).
Proof.
  apply emits_try_except; [|intros e; apply emits_ret].
  apply emits_bind; [apply emits_subprocess_run; intros r; by apply quiet_run|].
  intros p. cbv zeta. destruct (PyStr.truthy (PyStr.strip (stdout p))); [apply emits_ret|].
  apply emits_bind; [apply emits_subprocess_run; intros r; by apply quiet_run|].
  intros q. destruct (returncode q =? 0); [apply emits_ret|].
  apply emits_bind; [apply first_local_branch_quiet|].
  intros [b|]; apply emits_ret.
Qed.

Lemma copy_workflow_silent (src dest file : string) (u : unit) :
  emits (silent repo_path) (copy_workflow src dest file u).
Proof.
  unfold copy_workflow. destruct (is_workflow_file file); [|apply emits_ret].
  apply emits_bind; [apply emits_call; intros r; by apply silent_other|].
  intros _. apply emits_print. by apply silent_other.
Qed.

(** From the staged diff on: an empty diff ends the stage with [True];
    otherwise nothing that follows is an empty diff. *)
Lemma diff_short_circuits :
  short_circuits repo_path
    (bind (subprocess_run ["git"; "diff"; "--cached"; "--quiet"] repo_path false)
       (fun result =>
          if returncode result =? 0 then
            bind (print "   ℹ️  No changes to commit (workflows already up to date)")
                 (fun _ => ret true)
          else
            bind (subprocess_run
                    ["git"; "commit"; "-m"; "Add/Update GitHub Actions workflows"]
                    repo_path true)
              (fun _ =>
                 bind (get_default_branch repo_path)
                   (fun default_branch =>
                      bind (print ("   📤 Pushing to " ++ default_branch ++ " branch..."))
                        (fun _ =>
                           bind (subprocess_run ["git"; "push"; "origin"; default_branch]
                                   repo_path true)
                             (fun _ => ret true)))))).
Proof.
  intros w. rewrite value_bind, log_bind, value_subprocess_run, log_subprocess_run,
    after_subprocess_run.
  destruct (host_run _ repo_path w) as [[p|msg] w1] eqn:E; cbn [fst snd andb].
  2:{ left. repeat constructor. by intros (p & [=] & _). }
  destruct (returncode p =? 0) eqn:Hrc.
  - right. split; [done|]. by repeat constructor.
  - left. apply Forall_app. split.
    + repeat constructor. intros (p' & [= <-] & Hp'). rewrite Hp' in Hrc. done.
    + match goal with
      | |- Forall _ (log (?m ?w')) => cut (emits quiet m); [intros H; apply H|]
      end.
      apply emits_bind.
      { apply emits_subprocess_run. intros r. by apply quiet_run. }
      intros _. apply emits_bind; [apply get_default_branch_quiet|].
      intros b. apply emits_bind.
      { apply emits_print. by intros (? & [=] & _). }
      intros _. apply emits_bind; [|intros; apply emits_ret].
      apply emits_subprocess_run. intros r. by apply quiet_run.
Qed.

Lemma push_workflows_body_short_circuits (workflows_source : string) :
  short_circuits repo_path (push_workflows_body repo_path workflows_source).
Proof.
  unfold push_workflows_body.
  apply short_circuits_bind; [apply emits_call; intros r; by apply silent_other|].
  intros _. apply short_circuits_bind; [apply emits_call; intros r; by apply silent_other|].
  intros files. apply short_circuits_bind.
  { apply emits_for_each. intros. apply copy_workflow_silent. }
  intros _. apply short_circuits_bind.
  { apply emits_subprocess_run. intros r. split; [by apply quiet_run | done]. }
  intros _. apply diff_short_circuits.
Qed.

Lemma push_workflows_short_circuits (workflows_source : string) :
  short_circuits repo_path (push_workflows repo_path workflows_source).
Proof.
  unfold push_workflows.
  apply short_circuits_bind; [apply emits_call; intros r; by apply silent_other|].
  intros original_cwd. apply short_circuits_try_finally.
  - apply short_circuits_try_except; [apply push_workflows_body_short_circuits|].
    intros e. destruct e; try done. cbn.
    apply emits_bind.
    { unfold stderr_or_unknown, bytes_decode.
      destruct (PyStr.truthy _); [|apply emits_ret].
      destruct (PyStr.decodes _); [apply emits_ret | apply emits_raise]. }
    intros text. apply emits_bind; [|intros; apply emits_ret].
    apply emits_print. by intros (? & [=] & _).
  - apply emits_try_except.
    + apply emits_call. intros r. by apply silent_other.
    + intros e. apply emits_ret.
  - apply total_try_except_all, total_ret.
Qed.

End WorkflowPush.

(** ** Two runs in succession on the reference host *)

Section SecondRun.

Import PyStr.

Lemma basename_slash_free (f : string) : slash_free f -> basename f = f.
Proof. intros H. unfold basename. rewrite (split_sep_free "/" f H). reflexivity. Qed.

Lemma startswith_slash_free (f : string) : slash_free f -> startswith f "/" = false.
Proof.
  destruct f as [|c f]; [done|]. unfold slash_free, startswith. intros H.
  cbn [String.prefix]. destruct (Ascii.ascii_dec "/" c) as [<-|Hne]; [|done].
  cbn in H. lia.
Qed.

Lemma basename_join (d f : string) : slash_free f -> basename (os_path_join d [f]) = f.
Proof.
  intros Hf. unfold os_path_join, path_join2. cbn [fold_left].
  rewrite (startswith_slash_free _ Hf).
  destruct (negb (truthy d)) eqn:Hd; cbn [orb].
  - unfold truthy in Hd. apply negb_true_iff, negb_false_iff, String.eqb_eq in Hd as ->.
    by apply basename_slash_free.
  - destruct (endswith d "/") eqn:He.
    + apply endswith_iff in He as [p ->]. unfold basename.
      rewrite append_assoc. change ("/" ++ f) with (String "/" f).
      rewrite last_segment_split_app. by apply basename_slash_free.
    + unfold basename. change ("/" ++ f) with (String "/" f).
      rewrite last_segment_split_app. by apply basename_slash_free.
Qed.

Lemma sim_set_trees_id (s : sim) :
  sim_set_trees s (sim_remote s) (sim_work s) (sim_index s) (sim_head s) = s.
Proof. by destruct s. Qed.

Lemma assoc_is_Some (f : string) (l : list (string * string)) :
  f ∈ map fst l -> is_Some (assoc f l).
Proof.
  induction l as [|[k v] l IH]; cbn; [by intros ?%elem_of_nil|].
  intros [->|H]%elem_of_cons.
  - by rewrite String.eqb_refl.
  - destruct (String.eqb f k); [done | by apply IH].
Qed.

Lemma copy_all_cons_copy (source : list (string * string)) (f c : string)
  (files : list string) (work : gmap string string) :
  is_workflow_file f = true -> assoc f source = Some c ->
  copy_all source (f :: files) work = copy_all source files (<[f := c]> work).
Proof. intros Hwf Hc. unfold copy_all. cbn [fold_left]. by rewrite Hwf, Hc. Qed.

Lemma copy_all_cons_skip (source : list (string * string)) (f : string)
  (files : list string) (work : gmap string string) :
  is_workflow_file f = false ->
  copy_all source (f :: files) work = copy_all source files work.
Proof. intros Hwf. unfold copy_all. cbn [fold_left]. by rewrite Hwf. Qed.

(** The copy loop on the reference host. *)
Lemma sim_copy_loop (src dest : string) (files : list string) (s : sim) :
  Forall slash_free files -> files ⊆ map fst (sim_source s) ->
  exists l,
    for_each files (copy_workflow src dest) tt s
    = Ran (Ok tt)
          (sim_set_trees s (sim_remote s) (copy_all (sim_source s) files (sim_work s))
             (sim_index s) (sim_head s)) l
    /\ Forall (fun ev => forall args cwd r, ev <> EvRun args cwd r) l.
Proof.
  revert s. induction files as [|f files IH]; intros s Hfree Hsub.
  - exists []. cbn. by rewrite sim_set_trees_id.
  - apply Forall_cons in Hfree as [Hf Hfree].
    assert (Hin : f ∈ map fst (sim_source s)) by (apply Hsub; left).
    destruct (assoc_is_Some _ _ Hin) as [c Hc].
    cbn [for_each].
    destruct (is_workflow_file f) eqn:Hwf.
    + rewrite (copy_all_cons_copy _ _ c) by done.
      set (s1 := sim_set_trees s (sim_remote s) (<[f := c]> (sim_work s))
                   (sim_index s) (sim_head s)).
      destruct (IH s1) as (l & Hl & Hl'); [done | intros x Hx; apply Hsub; by right |].
      eexists. split.
      * eapply bind_ran; [|exact Hl].
        unfold copy_workflow. rewrite Hwf.
        eapply bind_ran; [|reflexivity].
        unfold shutil_copy2, call. cbn [host_copy2 sim_default_host sim_host].
        unfold sim_copy2. rewrite !basename_join by done. rewrite Hc. reflexivity.
      * cbn. repeat constructor; try done.
    + rewrite copy_all_cons_skip by done.
      destruct (IH s) as (l & Hl & Hl'); [done | intros x Hx; apply Hsub; by right |].
      exists l. split; [|done].
      eapply (bind_ran _ _ _ _ _ _ _ []); [|exact Hl].
      unfold copy_workflow. by rewrite Hwf.
Qed.

Lemma copy_all_lookup (source : list (string * string)) (files : list string)
  (work : gmap string string) (k : string) :
  copy_all source files work !! k =
  match (if bool_decide (k ∈ files) && is_workflow_file k then assoc k source else None) with
  | Some c => Some c
  | None => work !! k
  end.
Proof.
  revert work. induction files as [|f files IH]; intros work; [done|].
  destruct (is_workflow_file f) eqn:Hwf.
  - destruct (assoc f source) as [c|] eqn:Hc.
    + rewrite (copy_all_cons_copy _ _ c) by done. rewrite IH.
      destruct (decide (k = f)) as [->|Hne].
      * rewrite (bool_decide_eq_true_2 (f ∈ f :: files)) by left.
        rewrite Hwf, Hc. cbn [andb]. rewrite lookup_insert_eq.
        by destruct (bool_decide (f ∈ files)).
      * rewrite lookup_insert_ne by done.
        replace (bool_decide (k ∈ f :: files)) with (bool_decide (k ∈ files)); [done|].
        apply bool_decide_ext. rewrite elem_of_cons. split; [by right | by intros [?|?]].
    + unfold copy_all in *. cbn [fold_left]. rewrite Hwf, Hc, IH.
      destruct (decide (k = f)) as [->|Hne].
      * rewrite Hwf, Hc, !andb_true_r. by destruct (bool_decide _), (bool_decide _).
      * replace (bool_decide (k ∈ f :: files)) with (bool_decide (k ∈ files)); [done|].
        apply bool_decide_ext. rewrite elem_of_cons. split; [by right | by intros [?|?]].
  - rewrite copy_all_cons_skip by done. rewrite IH.
    destruct (decide (k = f)) as [->|Hne].
    + by rewrite Hwf, !andb_false_r.
    + replace (bool_decide (k ∈ f :: files)) with (bool_decide (k ∈ files)); [done|].
      apply bool_decide_ext. rewrite elem_of_cons. split; [by right | by intros [?|?]].
Qed.

(** Copying the same files again changes nothing. *)
Lemma copy_all_idempotent (source : list (string * string)) (files : list string)
  (work : gmap string string) :
  copy_all source files (copy_all source files work) = copy_all source files work.
Proof.
  apply map_eq. intros k. rewrite !copy_all_lookup.
  destruct (bool_decide (k ∈ files) && is_workflow_file k); [|done].
  by destruct (assoc k source).
Qed.

Lemma sim_show_ref (path branch : string) (w : sim) :
  (sim_run (q_local branch) path w).2 = w.
Proof.
  unfold q_local, sim_run.
  cbn [String.eqb Ascii.eqb Bool.eqb andb]. by destruct (bool_decide _).
Qed.

(** Asking for the default branch leaves the reference host as it is. *)
Lemma sim_default_branch_keeps (path : string) : keeps (get_default_branch path).
Proof.
  apply keeps_try_except; [|intros e; apply keeps_ret].
  apply keeps_bind; [by apply keeps_subprocess_run|].
  intros p. cbv zeta. destruct (PyStr.truthy (PyStr.strip (stdout p))); [apply keeps_ret|].
  apply keeps_bind.
  { apply keeps_subprocess_run. intros w. cbn. by destruct (sim_remote_head w). }
  intros r. destruct (returncode r =? 0); [apply keeps_ret|].
  apply keeps_bind; [|intros [b|]; apply keeps_ret].
  cbn [first_local_branch].
  apply keeps_bind; [apply keeps_subprocess_run, sim_show_ref|].
  intros m. destruct (returncode m =? 0); [apply keeps_ret|].
  apply keeps_bind; [apply keeps_subprocess_run, sim_show_ref|].
  intros ms. destruct (returncode ms =? 0); apply keeps_ret.
Qed.

Lemma sim_default_branch (path : string) (s : sim) :
  exists b l, get_default_branch path s = Ran (Ok b) s l.
Proof.
  destruct (get_default_branch_total path s) as [b Hb].
  exists b, (log (get_default_branch path s)).
  rewrite (ran_eta (get_default_branch path s)), Hb. f_equal.
  apply sim_default_branch_keeps.
Qed.


Lemma sim_push_workflows_body (path src : string) (s : sim) :
  Forall slash_free (map fst (sim_source s)) -> sim_push_ok s = true ->
  let staged := copy_all (sim_source s) (map fst (sim_source s)) (sim_work s) in
  exists l,
    push_workflows_body path src s
    = Ran (Ok true)
          (if decide (staged = sim_head s)
           then sim_set_trees s (sim_remote s) staged staged (sim_head s)
           else sim_set_trees s staged staged staged staged) l
    /\ (staged = sim_head s -> exists ev, ev ∈ l /\ is_empty_diff path ev).
Proof.
  intros Hfree Hpush staged.
  destruct (sim_copy_loop src (os_path_join path [".github"; "workflows"])
              (map fst (sim_source s)) s Hfree) as (l & Hl & _); [done|].
  fold staged in Hl.
  unfold push_workflows_body.
  destruct (decide (staged = sim_head s)) as [Heq|Hne].
  - eexists. split.
    + eapply bind_ran; [reflexivity|].
      eapply bind_ran; [reflexivity|].
      eapply bind_ran; [exact Hl|].
      eapply bind_ran; [reflexivity|].
      eapply bind_ran.
      { unfold subprocess_run. eapply bind_ran; [|reflexivity].
        unfold call. cbn. rewrite decide_True by done. reflexivity. }
      cbn. reflexivity.
    + intros _.
      exists (EvRun ["git"; "diff"; "--cached"; "--quiet"] path (done_ok "")).
      split; [|by eexists].
      rewrite !elem_of_app, !elem_of_cons. intuition eauto.
  - destruct (sim_default_branch path
                (sim_set_trees s (sim_remote s) staged staged staged)) as (b & lb & Hb).
    eexists. split; [|done].
    eapply bind_ran; [reflexivity|].
    eapply bind_ran; [reflexivity|].
    eapply bind_ran; [exact Hl|].
    eapply bind_ran; [reflexivity|].
    eapply bind_ran.
    { unfold subprocess_run. eapply bind_ran; [|reflexivity].
      unfold call. cbn. rewrite decide_False by done. reflexivity. }
    cbn [returncode Z.eqb].
    eapply bind_ran.
    { unfold subprocess_run.
      eapply bind_ran; [unfold call; cbn; rewrite decide_False by done; reflexivity|].
      reflexivity. }
    eapply bind_ran; [exact Hb|].
    eapply bind_ran; [reflexivity|].
    eapply bind_ran.
    { unfold subprocess_run.
      eapply bind_ran; [unfold call; cbn; rewrite Hpush; reflexivity|].
      reflexivity. }
    reflexivity.
Qed.

(** The workflow push on the reference host, from any state of the
    clone: the stage returns [True] and leaves the remote with the
    workflow files of the source directory. *)
Lemma sim_push_workflows (path src : string) (s : sim) :
  Forall slash_free (map fst (sim_source s)) -> sim_push_ok s = true ->
  let staged := copy_all (sim_source s) (map fst (sim_source s)) (sim_work s) in
  exists l,
    push_workflows path src s
    = Ran (Ok true)
          (if decide (staged = sim_head s)
           then sim_set_trees s (sim_remote s) staged staged (sim_head s)
           else sim_set_trees s staged staged staged staged) l
    /\ (staged = sim_head s -> exists ev, ev ∈ l /\ is_empty_diff path ev).
Proof.
  intros Hfree Hpush staged.
  destruct (sim_push_workflows_body path src s Hfree Hpush) as (l & Hl & Hdiff).
  fold staged in Hl, Hdiff.
  eexists. split.
  - unfold push_workflows. eapply bind_ran; [reflexivity|].
    eapply try_finally_ran; [eapply try_except_ran_ok; exact Hl | reflexivity].
  - intros Heq. destruct (Hdiff Heq) as (ev & Hev & Hempty). exists ev. split; [|done].
    rewrite !elem_of_app. auto.
Qed.

Lemma sim_clone_repo (token repo_url temp_dir owner name : string) (s : sim) :
  extract_repo_info repo_url = Ok (owner, name) ->
  exists l,
    clone_repo token repo_url temp_dir s
    = Ran (Ok (os_path_join temp_dir [name])) (cloned s) l
    /\ Forall (fun ev => is_commit_or_push ev = false) l.
Proof.
  intros Hinfo. eexists. split.
  - unfold clone_repo. eapply bind_ran; [unfold lift; rewrite Hinfo; reflexivity|].
    cbv zeta. eapply try_except_ran_ok.
    eapply bind_ran; [reflexivity|].
    eapply bind_ran; [reflexivity|]. reflexivity.
  - by repeat constructor.
Qed.

End SecondRun.

(** ** The workflow stage, and C4 *)

(** C4: once the workflow files are copied and the workflow directory is
    staged, an empty staged diff ends the stage at once: it returns
    [True] and the run holds no commit and no push.  (The staged diff is
    asked for once, after the copy loop and [git add] have succeeded, so
    an empty-diff event in the log is a run in which both happened.) *)
Theorem push_workflows_idempotent {W : Type} {host : Host W}
  (repo_path workflows_source : string) (w : W) :
  (exists ev, ev ∈ log (push_workflows repo_path workflows_source w)
              /\ is_empty_diff repo_path ev) ->
  value (push_workflows repo_path workflows_source w) = Ok true
  /\ Forall (fun ev => is_commit_or_push ev = false)
            (log (push_workflows repo_path workflows_source w)).
Proof.
  intros (ev & Hin & Hempty).
  destruct (push_workflows_short_circuits repo_path workflows_source w) as [H|H]; [|done].
  rewrite Forall_forall in H. by destruct (H ev Hin).
Qed.

Section StageOnSim.

Variables token repo_url workflows_source temp_dir owner name : string.
Variable result : ProcessingResult.
Hypothesis locator : extract_repo_info repo_url = Ok (owner, name).

Abbreviation stage := (workflow_stage token repo_url workflows_source temp_dir result).

(** One run of the workflow stage on the reference host: it reports
    success and leaves the remote up to date; when the remote was up to
    date already, the run holds no commit and no push. *)
Lemma sim_workflow_stage (s : sim) :
  Forall slash_free (map fst (sim_source s)) -> sim_push_ok s = true ->
  value (stage s) = Ok (set_workflows_pushed true result)
  /\ sim_source (after (stage s)) = sim_source s
  /\ sim_push_ok (after (stage s)) = true
  /\ up_to_date (after (stage s))
  /\ (up_to_date s -> Forall (fun ev => is_commit_or_push ev = false) (log (stage s))).
Proof.
  intros Hfree Hpush.
  destruct (sim_clone_repo token repo_url temp_dir owner name s locator)
    as (lc & Hclone & Hlc).
  set (path := os_path_join temp_dir [name]) in *.
  destruct (sim_push_workflows path workflows_source (cloned s) Hfree Hpush)
    as (lp & Hp & Hdiff).
  cbn [cloned sim_set_trees sim_source sim_work sim_head sim_remote] in Hp, Hdiff.
  set (staged := copy_all (sim_source s) (map fst (sim_source s)) (sim_remote s)) in *.
  assert (Hstage : exists w' l,
    stage s = Ran (Ok (set_workflows_pushed true result)) w' l
    /\ w' = (if decide (staged = sim_remote s)
             then sim_set_trees (cloned s) (sim_remote s) staged staged (sim_remote s)
             else sim_set_trees (cloned s) staged staged staged staged)
    /\ l = ([EvPrint "   📥 Cloning repository..."] ++ lc
            ++ [EvPrint "   🚀 Pushing workflows..."] ++ lp
            ++ [EvPrint "   ✅ Workflows pushed successfully"])%list).
  { eexists _, _. split; [|split; reflexivity].
    unfold workflow_stage. eapply try_except_ran_ok.
    eapply bind_ran; [reflexivity|].
    eapply bind_ran; [exact Hclone|].
    eapply bind_ran; [reflexivity|].
    eapply bind_ran; [exact Hp|]. reflexivity. }
  destruct Hstage as (w' & l & -> & -> & ->). cbn [value after log].
  split; [done|]. split; [by destruct (decide _)|]. split; [by destruct (decide _)|].
  split.
  - unfold up_to_date. destruct (decide (staged = sim_remote s)) as [Heq|Hne]; cbn.
    + exact Heq.
    + apply copy_all_idempotent.
  - intros Hup. unfold up_to_date in Hup. fold staged in Hup.
    destruct (Hdiff Hup) as (ev & Hev & Hempty).
    assert (Hcalm : Forall (fun ev => is_commit_or_push ev = false) lp).
    { destruct (push_workflows_short_circuits path workflows_source (cloned s)) as [H|H];
        rewrite Hp in H; cbn [value log] in H; [|by destruct H].
      rewrite Forall_forall in H. by destruct (H ev Hev). }
    repeat (apply Forall_app; split); try done; by repeat constructor.
Qed.

(** Running the stage twice in succession against an unchanged source
    directory: both runs report success and the second one performs no
    commit and no push. *)
Lemma second_run_no_commit (s : sim) :
  Forall slash_free (map fst (sim_source s)) -> sim_push_ok s = true ->
  value (stage s) = Ok (set_workflows_pushed true result)
  /\ value (stage (after (stage s))) = Ok (set_workflows_pushed true result)
  /\ Forall (fun ev => is_commit_or_push ev = false) (log (stage (after (stage s)))).
Proof.
  intros Hfree Hpush.
  destruct (sim_workflow_stage s Hfree Hpush) as (Hv & Hsrc & Hpush' & Hup & _).
  split; [done|].
  destruct (sim_workflow_stage (after (stage s))) as (Hv' & _ & _ & _ & Hcalm).
  - by rewrite Hsrc.
  - done.
  - split; [done | by apply Hcalm].
Qed.

End StageOnSim.

(** A second run on the reference host: the first run committed and
    pushed [ci.yml], the fresh clone of the second run already has it. *)
Lemma push_workflows_idempotent_witness :
  value (push_workflows "/tmp/tmpk3x9/c4gt-website" workflows_dir example_second_clone)
  = Ok true
  /\ Forall (fun ev => is_commit_or_push ev = false)
            (log (push_workflows "/tmp/tmpk3x9/c4gt-website" workflows_dir
                    example_second_clone)).
Proof.
  apply push_workflows_idempotent.
  exists (EvRun ["git"; "diff"; "--cached"; "--quiet"] "/tmp/tmpk3x9/c4gt-website"
            (done_ok "")).
  split.
  - apply (list_elem_of_lookup_2 _ 6). vm_compute. reflexivity.
  - exists (mkCompleted 0 "" ""). split; reflexivity.
Defined.

Example first_run_commits_and_pushes :
  filter (fun ev => is_commit_or_push ev = true)
         (log (workflow_stage "token" example_url workflows_dir "/tmp/tmpk3x9"
                 (fresh_result example_url) sim_fine))
  = [ EvRun ["git"; "commit"; "-m"; "Add/Update GitHub Actions workflows"]
            "/tmp/tmpk3x9/c4gt-website" (done_ok "");
      EvRun ["git"; "push"; "origin"; "main"] "/tmp/tmpk3x9/c4gt-website" (done_ok "") ].
Proof. vm_compute. reflexivity. Qed.

(** ** Symbolic execution *)

Ltac wp_step :=
  lazymatch goal with
  | |- post (bind _ _) _ => apply post_bind
  | |- post (ret _) _ => apply post_ret
  | |- post (raise _) _ => apply post_raise
  | |- post (sys_exit _) _ => apply post_raise
  | |- post (lift _) _ => apply post_lift
  | |- post (emit _) _ => apply post_emit
  | |- post (print _) _ => apply post_emit
  | |- post (call _ _) _ => apply post_call; [intros ? | intros ?]
  | |- post (session_get _) _ => apply post_call; [intros ? | intros ?]
  | |- post (session_put _ _) _ => apply post_call; [intros ? | intros ?]
  | |- post (subprocess_run _ _ _) _ => apply post_subprocess_run; [intros ? | intros ?]
  | |- post (try_except _ _) _ => apply post_try_except
  | |- post (try_finally _ _) _ => apply post_try_finally
  | |- post (dict_get ?d ?k) _ => unfold dict_get; destruct (d !! k)
  | |- post (if ?b then _ else _) _ => destruct b eqn:?
  | |- post (match ?x with _ => _ end) _ => destruct x eqn:?
  | |- post (let _ := _ in _) _ => cbv zeta
  | |- _ => progress cbn [except_Exception except_all except_CalledProcessError
                          is_Exception app]
  end.

Ltac wp := repeat wp_step.

Ltac emits_step :=
  lazymatch goal with
  | |- emits _ (bind _ _) => apply emits_bind; [|intros ?]
  | |- emits _ (ret _) => apply emits_ret
  | |- emits _ (raise _) => apply emits_raise
  | |- emits _ (lift _) => apply emits_lift
  | |- emits _ (emit _) => apply emits_emit
  | |- emits _ (print _) => apply emits_print
  | |- emits _ (call _ _) => apply emits_call; intros ?
  | |- emits _ (subprocess_run _ _ _) => apply emits_subprocess_run; intros ?
  | |- emits _ (try_except _ _) => apply emits_try_except; [|intros []]
  | |- emits _ (try_finally _ _) => apply emits_try_finally
  | |- emits _ (for_each _ _ _) => apply emits_for_each; intros ? ?
  | |- emits _ (if ?b then _ else _) => destruct b
  | |- emits _ (match ?x with _ => _ end) => destruct x
  | |- emits _ (let _ := _ in _) => cbv zeta
  | |- match _ with Some _ => emits _ _ | None => True end =>
      cbn [except_Exception except_all except_CalledProcessError is_Exception]
  | |- True => exact I
  end.

Ltac no_exit_step :=
  lazymatch goal with
  | |- no_exit (bind _ _) => apply no_exit_bind; [|intros ?]
  | |- no_exit (ret _) => apply no_exit_ret
  | |- no_exit (raise _) => apply no_exit_raise; reflexivity
  | |- no_exit (emit _) => apply no_exit_emit
  | |- no_exit (print _) => apply no_exit_emit
  | |- no_exit (call _ _) => apply no_exit_call
  | |- no_exit (subprocess_run _ _ _) => apply no_exit_subprocess_run
  | |- no_exit (try_except _ _) => apply no_exit_try_except; [|intros []]
  | |- no_exit (try_finally _ _) => apply no_exit_try_finally
  | |- no_exit (for_each _ _ _) => apply no_exit_for_each; intros ? ?
  | |- no_exit (if ?b then _ else _) => destruct b
  | |- no_exit (match ?x with _ => _ end) => destruct x
  | |- no_exit (let _ := _ in _) => cbv zeta
  | |- match _ with Some _ => no_exit _ | None => True end =>
      cbn [except_Exception except_all except_CalledProcessError is_Exception]
  | |- True => exact I
  end.

(** ** The stages of one repository *)

Section Stages.
Context {W : Type} {host : Host W}.

Lemma secret_url_inj (owner repo a b : string) :
  secret_url owner repo a = secret_url owner repo b -> a = b.
Proof.
  unfold secret_url. intros H.
  repeat (apply String.app_inj in H). done.
Qed.

Lemma key_get_self (owner repo : string) (r : reply response) :
  is_key_get owner repo (EvGet (public_key_url owner repo) r) = true.
Proof. cbn. apply String.eqb_refl. Qed.

Lemma accepted_put_inv (owner repo secret_name url : string)
  (data : list (string * json_value)) (r : reply response) :
  is_accepted_put owner repo secret_name (EvPut url data r) ->
  exists resp, r = Returned resp /\ (status_code resp =? 201) || (status_code resp =? 204) = true.
Proof.
  intros (d & resp & [= _ _ ->] & Hst). exists resp. split; [done|].
  destruct Hst as [-> | ->]; done.
Qed.

Lemma accepted_put_intro (owner repo secret_name : string)
  (data : list (string * json_value)) (resp : response) :
  (status_code resp =? 201) || (status_code resp =? 204) = true ->
  is_accepted_put owner repo secret_name
    (EvPut (secret_url owner repo secret_name) data (Returned resp)).
Proof.
  intros H. exists data, resp. split; [done|].
  apply orb_true_iff in H as [H|H]; apply Z.eqb_eq in H; auto.
Qed.

Ltac not_accepted :=
  repeat match goal with
  | H : Exists _ (_ :: _) |- _ => apply Exists_cons in H as [H|H]
  | H : Exists _ [] |- _ => by apply Exists_nil in H
  | H : is_accepted_put _ _ _ (EvPut _ _ _) |- _ =>
      apply accepted_put_inv in H as (? & ? & ?); simplify_eq; congruence
  | H : is_accepted_put _ _ _ _ |- _ => by destruct H as (? & ? & ? & _)
  end.

Ltac no_secret_put :=
  repeat constructor; by intros (? & ? & ?).

Lemma create_or_update_secret_spec (owner repo secret_name secret_value : string) :
  post (create_or_update_secret owner repo secret_name secret_value)
    (fun v l =>
       Forall (secret_event owner repo secret_name) l
       /\ length (List.filter (is_key_get owner repo) l) = 1%nat
       /\ match v with
          | Ok b => b = true <-> Exists (is_accepted_put owner repo secret_name) l
          | Raise e =>
              e = SystemExit 1 /\ host_nacl_installed = false
              /\ Forall (fun ev => ~ is_secret_put owner repo secret_name ev) l
          end).
Proof.
  unfold create_or_update_secret, get_repo_public_key, encrypt_secret.
  fold (public_key_url owner repo).
  wp.
  all: (split; [by repeat constructor|]).
  all: (split; [cbn [List.filter is_key_get]; rewrite String.eqb_refl; reflexivity|]).
  all: try (split; [done|]; intros H; not_accepted).
  - split; [intros _|done]. do 3 apply Exists_cons_tl. apply Exists_cons_hd.
    by apply accepted_put_intro.
  - split; [done|]. split; [done|]. no_secret_put.
Qed.

Local Abbreviation local := (fun ev => is_local ev = true).

Lemma get_default_branch_local (path : string) : emits local (get_default_branch path).
Proof.
  unfold get_default_branch. cbn [first_local_branch]. by repeat emits_step.
Qed.

Lemma push_workflows_local (path src : string) : emits local (push_workflows path src).
Proof.
  unfold push_workflows, push_workflows_body, copy_workflow, stderr_or_unknown,
    bytes_decode, os_getcwd, os_chdir, os_makedirs, os_listdir, shutil_copy2.
  repeat first [apply get_default_branch_local | emits_step]; done.
Qed.

Lemma push_workflows_no_exit (path src : string) : no_exit (push_workflows path src).
Proof.
  unfold push_workflows, push_workflows_body, copy_workflow, stderr_or_unknown,
    bytes_decode, os_getcwd, os_chdir, os_makedirs, os_listdir, shutil_copy2.
  repeat first [apply total_no_exit, get_default_branch_total | no_exit_step].
Qed.

Lemma lift_no_exit {A : Type} (o : outcome A) :
  (forall code, o <> Raise (SystemExit code)) -> no_exit (W := W) (lift o).
Proof. intros H w code. apply H. Qed.

Lemma extract_repo_info_no_exit (repo_url : string) (code : Z) :
  extract_repo_info repo_url <> Raise (SystemExit code).
Proof.
  rewrite extract_repo_info_unfold. destruct (locator_remainder _); [|done].
  by destruct (PyStr.split _ _) as [|? [|? [|? ?]]].
Qed.

Lemma clone_repo_local (token repo_url temp_dir : string) :
  emits local (clone_repo token repo_url temp_dir).
Proof.
  unfold clone_repo, os_getcwd. repeat emits_step; done.
Qed.

Lemma clone_repo_no_exit (token repo_url temp_dir : string) :
  no_exit (clone_repo token repo_url temp_dir).
Proof.
  unfold clone_repo, os_getcwd.
  apply no_exit_bind; [apply lift_no_exit, extract_repo_info_no_exit|].
  intros [owner name]. repeat no_exit_step.
Qed.


Lemma workflow_stage_local (token repo_url src temp_dir : string) (result : ProcessingResult) :
  emits local (workflow_stage token repo_url src temp_dir result).
Proof.
  unfold workflow_stage.
  repeat first [apply clone_repo_local | apply push_workflows_local | emits_step]; done.
Qed.

Lemma workflow_stage_outcome (token repo_url src temp_dir : string) :
  post (workflow_stage token repo_url src temp_dir (fresh_result repo_url))
    (fun v _ => exists pushed errs,
                  v = Ok (report repo_url success pushed ∅ false errs)
                  /\ pushed_with pushed errs).
Proof.
  unfold workflow_stage. wp.
  eapply post_conseq; [apply post_no_exit, clone_repo_no_exit|].
  intros [repo_path|e] l Hclone.
  - wp. eapply post_conseq; [apply post_no_exit, push_workflows_no_exit|].
    intros [[]|e] l' Hpush.
    + wp. exists true, []. split; [done|]. by left.
    + wp. exists false, [failed_push]. split; [done|]. right. split; [done|]. by left.
    + destruct e; try (by destruct (Hpush code)); wp;
        (eexists false, _; split; [reflexivity|]; right; split; [done|]; right; by eexists).
  - destruct e; try (by destruct (Hclone code)); wp;
      (eexists false, _; split; [reflexivity|]; right; split; [done|]; right; by eexists).
Qed.

Lemma update_workflow_permissions_spec (owner repo : string) :
  post (update_workflow_permissions owner repo)
    (fun v l => Forall (permission_event owner repo) l
                /\ Exists (is_permissions_put owner repo) l
                /\ exists b, v = Ok b).
Proof.
  unfold update_workflow_permissions. wp.
  all: (split; [by repeat constructor|]).
  all: (split; [apply Exists_cons_hd; by eexists _, _|]).
  all: by eexists.
Qed.

Lemma post_for_each_cons {A S : Type} (x : A) (l : list A) (body : A -> S -> M W S)
  (s : S) (Q : outcome S -> list event -> Prop) :
  post (bind (body x s) (fun s' => for_each l body s')) Q ->
  post (for_each (x :: l) body s) Q.
Proof. done. Qed.

(** The loop over the configured secrets either ends the process, which
    only a missing sealing library does, or runs to the end of the list. *)
Lemma secrets_loop_spec (owner repo repo_url : string) (st : status)
  (pushed permitted : bool) (secrets : list (string * option string))
  (m : gmap string bool) (e : list string) :
  post (for_each secrets (secret_step owner repo)
          (report repo_url st pushed m permitted e))
    (fun v l =>
       match v with
       | Ok res =>
           exists m' errs,
             res = report repo_url st pushed m' permitted (e ++ errs)
             /\ provisioned owner repo secrets m m' errs l
       | Raise x => x = SystemExit 1 /\ host_nacl_installed = false
       end).
Proof.
  revert m e. induction secrets as [|[name val] rest IH]; intros m e.
  - apply post_ret. exists m, []. split; [by rewrite app_nil_r | constructor].
  - apply post_for_each_cons, post_bind.
    assert (Hskip : has_value (name, val) = false ->
      post (W := W)
        (bind (print (skip_line name))
           (fun _ => ret (set_secret name false (report repo_url st pushed m permitted e))))
        (fun v l =>
           match v with
           | Ok a => post (for_each rest (secret_step owner repo) a)
                       (fun v' l' =>
                          match v' with
                          | Ok res =>
                              exists m' errs,
                                res = report repo_url st pushed m' permitted (e ++ errs)
                                /\ provisioned owner repo ((name, val) :: rest) m m' errs
                                     (l ++ l')
                          | Raise x => x = SystemExit 1 /\ host_nacl_installed = false
                          end)
           | Raise x => x = SystemExit 1 /\ host_nacl_installed = false
           end)).
    { intros Hv. wp. eapply post_conseq; [apply (IH (<[name := false]> m) e)|].
      intros [res|x] l H; [|done]. destruct H as (m' & errs & -> & H).
      exists m', errs. split; [done|]. by apply prov_skip. }
    unfold secret_step. fold (skip_line name).
    destruct val as [val|]; [|by apply Hskip].
    destruct (PyStr.truthy val) eqn:Hvalue; [|by apply Hskip].
    clear Hskip. apply post_bind.
    eapply post_conseq; [apply create_or_update_secret_spec|].
    intros [[]|x] l1 (Hev & Hget & Hv).
    + wp. eapply post_conseq; [apply (IH (<[name := true]> m) e)|].
      intros [res|x] l H; [|done]. destruct H as (m' & errs & -> & H).
      exists m', errs. split; [done|]. cbn [app]. rewrite <- app_assoc.
      by apply prov_set.
    + wp. eapply post_conseq;
        [apply (IH (<[name := false]> m) (e ++ [failed_secret name])%list)|].
      intros [res|x] l H; [|done]. destruct H as (m' & errs & -> & H).
      exists m', (failed_secret name :: errs). split.
      * by rewrite <- app_assoc.
      * rewrite app_nil_r. by apply prov_fail.
    + by destruct Hv as (-> & ? & _).
Qed.
End Stages.

(** ** The loop over the secrets, as a relation *)

Section Provisioned.

Variables owner repo : string.

Lemma failed_secret_inj (a b : string) : failed_secret a = failed_secret b -> a = b.
Proof. unfold failed_secret. apply String.app_inj. Qed.

Lemma secret_put_event (name name' : string) (ev : event) :
  is_secret_put owner repo name ev -> secret_event owner repo name' ev -> name = name'.
Proof. intros (data & r & ->). cbn. apply secret_url_inj. Qed.

Lemma accepted_is_put (name : string) (ev : event) :
  is_accepted_put owner repo name ev -> is_secret_put owner repo name ev.
Proof. intros (data & resp & -> & _). by eexists _, _. Qed.

Lemma prov_dom secrets m m' errs l :
  provisioned owner repo secrets m m' errs l ->
  dom m' = dom m ∪ list_to_set (map fst secrets).
Proof.
  induction 1 as [m|name v rest m m' errs l Hv _ IH|name v rest m m' errs l1 l Hv _ _ IH
                  |name v rest m m' errs l1 l Hv _ _ IH]; cbn [map fst list_to_set].
  - by rewrite (right_id_L ∅ (∪)).
  - by rewrite IH, dom_insert_L, (comm_L (∪) {[name]}), (assoc_L (∪)).
  - by rewrite IH, dom_insert_L, (comm_L (∪) {[name]}), (assoc_L (∪)).
  - by rewrite IH, dom_insert_L, (comm_L (∪) {[name]}), (assoc_L (∪)).
Qed.

Lemma prov_frame secrets m m' errs l (k : string) :
  provisioned owner repo secrets m m' errs l ->
  k ∉ map fst secrets -> m' !! k = m !! k.
Proof.
  induction 1 as [m|name v rest m m' errs l Hv _ IH|name v rest m m' errs l1 l Hv _ _ IH
                  |name v rest m m' errs l1 l Hv _ _ IH]; cbn [map fst]; [done|..];
    intros [Hne Hk]%not_elem_of_cons; rewrite (IH Hk); by apply lookup_insert_ne.
Qed.

Lemma attempted_in_cons item secrets name :
  attempted_in secrets name -> attempted_in (item :: secrets) name.
Proof. intros (v & Hin & Hv). exists v. split; [by right | done]. Qed.

Lemma prov_errs secrets m m' errs l :
  provisioned owner repo secrets m m' errs l ->
  Forall (fun x => exists name, attempted_in secrets name /\ x = failed_secret name) errs.
Proof.
  induction 1 as [m|name v rest m m' errs l Hv _ IH|name v rest m m' errs l1 l Hv _ _ IH
                  |name v rest m m' errs l1 l Hv _ _ IH].
  - constructor.
  - eapply Forall_impl; [exact IH|]. intros x (n & Hn & ->). eauto using attempted_in_cons.
  - eapply Forall_impl; [exact IH|]. intros x (n & Hn & ->). eauto using attempted_in_cons.
  - constructor.
    + exists name. split; [|done]. exists v. split; [by left | done].
    + eapply Forall_impl; [exact IH|]. intros x (n & Hn & ->). eauto using attempted_in_cons.
Qed.

Lemma prov_events secrets m m' errs l :
  provisioned owner repo secrets m m' errs l ->
  Forall (fun ev => (exists line, ev = EvPrint line)
                    \/ exists name, attempted_in secrets name
                                    /\ secret_event owner repo name ev) l.
Proof.
  assert (Hweak : forall item rest l,
    Forall (fun ev => (exists line, ev = EvPrint line)
                      \/ exists name, attempted_in rest name
                                      /\ secret_event owner repo name ev) l ->
    Forall (fun ev => (exists line, ev = EvPrint line)
                      \/ exists name, attempted_in (item :: rest) name
                                      /\ secret_event owner repo name ev) l).
  { intros item rest l0 H. eapply Forall_impl; [exact H|].
    intros ev [?|(n & Hn & Hev)]; [by left|]. right. eauto using attempted_in_cons. }
  assert (Hhead : forall name v rest b l1,
    has_value (name, v) = true -> attempt_log owner repo name b l1 ->
    Forall (fun ev => (exists line, ev = EvPrint line)
                      \/ exists name', attempted_in ((name, v) :: rest) name'
                                       /\ secret_event owner repo name' ev) l1).
  { intros name v rest b l1 Hv (Hev & _). eapply Forall_impl; [exact Hev|].
    intros ev Hsec. right. exists name. split; [|done]. exists v. split; [by left|done]. }
  induction 1 as [m|name v rest m m' errs l Hv _ IH|name v rest m m' errs l1 l Hv Hl1 _ IH
                  |name v rest m m' errs l1 l Hv Hl1 _ IH].
  - constructor.
  - constructor; [left; by eexists | by apply Hweak].
  - apply Forall_app. split; [by eapply Hhead|].
    constructor; [left; by eexists | by apply Hweak].
  - apply Forall_app. split; [by eapply Hhead | by apply Hweak].
Qed.

Lemma filter_length_app {A : Type} (f : A -> bool) (l1 l2 : list A) :
  length (List.filter f (l1 ++ l2)) = (length (List.filter f l1) + length (List.filter f l2))%nat.
Proof. by rewrite List.filter_app, length_app. Qed.

(** Every secret with a value is attempted once, whatever the outcome of
    the others. *)
Lemma prov_count secrets m m' errs l :
  provisioned owner repo secrets m m' errs l ->
  length (List.filter (is_key_get owner repo) l) = length (List.filter has_value secrets).
Proof.
  induction 1 as [m|name v rest m m' errs l Hv _ IH|name v rest m m' errs l1 l Hv Hl1 _ IH
                  |name v rest m m' errs l1 l Hv Hl1 _ IH];
    cbn [List.filter]; rewrite ?Hv; [done|exact IH|..].
  - destruct Hl1 as (_ & Hone & _). rewrite filter_length_app, Hone. cbn. by rewrite IH.
  - destruct Hl1 as (_ & Hone & _). rewrite filter_length_app, Hone. cbn. by rewrite IH.
Qed.

(** A name that is not configured is left alone by the loop. *)
Lemma prov_absent secrets m m' errs l (name : string) :
  provisioned owner repo secrets m m' errs l ->
  (forall v, (name, v) ∈ secrets -> has_value (name, v) = false) ->
  (failed_secret name ∉ errs)
  /\ Forall (fun ev => ~ is_secret_put owner repo name ev) l.
Proof.
  intros Hprov Hnot. split.
  - intros Hin. pose proof (prov_errs _ _ _ _ _ Hprov) as Herrs.
    rewrite Forall_forall in Herrs. destruct (Herrs _ Hin) as (n & (v & Hv & Hval) & Heq).
    apply failed_secret_inj in Heq. subst n. rewrite (Hnot v Hv) in Hval. done.
  - pose proof (prov_events _ _ _ _ _ Hprov) as Hev.
    eapply Forall_impl; [exact Hev|]. intros ev [[line ->]|(n & (v & Hv & Hval) & Hsec)] Hput.
    + by destruct Hput as (? & ? & ?).
    + pose proof (secret_put_event _ _ _ Hput Hsec) as Heq. subst n.
      rewrite (Hnot v Hv) in Hval. done.
Qed.

Lemma NoDup_fst_unique (secrets : list (string * option string)) (name : string)
  (v v' : option string) :
  NoDup (map fst secrets) -> (name, v) ∈ secrets -> (name, v') ∈ secrets -> v = v'.
Proof.
  induction secrets as [|[k x] rest IH]; cbn [map fst]; [by intros _ ?%elem_of_nil|].
  intros Hnd H1 H2. apply NoDup_cons in Hnd as [Hk Hnd].
  apply elem_of_cons in H1 as [H1|H1]; apply elem_of_cons in H2 as [H2|H2].
  - congruence.
  - injection H1 as -> ->. destruct Hk. apply list_elem_of_fmap. by exists (k, v').
  - injection H2 as -> ->. destruct Hk. apply list_elem_of_fmap. by exists (k, v).
  - by apply IH.
Qed.

(** A configured secret without a value: recorded [False], no error, no
    request. *)
Lemma prov_skipped secrets m m' errs l (name : string) (v : option string) :
  provisioned owner repo secrets m m' errs l ->
  NoDup (map fst secrets) -> (name, v) ∈ secrets -> has_value (name, v) = false ->
  m' !! name = Some false
  /\ (failed_secret name ∉ errs)
  /\ Forall (fun ev => ~ is_secret_put owner repo name ev) l.
Proof.
  intros Hprov Hnd Hin Hv.
  assert (Hnot : forall v', (name, v') ∈ secrets -> has_value (name, v') = false).
  { intros v' Hin'. by rewrite <- (NoDup_fst_unique _ _ _ _ Hnd Hin Hin'). }
  split; [|by eapply prov_absent].
  clear Hnot. induction Hprov
    as [m|name0 v0 rest m m' errs l Hv0 Hrest IH|name0 v0 rest m m' errs l1 l Hv0 Hl1 Hrest IH
        |name0 v0 rest m m' errs l1 l Hv0 Hl1 Hrest IH];
    [by apply elem_of_nil in Hin|..];
    cbn [map fst] in Hnd; apply NoDup_cons in Hnd as [Hk Hnd];
    apply elem_of_cons in Hin as [Hin|Hin]; try (by apply IH);
    injection Hin as -> ->; try congruence.
  rewrite (prov_frame _ _ _ _ _ _ Hrest Hk). apply lookup_insert_eq.
Qed.

Lemma not_accepted_of_no_put (name : string) (l : list event) :
  Forall (fun ev => ~ is_secret_put owner repo name ev) l ->
  ~ Exists (is_accepted_put owner repo name) l.
Proof.
  intros Hall Hex. apply Exists_exists in Hex as (ev & Hin & Hacc).
  rewrite Forall_forall in Hall. by apply (Hall ev Hin), accepted_is_put.
Qed.

Lemma attempt_of_other (name0 name : string) (b : bool) (l1 : list event) :
  attempt_log owner repo name0 b l1 -> name0 <> name ->
  Forall (fun ev => ~ is_secret_put owner repo name ev) l1.
Proof.
  intros (Hev & _) Hne. eapply Forall_impl; [exact Hev|].
  intros ev Hsec Hput. by rewrite (secret_put_event _ _ _ Hput Hsec) in Hne.
Qed.

Lemma not_in_rest (rest : list (string * option string)) (name : string) :
  name ∉ map fst rest -> forall v, (name, v) ∈ rest -> has_value (name, v) = false.
Proof.
  intros Hk v Hin. destruct Hk. apply list_elem_of_fmap. by exists (name, v).
Qed.

(** A configured secret with a value: the flag recorded is [True]
    exactly when its upload was answered 201 or 204, and [False] exactly
    when its failure is among the errors. *)
Lemma prov_attempted secrets m m' errs l (name : string) (v : option string) :
  provisioned owner repo secrets m m' errs l ->
  NoDup (map fst secrets) -> (name, v) ∈ secrets -> has_value (name, v) = true ->
  exists b, m' !! name = Some b
            /\ (b = true <-> Exists (is_accepted_put owner repo name) l)
            /\ (b = false <-> failed_secret name ∈ errs).
Proof.
  intros Hprov Hnd Hin Hv.
  induction Hprov
    as [m|name0 v0 rest m m' errs l Hv0 Hrest IH|name0 v0 rest m m' errs l1 l Hv0 Hl1 Hrest IH
        |name0 v0 rest m m' errs l1 l Hv0 Hl1 Hrest IH];
    [by apply elem_of_nil in Hin|..];
    cbn [map fst] in Hnd; apply NoDup_cons in Hnd as [Hk Hnd];
    apply elem_of_cons in Hin as [Hin|Hin].
  - injection Hin as -> ->. congruence.
  - destruct (IH Hnd Hin) as (b & Hb & Hacc & Hfail). exists b. split; [done|].
    split; [|done]. rewrite Hacc, Exists_cons. split; [by right|].
    intros [H|H]; [by destruct H as (? & ? & ? & _) | done].
  - injection Hin as -> ->.
    destruct (prov_absent _ _ _ _ _ name0 Hrest (not_in_rest _ _ Hk)) as [Herr Hput].
    exists true. split; [|split].
    + rewrite (prov_frame _ _ _ _ _ _ Hrest Hk). apply lookup_insert_eq.
    + split; [intros _|done]. apply Exists_app. left. by apply Hl1.
    + split; [done|]. intros H. by destruct Herr.
  - assert (Hne : name0 <> name).
    { intros ->. destruct Hk. apply list_elem_of_fmap. by exists (name, v). }
    destruct (IH Hnd Hin) as (b & Hb & Hacc & Hfail). exists b. split; [done|].
    split; [|done]. rewrite Hacc, Exists_app, Exists_cons. split; [auto|].
    intros [H|[H|H]]; [|by destruct H as (? & ? & ? & _)|done].
    by destruct (not_accepted_of_no_put _ _ (attempt_of_other _ _ _ _ Hl1 Hne)).
  - injection Hin as -> ->.
    destruct (prov_absent _ _ _ _ _ name0 Hrest (not_in_rest _ _ Hk)) as [Herr Hput].
    exists false. split; [|split].
    + rewrite (prov_frame _ _ _ _ _ _ Hrest Hk). apply lookup_insert_eq.
    + split; [done|]. intros [H|H]%Exists_app.
      * destruct Hl1 as (_ & _ & Hacc). by apply Hacc in H.
      * by destruct (not_accepted_of_no_put _ _ Hput).
    + split; [intros _; by left | done].
  - assert (Hne : name0 <> name).
    { intros ->. destruct Hk. apply list_elem_of_fmap. by exists (name, v). }
    destruct (IH Hnd Hin) as (b & Hb & Hacc & Hfail). exists b. split; [done|].
    split.
    + rewrite Hacc, Exists_app. split; [auto|]. intros [H|H]; [|done].
      by destruct (not_accepted_of_no_put _ _ (attempt_of_other _ _ _ _ Hl1 Hne)).
    + rewrite Hfail, elem_of_cons. split; [auto|]. intros [H|H]; [|done].
      apply failed_secret_inj in H. congruence.
Qed.
End Provisioned.

(** ** One repository *)

Section Repository.

Context {W : Type} {host : Host W}.

Variables (token : string) (secrets : list (string * option string)).
Variables (repo_url workflows_source : string).

Lemma permission_stage_spec (owner repo : string) (st : status) (pushed : bool)
  (m : gmap string bool) (e : list string) :
  post (permission_stage owner repo (report repo_url st pushed m false e))
    (fun v l => exists permitted errs,
                  v = Ok (report repo_url st pushed m permitted (e ++ errs))
                  /\ permitted_with owner repo permitted errs l).
Proof.
  unfold permission_stage. wp.
  eapply post_conseq; [apply update_workflow_permissions_spec|].
  intros v l (Hev & Hput & [] & ->); wp.
  - exists true, []. split; [by rewrite app_nil_r|]. split; [|split; [|by left]].
    + constructor; [done|]. apply Forall_app. split; [done | by repeat constructor].
    + apply Exists_cons_tl, Exists_app. by left.
  - exists false, [failed_permissions]. split; [done|]. split; [|split; [|by right]].
    + constructor; [done|]. by rewrite app_nil_r.
    + apply Exists_cons_tl. by rewrite app_nil_r.
Qed.

Lemma stages_spec (owner repo : string) :
  post (stages token secrets repo_url workflows_source owner repo)
    (stages_run owner repo secrets repo_url host_nacl_installed).
Proof.
  unfold stages, with_tempdir. cbv zeta.
  apply post_bind, post_bind, post_call.
  2:{ intros msg. constructor. }
  intros temp_dir. apply post_try_finally.
  eapply post_conseq;
    [apply post_and; [apply post_emits, workflow_stage_local | apply workflow_stage_outcome]|].
  intros v lw (Hlocal & pushed & e1 & -> & Hpushed). apply post_call.
  2:{ intros msg. cbn [app]. by constructor. }
  intros []. apply post_bind, post_emit, post_bind.
  eapply post_conseq; [apply secrets_loop_spec|].
  intros [r2|x] ls Hloop.
  - destruct Hloop as (added & e2 & -> & Hloop).
    apply post_bind. eapply post_conseq; [apply permission_stage_spec|].
    intros v lp (permitted & e3 & -> & Hperm). apply post_ret.
    match goal with
    | |- stages_run _ _ _ _ _ (Ok ?r) _ =>
        change r with (close_result (report repo_url success pushed added permitted
                                       ((e1 ++ e2) ++ e3)))
    end.
    rewrite <- (app_assoc e1 e2 e3).
    match goal with
    | |- stages_run _ _ _ _ _ _ ?l =>
        replace l
          with (EvTempdir (Returned temp_dir) :: lw ++ EvCleanup temp_dir (Returned tt)
                :: EvPrint secrets_line :: ls ++ lp)%list
          by (cbn [app]; rewrite ?app_nil_r, <- ?app_assoc; reflexivity)
    end.
    by econstructor.
  - destruct Hloop as (-> & Hnacl).
    match goal with
    | |- stages_run _ _ _ _ _ _ ?l =>
        replace l
          with (EvTempdir (Returned temp_dir) :: lw ++ EvCleanup temp_dir (Returned tt)
                :: (EvPrint secrets_line :: ls))%list
          by (cbn [app]; rewrite ?app_nil_r, <- ?app_assoc; reflexivity)
    end.
    by constructor.
Qed.

(** What the outer handler of [process_repository] makes of the outcome
    of the stages. *)
Lemma process_repository_cases (w : W) :
  let r := process_repository token secrets repo_url workflows_source w in
  let start := EvPrint (processing_line repo_url) in
  match extract_repo_info repo_url with
  | Raise e => value r = Ok (error_result repo_url (str_exn e)) /\ log r = [start]
  | Ok (owner, repo) =>
      let answer := (host_get (repo_api_url owner repo) w).1 in
      let check := EvGet (repo_api_url owner repo) answer in
      match answer with
      | Failed msg => value r = Ok (error_result repo_url msg) /\ log r = [start; check]
      | Returned resp =>
          if status_code resp =? 200 then
            exists v l,
              stages_run owner repo secrets repo_url host_nacl_installed v l
              /\ log r = start :: check :: l
              /\ value r = handled repo_url v
          else
            value r = Ok (error_result repo_url not_accessible) /\ log r = [start; check]
      end
  end.
Proof.
  cbv zeta. set (start := EvPrint (processing_line repo_url)).
  pose proof (extract_repo_info_no_exit repo_url) as Hinfo.
  destruct (extract_repo_info repo_url) as [[owner repo]|e] eqn:Einfo.
  2:{ assert (He : is_Exception e = true) by (destruct e; try done; by destruct (Hinfo code)).
      assert (process_repository token secrets repo_url workflows_source w
              = Ran (Ok (error_result repo_url (str_exn e))) w [start]) as ->; [|done].
      unfold process_repository. eapply (bind_ran _ _ _ _ _ _ _ [start]); [reflexivity|].
      eapply (try_except_ran_caught _ _ _ _ _ _ _ _ [] []);
        [ eapply bind_ran_raise; unfold lift; by rewrite Einfo
        | unfold except_Exception; by rewrite He
        | reflexivity ]. }
  destruct (host_get (repo_api_url owner repo) w) as [answer w1] eqn:Eget. cbn [fst].
  set (check := EvGet (repo_api_url owner repo) answer).
  assert (Hcheck : check_repo_exists owner repo w
                   = Ran (match answer with
                          | Returned resp => Ok (status_code resp =? 200)
                          | Failed msg => Raise (LibraryError msg)
                          end) w1 [check]).
  { unfold check_repo_exists, session_get. fold (repo_api_url owner repo).
    unfold bind. rewrite call_unfold, Eget. cbn [fst snd value after log].
    by destruct answer. }
  destruct answer as [resp|msg].
  2:{ assert (process_repository token secrets repo_url workflows_source w
              = Ran (Ok (error_result repo_url msg)) w1 [start; check]) as ->; [|done].
      unfold process_repository. eapply (bind_ran _ _ _ _ _ _ _ [start]); [reflexivity|].
      eapply (try_except_ran_caught _ _ _ _ _ _ _ _ [check] []);
        [ eapply (bind_ran _ _ _ _ _ _ _ []); [unfold lift; by rewrite Einfo|];
          eapply bind_ran_raise; exact Hcheck
        | reflexivity | reflexivity ]. }
  destruct (status_code resp =? 200) eqn:Hst.
  2:{ assert (process_repository token secrets repo_url workflows_source w
              = Ran (Ok (error_result repo_url not_accessible)) w1 [start; check]) as ->;
        [|done].
      unfold process_repository. eapply (bind_ran _ _ _ _ _ _ _ [start]); [reflexivity|].
      eapply (try_except_ran_ok _ _ _ _ _ [check]).
      eapply (bind_ran _ _ _ _ _ _ _ []); [unfold lift; by rewrite Einfo|].
      eapply (bind_ran _ _ _ _ _ _ _ [check] []); [exact Hcheck|]. reflexivity. }
  pose proof (stages_spec owner repo w1) as Hstages.
  destruct (stages token secrets repo_url workflows_source owner repo w1) as [v w2 l] eqn:Est.
  cbn [value log] in Hstages. exists v, l. split; [done|].
  assert (Hbody : bind (lift (extract_repo_info repo_url))
                    (fun info => let '(owner, repo) := info in
                       bind (check_repo_exists owner repo)
                         (fun reachable =>
                            if negb reachable then ret (error_result repo_url not_accessible)
                            else stages token secrets repo_url workflows_source owner repo)) w
                  = Ran v w2 (check :: l)).
  { eapply (bind_ran _ _ _ _ _ _ _ []); [unfold lift; by rewrite Einfo|].
    eapply (bind_ran _ _ _ _ _ _ _ [check]); [exact Hcheck|]. exact Est. }
  destruct v as [res|e].
  - assert (process_repository token secrets repo_url workflows_source w
            = Ran (Ok res) w2 (start :: check :: l)) as ->; [|done].
    unfold process_repository. eapply (bind_ran _ _ _ _ _ _ _ [start]); [reflexivity|].
    eapply try_except_ran_ok. exact Hbody.
  - unfold handled. destruct (is_Exception e) eqn:He.
    + assert (process_repository token secrets repo_url workflows_source w
              = Ran (Ok (error_result repo_url (str_exn e))) w2 (start :: check :: l)) as ->;
        [|done].
      unfold process_repository. eapply (bind_ran _ _ _ _ _ _ _ [start]); [reflexivity|].
      replace (check :: l) with ((check :: l) ++ [])%list by apply app_nil_r.
      eapply try_except_ran_caught;
        [exact Hbody | unfold except_Exception; by rewrite He | reflexivity].
    + assert (process_repository token secrets repo_url workflows_source w
              = Ran (Raise e) w2 (start :: check :: l)) as ->; [|done].
      unfold process_repository. eapply (bind_ran _ _ _ _ _ _ _ [start]); [reflexivity|].
      eapply try_except_ran_passed; [exact Hbody|].
      unfold except_Exception. by rewrite He.
Qed.

Lemma process_repository_unreachable (w : W) :
  reachable repo_url w = false ->
  exists msg,
    value (process_repository token secrets repo_url workflows_source w)
    = Ok (error_result repo_url msg)
    /\ (log (process_repository token secrets repo_url workflows_source w)
        = [EvPrint (processing_line repo_url)]
        \/ exists owner repo answer,
             log (process_repository token secrets repo_url workflows_source w)
             = [EvPrint (processing_line repo_url);
                EvGet (repo_api_url owner repo) answer]).
Proof.
  intros Hreach. pose proof (process_repository_cases w) as H. cbv zeta in H.
  unfold reachable in Hreach.
  destruct (extract_repo_info repo_url) as [[owner repo]|e].
  - destruct (host_get (repo_api_url owner repo) w).1 as [resp|msg] eqn:Eans.
    + rewrite Hreach in H. destruct H as [Hv Hl]. eexists. split; [exact Hv|].
      right. by eexists _, _, _.
    + destruct H as [Hv Hl]. eexists. split; [exact Hv|]. right. by eexists _, _, _.
  - destruct H as [Hv Hl]. eexists. split; [exact Hv|]. by left.
Qed.

Lemma process_repository_reachable (w : W) :
  reachable repo_url w = true ->
  exists owner repo answer v l,
    extract_repo_info repo_url = Ok (owner, repo)
    /\ stages_run owner repo secrets repo_url host_nacl_installed v l
    /\ log (process_repository token secrets repo_url workflows_source w)
       = EvPrint (processing_line repo_url) :: EvGet (repo_api_url owner repo) answer :: l
    /\ value (process_repository token secrets repo_url workflows_source w)
       = handled repo_url v.
Proof.
  intros Hreach. pose proof (process_repository_cases w) as H. cbv zeta in H.
  unfold reachable in Hreach.
  destruct (extract_repo_info repo_url) as [[owner repo]|e]; [|done].
  destruct (host_get (repo_api_url owner repo) w).1 as [resp|msg] eqn:Eans; [|done].
  rewrite Hreach in H. destruct H as (v & l & Hrun & Hl & Hv).
  by exists owner, repo, (Returned resp), v, l.
Qed.

End Repository.

(** ** The result of one repository *)

Section Results.

Context {W : Type} {host : Host W}.

Variables (token : string) (secrets : list (string * option string)).
Variables (repo_url workflows_source : string).

Local Abbreviation run := (process_repository token secrets repo_url workflows_source).

Lemma close_report (st_pushed : bool) (added : gmap string bool) (permitted : bool)
  (errs : list string) :
  close_result (report repo_url success st_pushed added permitted errs)
  = report repo_url (match errs with [] => success | _ => partial end)
      st_pushed added permitted errs.
Proof. by destruct errs. Qed.

Lemma local_not_scratch (ev : event) : is_local ev = true -> is_scratch_failure ev = false.
Proof. by destruct ev. Qed.

Lemma secret_event_not_scratch (owner repo name : string) (ev : event) :
  secret_event owner repo name ev -> is_scratch_failure ev = false.
Proof. by destruct ev. Qed.

Lemma permission_event_not_scratch (owner repo : string) (ev : event) :
  permission_event owner repo ev -> is_scratch_failure ev = false.
Proof. by destruct ev. Qed.

Lemma complete_run_no_scratch_failure owner repo answer res l :
  complete_run owner repo secrets repo_url answer res l ->
  Forall (fun ev => is_scratch_failure ev = false) l.
Proof.
  intros [temp_dir lw ls lp pushed e1 added e2 permitted e3 -> _ Hlw _ Hls Hlp].
  do 3 (constructor; [done|]). apply Forall_app. split.
  { eapply Forall_impl; [exact Hlw | apply local_not_scratch]. }
  do 2 (constructor; [done|]). apply Forall_app. split.
  - eapply Forall_impl; [exact (prov_events _ _ _ _ _ _ _ Hls)|].
    intros ev [[line ->]|(name & _ & Hev)]; [done | by eapply secret_event_not_scratch].
  - destruct Hlp as (Hlp & _). eapply Forall_impl; [exact Hlp|].
    apply permission_event_not_scratch.
Qed.

(** A result that is returned is an error result, for an unreachable
    repository or a failing scratch directory, or the result of a run of
    all three stages. *)
Lemma process_repository_result (w : W) (res : ProcessingResult) :
  value (run w) = Ok res ->
  (exists msg, res = error_result repo_url msg
               /\ (reachable repo_url w = false
                   \/ Exists (fun ev => is_scratch_failure ev = true) (log (run w))))
  \/ (exists owner repo answer,
        extract_repo_info repo_url = Ok (owner, repo)
        /\ reachable repo_url w = true
        /\ complete_run owner repo secrets repo_url answer res (log (run w))).
Proof.
  intros Hres. destruct (reachable repo_url w) eqn:Hreach.
  - destruct (process_repository_reachable token secrets repo_url workflows_source w Hreach)
      as (owner & repo & answer & v & l & Hinfo & Hrun & Hl & Hv).
    rewrite Hv in Hres. rewrite Hl.
    destruct Hrun as [msg|temp_dir lw msg Hlw|temp_dir lw l' Hlw Hnacl
                      |temp_dir lw ls lp pushed e1 added e2 permitted e3 Hlw Hp Hs Hperm];
      cbn in Hres; simplify_eq.
    + left. eexists. split; [done|]. right. do 2 apply Exists_cons_tl. by apply Exists_cons_hd.
    + left. eexists. split; [done|]. right. do 3 apply Exists_cons_tl.
      apply Exists_app. right. by apply Exists_cons_hd.
    + right. exists owner, repo, answer. split; [done|]. split; [done|]. by econstructor.
  - destruct (process_repository_unreachable token secrets repo_url workflows_source w Hreach)
      as (msg & Hv & _).
    rewrite Hv in Hres. simplify_eq. left. eexists. split; [done | by left].
Qed.

Lemma not_scratch_failed (l : list event) :
  Forall (fun ev => is_scratch_failure ev = false) l -> ~ scratch_failed l.
Proof.
  intros Hall Hex. apply Exists_exists in Hex as (ev & Hin & Hev).
  rewrite Forall_forall in Hall. specialize (Hall ev Hin). congruence.
Qed.

Lemma pushed_with_false (pushed : bool) (errs : list string) :
  pushed_with pushed errs -> (pushed = false <-> errs <> []).
Proof.
  intros [[-> ->]|[-> [->|[e ->]]]]; split; done.
Qed.

Lemma permitted_with_false owner repo (permitted : bool) (errs : list string) l :
  permitted_with owner repo permitted errs l -> (permitted = false <-> errs <> []).
Proof.
  intros (_ & _ & [[-> ->]|[-> ->]]); split; done.
Qed.

Lemma prov_failed owner repo m m' errs l :
  provisioned owner repo secrets m m' errs l ->
  NoDup (map fst secrets) ->
  errs <> [] <-> exists name, attempted_in secrets name /\ m' !! name = Some false.
Proof.
  intros Hprov Hnd. split.
  - destruct errs as [|x errs]; [done|]. intros _.
    pose proof (prov_errs _ _ _ _ _ _ _ Hprov) as Herrs.
    apply Forall_cons in Herrs as [(name & Hatt & ->) _].
    exists name. split; [done|]. destruct Hatt as (v & Hin & Hv).
    destruct (prov_attempted _ _ _ _ _ _ _ _ v Hprov Hnd Hin Hv) as (b & Hb & _ & Hfalse).
    rewrite Hb. f_equal. apply Hfalse. by left.
  - intros (name & (v & Hin & Hv) & Hname).
    destruct (prov_attempted _ _ _ _ _ _ _ _ v Hprov Hnd Hin Hv) as (b & Hb & _ & Hfalse).
    rewrite Hb in Hname. injection Hname as ->.
    intros ->. destruct Hfalse as [Hfalse _]. specialize (Hfalse eq_refl).
    by apply elem_of_nil in Hfalse.
Qed.


Lemma has_errors_report st pushed added permitted (errs : list string) :
  has_errors (close_result (report repo_url st pushed added permitted errs)) = true
  <-> errs <> [].
Proof. by destruct errs. Qed.

(** C1 (amended).  For a repository whose processing returns a result:
    the status is [error] exactly when the repository is not reachable
    (the locator rejects the URL, the existence check raises or is not
    answered 200) or the scratch directory could not be created or
    removed; it is [success] exactly when the repository is reachable,
    the scratch directory caused no failure and the recorded errors list
    is empty; it is [partial] exactly when the repository is reachable,
    the scratch directory caused no failure and the errors list is not
    empty; and the errors list is not empty exactly when the workflow
    push failed, an attempted secret was recorded [False] or the
    permission update failed.  The configured names are those of a
    dictionary: no name occurs twice. *)
Theorem process_repository_status (w : W) (res : ProcessingResult) :
  NoDup (map fst secrets) ->
  value (run w) = Ok res ->
  (status_of res = error
   <-> reachable repo_url w = false \/ scratch_failed (log (run w)))
  /\ (status_of res = success
      <-> reachable repo_url w = true /\ ~ scratch_failed (log (run w))
          /\ errors res = Some [])
  /\ (status_of res = partial
      <-> reachable repo_url w = true /\ ~ scratch_failed (log (run w))
          /\ has_errors res = true)
  /\ (has_errors res = true
      <-> workflows_pushed res = Some false
          \/ (exists name m, attempted_in secrets name
                             /\ secrets_added res = Some m /\ m !! name = Some false)
          \/ permissions_updated res = Some false).
Proof.
  intros Hnd Hres.
  destruct (process_repository_result w res Hres)
    as [(msg & -> & Hwhy)|(owner & repo & answer & Hinfo & Hreach & Hrun)].
  - cbn. split; [done|]. split; [split; [done | by intros (_ & _ & ?)]|].
    split; [split; [done | by intros (_ & _ & ?)]|].
    split; [done|]. intros [?|[(name & m & _ & ? & _)|?]]; done.
  - assert (Hscratch : ~ scratch_failed (log (run w)))
      by (eapply not_scratch_failed, complete_run_no_scratch_failure; exact Hrun).
    destruct Hrun as [temp_dir lw ls lp pushed e1 added e2 permitted e3 _ -> _ Hp Hs Hperm].
    rewrite Hreach.
    pose proof (pushed_with_false _ _ Hp) as H1.
    pose proof (prov_failed _ _ _ _ _ _ Hs Hnd) as H2.
    pose proof (permitted_with_false _ _ _ _ _ Hperm) as H3.
    rewrite has_errors_report, close_report.
    assert (Herrs : (e1 ++ e2 ++ e3)%list <> [] <-> e1 <> [] \/ e2 <> [] \/ e3 <> []).
    { destruct e1, e2, e3; cbn; intuition congruence. }
    split; [|split; [|split]].
    + split; [by destruct (e1 ++ e2 ++ e3)%list | by intros [?|?]].
    + split.
      * destruct (e1 ++ e2 ++ e3)%list; [done|]. cbn. discriminate.
      * intros (_ & _ & Hnil). cbn in Hnil. by injection Hnil as ->.
    + split.
      * destruct (e1 ++ e2 ++ e3)%list; [done|]. done.
      * intros (_ & _ & Hne). by destruct (e1 ++ e2 ++ e3)%list.
    + rewrite Herrs. cbn. split.
      * intros [He|[He|He]].
        -- left. f_equal. by apply H1.
        -- right; left. apply H2 in He as (name & Hatt & Hname). by exists name, added.
        -- right; right. f_equal. by apply H3.
      * intros [[= ->]|[(name & m & Hatt & [= <-] & Hname)|[= ->]]].
        -- left. by apply H1.
        -- right; left. apply H2. by exists name.
        -- right; right. by apply H3.
Qed.

(** C10.  Whenever [process_repository] returns a result other than an
    error result, the key set of its [secrets_added] mapping is the set
    of the configured secret names, skipped ones included. *)
Theorem secrets_added_keys (w : W) (res : ProcessingResult) :
  value (run w) = Ok res ->
  status_of res <> error ->
  exists m : gmap string bool,
    secrets_added res = Some m
    /\ dom m = (list_to_set (map fst secrets) : gset string).
Proof.
  intros Hres Hst.
  destruct (process_repository_result w res Hres)
    as [(msg & -> & _)|(owner & repo & answer & _ & _ & Hrun)]; [done|].
  destruct Hrun as [temp_dir lw ls lp pushed e1 added e2 permitted e3 _ -> _ _ Hs _].
  exists added. split; [by rewrite close_report|].
  rewrite (prov_dom _ _ _ _ _ _ _ Hs), dom_empty_L. apply (left_id_L ∅ (∪)).
Qed.


Lemma permissions_not_secret (owner repo name : string) :
  permissions_url owner repo <> secret_url owner repo name.
Proof.
  unfold permissions_url, secret_url. intros H.
  do 5 (apply String.app_inj in H). rewrite !app_cons in H. discriminate.
Qed.

Lemma api_not_key (owner repo : string) :
  String.eqb (repo_api_url owner repo) (public_key_url owner repo) = false.
Proof.
  apply String.eqb_neq. unfold repo_api_url, public_key_url. intros H.
  do 4 (apply String.app_inj in H). apply (f_equal String.length) in H.
  rewrite str_length_app in H. cbn in H. lia.
Qed.

Lemma failed_secret_not_push (name : string) (errs : list string) (pushed : bool) :
  pushed_with pushed errs -> failed_secret name ∉ errs.
Proof.
  unfold failed_secret, failed_push, failed_workflows.
  intros [[_ ->]|[_ [->|[e ->]]]] Hin.
  - by apply elem_of_nil in Hin.
  - apply list_elem_of_singleton in Hin. rewrite !app_cons in Hin. discriminate.
  - apply list_elem_of_singleton in Hin. rewrite !app_cons in Hin. discriminate.
Qed.

Lemma failed_secret_not_permissions (owner repo name : string) (errs : list string)
  (permitted : bool) (l : list event) :
  permitted_with owner repo permitted errs l -> failed_secret name ∉ errs.
Proof.
  unfold failed_secret, failed_permissions.
  intros (_ & _ & [[_ ->]|[_ ->]]) Hin.
  - by apply elem_of_nil in Hin.
  - apply list_elem_of_singleton in Hin. rewrite !app_cons in Hin. discriminate.
Qed.

Lemma local_not_put (ev : event) (url : string) data r :
  is_local ev = true -> ev <> EvPut url data r.
Proof. by destruct ev. Qed.

Lemma filter_key_get_nil (owner repo : string) (l : list event) :
  Forall (fun ev => is_key_get owner repo ev = false) l ->
  List.filter (is_key_get owner repo) l = [].
Proof.
  induction 1 as [|ev l Hev _ IH]; [done|]. cbn. by rewrite Hev.
Qed.

(** The requests of a complete run, by stage. *)
Lemma complete_run_key_gets owner repo answer res l :
  complete_run owner repo secrets repo_url answer res l ->
  length (List.filter (is_key_get owner repo) l) = length (List.filter has_value secrets).
Proof.
  intros [temp_dir lw ls lp pushed e1 added e2 permitted e3 -> _ Hlw _ Hls (Hlp & _)].
  cbn [List.filter is_key_get]. rewrite api_not_key.
  rewrite List.filter_app. cbn [List.filter is_key_get]. rewrite List.filter_app.
  rewrite (filter_key_get_nil owner repo lw), (filter_key_get_nil owner repo lp).
  - rewrite app_nil_r. cbn [app]. eapply prov_count, Hls.
  - eapply Forall_impl; [exact Hlp|]. by intros [].
  - eapply Forall_impl; [exact Hlw|]. by intros [].
Qed.

Lemma complete_run_secret_puts owner repo answer temp_dir lw ls lp name
  (P : event -> Prop) :
  (forall ev, P ev -> is_secret_put owner repo name ev) ->
  Forall (fun ev => is_local ev = true) lw ->
  Forall (permission_event owner repo) lp ->
  Exists P (EvPrint (processing_line repo_url) :: EvGet (repo_api_url owner repo) answer
            :: EvTempdir (Returned temp_dir) :: lw ++ EvCleanup temp_dir (Returned tt)
            :: EvPrint secrets_line :: ls ++ lp)
  <-> Exists P ls.
Proof.
  intros HP Hlw Hlp. rewrite !Exists_cons, Exists_app, !Exists_cons, Exists_app.
  split; [|tauto].
  assert (Hno : forall ev, P ev -> forall url data r, ev = EvPut url data r ->
                           url = secret_url owner repo name).
  { intros ev Hev url data r ->. by destruct (HP _ Hev) as (? & ? & [= ->]). }
  assert (Hnot : forall ev, P ev -> (forall url data r, ev <> EvPut url data r) -> False).
  { intros ev Hev Hne. destruct (HP _ Hev) as (? & ? & ->). by eapply Hne. }
  intros [H|[H|[H|[H|[H|[H|[H|H]]]]]]]; try done; try (by destruct (Hnot _ H)).
  - apply Exists_exists in H as (ev & Hin & Hev). rewrite Forall_forall in Hlw.
    destruct (Hnot _ Hev). intros url data r. apply local_not_put. by apply Hlw.
  - apply Exists_exists in H as (ev & Hin & Hev). rewrite Forall_forall in Hlp.
    specialize (Hlp _ Hin). destruct (HP _ Hev) as (data & r & ->). cbn in Hlp.
    by destruct (permissions_not_secret owner repo name).
Qed.


Lemma complete_run_permissions owner repo answer res l :
  complete_run owner repo secrets repo_url answer res l ->
  Exists (is_permissions_put owner repo) l.
Proof.
  intros [temp_dir lw ls lp pushed e1 added e2 permitted e3 -> _ _ _ _ (_ & Hput & _)].
  do 3 apply Exists_cons_tl. apply Exists_app. right.
  do 2 apply Exists_cons_tl. apply Exists_app. by right.
Qed.

(** C2 (amended).  When a repository is unreachable no stage is
    attempted for it: the result is an error result and the run consists
    of the processing line and, when the locator accepted the URL, the
    existence check.  It is a failed workflow push of a reachable
    repository that leaves the later stages in place: whenever the result
    records [workflows_pushed = False], the public key was asked for once
    per secret that has a value and the permission update was sent. *)
Theorem unreachable_attempts_nothing (w : W) :
  (reachable repo_url w = false ->
   exists msg,
     value (run w) = Ok (error_result repo_url msg)
     /\ (log (run w) = [EvPrint (processing_line repo_url)]
         \/ exists owner repo answer,
              log (run w) = [EvPrint (processing_line repo_url);
                             EvGet (repo_api_url owner repo) answer]))
  /\ (forall res,
        value (run w) = Ok res ->
        workflows_pushed res = Some false ->
        exists owner repo,
          extract_repo_info repo_url = Ok (owner, repo)
          /\ length (List.filter (is_key_get owner repo) (log (run w)))
             = length (List.filter has_value secrets)
          /\ Exists (is_permissions_put owner repo) (log (run w))).
Proof.
  split; [apply process_repository_unreachable|].
  intros res Hres Hpushed.
  destruct (process_repository_result w res Hres)
    as [(msg & -> & _)|(owner & repo & answer & Hinfo & _ & Hrun)]; [done|].
  exists owner, repo. split; [done|]. split.
  - eapply complete_run_key_gets, Hrun.
  - eapply complete_run_permissions, Hrun.
Qed.

(** C6 (amended).  With the sealing library installed a run of
    [process_repository] always returns.  In every run that returns a
    result other than an error result, each secret that has a value is
    recorded [True] exactly when its upload was answered 201 or 204, and
    is recorded [False] exactly when its failure is in the errors list;
    every such secret was attempted (the public key was asked for once
    per secret with a value) and the permission update was sent after
    them. *)
Theorem secret_outcomes (w : W) :
  (host_nacl_installed = true -> exists res, value (run w) = Ok res)
  /\ (forall res,
        NoDup (map fst secrets) ->
        value (run w) = Ok res ->
        status_of res <> error ->
        exists owner repo m errs,
          extract_repo_info repo_url = Ok (owner, repo)
          /\ secrets_added res = Some m
          /\ errors res = Some errs
          /\ (forall name,
                attempted_in secrets name ->
                exists b, m !! name = Some b
                          /\ (b = true
                              <-> Exists (is_accepted_put owner repo name) (log (run w)))
                          /\ (b = false <-> failed_secret name ∈ errs))
          /\ length (List.filter (is_key_get owner repo) (log (run w)))
             = length (List.filter has_value secrets)
          /\ Exists (is_permissions_put owner repo) (log (run w))).
Proof.
  split.
  - intros Hnacl. destruct (reachable repo_url w) eqn:Hreach.
    + destruct (process_repository_reachable token secrets repo_url workflows_source w Hreach)
        as (owner & repo & answer & v & l & _ & Hrun & _ & ->).
      destruct Hrun; cbn; eauto. congruence.
    + destruct (process_repository_unreachable token secrets repo_url workflows_source w Hreach)
        as (msg & -> & _). eauto.
  - intros res Hnd Hres Hst.
    destruct (process_repository_result w res Hres)
      as [(msg & -> & _)|(owner & repo & answer & Hinfo & _ & Hrun)]; [done|].
    pose proof (complete_run_key_gets _ _ _ _ _ Hrun) as Hkeys.
    pose proof (complete_run_permissions _ _ _ _ _ Hrun) as Hperm.
    destruct Hrun as [temp_dir lw ls lp pushed e1 added e2 permitted e3 Hl -> Hlw Hp Hs Hlp].
    exists owner, repo, added, (e1 ++ e2 ++ e3)%list.
    split; [done|]. split; [by rewrite close_report|]. split; [by rewrite close_report|].
    split; [|done]. intros name (v & Hin & Hv).
    destruct (prov_attempted _ _ _ _ _ _ _ _ v Hs Hnd Hin Hv) as (b & Hb & Htrue & Hfalse).
    exists b. split; [done|]. split.
    + rewrite Htrue, Hl. symmetry.
      apply (complete_run_secret_puts owner repo answer temp_dir lw ls lp name);
        [apply accepted_is_put | done | by destruct Hlp].
    + rewrite Hfalse, !elem_of_app. split; [tauto|].
      intros [H|[H|H]]; [|done|].
      * by destruct (failed_secret_not_push name _ _ Hp).
      * by destruct (failed_secret_not_permissions _ _ name _ _ _ Hlp).
Qed.

(** A secret without a value costs one printed line: no request, the
    flag [False], and the errors list as it was. *)
Lemma secret_step_skip (owner repo name : string) (v : option string)
  (result : ProcessingResult) (w : W) :
  has_value (name, v) = false ->
  secret_step owner repo (name, v) result w
  = Ran (Ok (set_secret name false result)) w [EvPrint (skip_line name)].
Proof.
  unfold has_value, secret_step. cbn [snd].
  destruct v as [value|]; cbn [PyStr.truthy_opt]; [|done]. by intros ->.
Qed.

(** C7.  For a configured secret whose value is empty or absent, the
    step of the loop makes no API call: it prints the skip line, records
    [False] for the name and leaves the errors list as it is.  So, in
    every run that returns a result other than an error result, the
    secret is recorded [False] in [secrets_added], has no entry in the
    errors list, and no upload was sent for it; the public key was asked
    for only once per secret that has a value. *)
Theorem skipped_secret (w : W) (name : string) (v : option string) :
  NoDup (map fst secrets) ->
  (name, v) ∈ secrets ->
  has_value (name, v) = false ->
  (forall owner repo result w',
     secret_step owner repo (name, v) result w'
     = Ran (Ok (set_secret name false result)) w' [EvPrint (skip_line name)]
     /\ errors (set_secret name false result) = errors result)
  /\ (forall res,
        value (run w) = Ok res ->
        status_of res <> error ->
        exists owner repo m errs,
          extract_repo_info repo_url = Ok (owner, repo)
          /\ secrets_added res = Some m
          /\ m !! name = Some false
          /\ errors res = Some errs
          /\ (failed_secret name ∉ errs)
          /\ Forall (fun ev => ~ is_secret_put owner repo name ev) (log (run w))
          /\ length (List.filter (is_key_get owner repo) (log (run w)))
             = length (List.filter has_value secrets)).
Proof.
  intros Hnd Hin Hv. split.
  { intros owner repo result w'. split; [by apply secret_step_skip | done]. }
  intros res Hres Hst.
  destruct (process_repository_result w res Hres)
    as [(msg & -> & _)|(owner & repo & answer & Hinfo & _ & Hrun)]; [done|].
  pose proof (complete_run_key_gets _ _ _ _ _ Hrun) as Hkeys.
  destruct Hrun as [temp_dir lw ls lp pushed e1 added e2 permitted e3 Hl -> Hlw Hp Hs Hlp].
  destruct (prov_skipped _ _ _ _ _ _ _ _ v Hs Hnd Hin Hv) as (Hname & Herr & Hput).
  exists owner, repo, added, (e1 ++ e2 ++ e3)%list.
  split; [done|]. split; [by rewrite close_report|]. split; [done|].
  split; [by rewrite close_report|]. split; [|split; [|done]].
  - rewrite !elem_of_app. intros [H|[H|H]]; [|done|].
    + by destruct (failed_secret_not_push name _ _ Hp).
    + by destruct (failed_secret_not_permissions _ _ name _ _ _ Hlp).
  - apply Forall_forall. intros ev Hev Hsecret.
    assert (Hex : Exists (is_secret_put owner repo name) (log (run w)))
      by (apply Exists_exists; eauto).
    rewrite Hl in Hex.
    apply (complete_run_secret_puts owner repo answer temp_dir lw ls lp name) in Hex;
      [|done|done|by destruct Hlp].
    apply Exists_exists in Hex as (ev' & Hin' & Hev'). rewrite Forall_forall in Hput.
    by apply (Hput ev').
Qed.

(** C9 (amended).  [process_repository] returns a result, or ends the
    process with [SystemExit(1)], which happens only when the sealing
    library is not installed.  An exception of the locator, of the
    existence check, or of the creation or removal of the scratch
    directory yields an error result carrying the message of the
    exception. *)
Theorem process_repository_outcome (w : W) :
  ((exists res, value (run w) = Ok res)
   \/ (host_nacl_installed = false /\ value (run w) = Raise (SystemExit 1)))
  /\ (forall e,
        extract_repo_info repo_url = Raise e ->
        value (run w) = Ok (error_result repo_url (str_exn e)))
  /\ (forall owner repo msg,
        extract_repo_info repo_url = Ok (owner, repo) ->
        (host_get (repo_api_url owner repo) w).1 = Failed msg ->
        value (run w) = Ok (error_result repo_url msg))
  /\ (forall res msg,
        value (run w) = Ok res ->
        EvTempdir (Failed msg) ∈ log (run w)
        \/ (exists temp_dir, EvCleanup temp_dir (Failed msg) ∈ log (run w)) ->
        res = error_result repo_url msg).
Proof.
  pose proof (process_repository_cases token secrets repo_url workflows_source w) as H.
  cbv zeta in H. split; [|split; [|split]].
  - destruct (extract_repo_info repo_url) as [[owner repo]|e]; [|left; by eexists; apply H].
    destruct (host_get (repo_api_url owner repo) w).1 as [resp|msg];
      [|left; by eexists; apply H].
    destruct (status_code resp =? 200); [|left; by eexists; apply H].
    destruct H as (v & l & Hrun & _ & ->).
    destruct Hrun; cbn; eauto.
  - intros e He. rewrite He in H. apply H.
  - intros owner repo msg Hinfo Hget. rewrite Hinfo, Hget in H. apply H.
  - intros res msg Hres Hin.
    assert (Hshort : forall ev ev' : event,
              is_scratch_failure ev = false -> is_scratch_failure ev' = false ->
              log (run w) = [ev; ev'] -> False).
    { intros ev ev' Hev Hev' Hl. rewrite Hl in Hin.
      destruct Hin as [Hin|[d Hin]].
      all: apply elem_of_cons in Hin as [<-|Hin]; [done|].
      all: apply list_elem_of_singleton in Hin as <-; done. }
    destruct (extract_repo_info repo_url) as [[owner repo]|e].
    2:{ destruct H as [_ Hl]. rewrite Hl in Hin.
        destruct Hin as [Hin|[d Hin]]; apply list_elem_of_singleton in Hin; done. }
    destruct (host_get (repo_api_url owner repo) w).1 as [resp|msg0].
    2:{ destruct H as [_ Hl]. exfalso. by eapply Hshort; [| |exact Hl]. }
    destruct (status_code resp =? 200).
    2:{ destruct H as [_ Hl]. exfalso. by eapply Hshort; [| |exact Hl]. }
    destruct H as (v & l & Hrun & Hl & Hv). rewrite Hv in Hres. rewrite Hl in Hin.
    assert (Hin' : EvTempdir (Failed msg) ∈ l \/ exists d, EvCleanup d (Failed msg) ∈ l).
    { destruct Hin as [Hin|[d Hin]]; [left | right; exists d].
      all: apply elem_of_cons in Hin as [?|Hin]; [done|].
      all: apply elem_of_cons in Hin as [?|Hin]; done. }
    clear Hin Hl Hv.
    destruct Hrun as [msg'|temp_dir lw msg' Hlw|temp_dir lw l' Hlw Hnacl
                      |temp_dir lw ls lp pushed e1 added e2 permitted e3 Hlw Hp Hs Hperm];
      cbn in Hres; [| |done|].
    + injection Hres as <-. f_equal.
      destruct Hin' as [Hin|[d Hin]]; apply list_elem_of_singleton in Hin; congruence.
    + injection Hres as <-. f_equal. rewrite Forall_forall in Hlw.
      destruct Hin' as [Hin|[d Hin]].
      all: apply elem_of_cons in Hin as [?|Hin]; [done|].
      all: apply elem_of_app in Hin as [Hin|Hin]; [by specialize (Hlw _ Hin)|].
      all: apply list_elem_of_singleton in Hin; congruence.
    + assert (Hall : Forall (fun ev => is_scratch_failure ev = false)
                       (EvTempdir (Returned temp_dir) :: lw ++ EvCleanup temp_dir (Returned tt)
                        :: EvPrint secrets_line :: ls ++ lp)).
      { constructor; [done|]. apply Forall_app. split.
        { eapply Forall_impl; [exact Hlw | apply local_not_scratch]. }
        do 2 (constructor; [done|]). apply Forall_app. split.
        - eapply Forall_impl; [exact (prov_events _ _ _ _ _ _ _ Hs)|].
          intros ev [[line ->]|(name & _ & Hev)]; [done | by eapply secret_event_not_scratch].
        - destruct Hperm as (Hlp & _). eapply Forall_impl; [exact Hlp|].
          apply permission_event_not_scratch. }
      rewrite Forall_forall in Hall.
      destruct Hin' as [Hin|[d Hin]]; by specialize (Hall _ Hin).
Qed.

End Results.

(** ** The whole script *)

Section Main.

Context {W : Type} {host : Host W}.

Variables (token : string) (secrets : list (string * option string)).

Lemma post_time_sleep (seconds : Z) (Q : outcome unit -> list event -> Prop) :
  Q (Ok tt) [EvSleep seconds] -> post (time_sleep seconds) Q.
Proof. by intros H w. Qed.

(** How a run of [process_repository] starts and ends. *)
Lemma process_repository_post (repo_url workflows_source : string) :
  post (process_repository token secrets repo_url workflows_source)
    (fun v l =>
       (exists l', l = EvPrint (processing_line repo_url) :: l')
       /\ ((exists res, v = Ok res)
           \/ (host_nacl_installed = false /\ v = Raise (SystemExit 1)))).
Proof.
  intros w.
  pose proof (process_repository_cases token secrets repo_url workflows_source w) as H.
  cbv zeta in H.
  destruct (extract_repo_info repo_url) as [[owner repo]|e].
  2:{ destruct H as [-> ->]. eauto. }
  destruct (host_get (repo_api_url owner repo) w).1 as [resp|msg].
  2:{ destruct H as [-> ->]. eauto. }
  destruct (status_code resp =? 200).
  2:{ destruct H as [-> ->]. eauto. }
  destruct H as (v & l & Hrun & -> & ->). split; [eauto|].
  destruct Hrun; cbn; eauto.
Qed.

Lemma print_result_returns (result : ProcessingResult) (u : unit) :
  post (W := W) (print_result result u) (fun v _ => v = Ok tt).
Proof. unfold print_result. wp; done. Qed.

Lemma print_results_return (results : list ProcessingResult) (u : unit) :
  post (W := W) (for_each results print_result u) (fun v _ => v = Ok tt).
Proof.
  revert u. induction results as [|result results IH]; intros u.
  - apply post_ret. by destruct u.
  - apply post_for_each_cons, post_bind.
    eapply post_conseq; [apply print_result_returns|].
    intros v l ->. eapply post_conseq; [apply IH | done].
Qed.

(** One step of the processing loop prints the processing line of its
    repository, or ends the process. *)
Lemma process_step_post (total i : nat) (repo_url : string)
  (acc : list ProcessingResult * nat) :
  post (process_step token secrets total (i, repo_url) acc)
    (fun v l =>
       match v with
       | Ok _ => exists l1 l2, l = (l1 ++ EvPrint (processing_line repo_url) :: l2)%list
       | Raise e => e = SystemExit 1 /\ host_nacl_installed = false
       end).
Proof.
  destruct acc as [results n]. unfold process_step.
  apply post_bind, post_emit, post_bind.
  eapply post_conseq; [apply process_repository_post|].
  intros v l ([l' ->] & [[res ->]|[Hnacl ->]]); [|done].
  apply post_bind. destruct (i <? total)%nat.
  - apply post_time_sleep, post_ret. by eexists [_], _.
  - apply post_ret, post_ret. by eexists [_], _.
Qed.

(** The processing loop either visits every repository, in order, or
    ends the process, which only a missing sealing library does. *)
Lemma process_loop_spec (total : nat) (repo_urls : list string) :
  forall (start : nat) (acc : list ProcessingResult * nat),
    post (for_each (enumerate start repo_urls) (process_step token secrets total) acc)
      (fun v l =>
         match v with
         | Ok _ => sublist (processing_lines repo_urls) l
         | Raise e => e = SystemExit 1 /\ host_nacl_installed = false
         end).
Proof.
  induction repo_urls as [|repo_url repo_urls IH]; intros start acc.
  - apply post_ret. constructor.
  - cbn [enumerate]. apply post_for_each_cons, post_bind.
    eapply post_conseq; [apply process_step_post|].
    intros [acc'|e] l; [|done]. intros (l1 & l2 & ->).
    eapply post_conseq; [apply IH|].
    intros [acc''|e] l; [|done]. intros Hsub.
    rewrite <- app_assoc. apply sublist_inserts_l. cbn [app processing_lines map].
    apply sublist_skip. by apply sublist_inserts_l.
Qed.

Lemma process_all_spec (repo_urls : list string) :
  post (process_all token secrets repo_urls)
    (fun v l =>
       match v with
       | Ok _ =>
           exists l1 l2, l = (l1 ++ EvPrint summary_header :: l2)%list
                         /\ sublist (processing_lines repo_urls) l1
       | Raise e => e = SystemExit 1 /\ host_nacl_installed = false
       end).
Proof.
  unfold process_all. cbv zeta. apply post_bind.
  match goal with
  | |- post ?m _ => assert (Hwarn : post (W := W) m (fun v _ => v = Ok tt))
  end.
  { destruct (map fst _); [by apply post_ret|]. by apply post_bind, post_emit, post_emit. }
  eapply post_conseq; [exact Hwarn|]. intros v lw ->. clear Hwarn.
  apply post_bind, post_emit, post_bind.
  eapply post_conseq; [apply process_loop_spec|].
  intros [[results n]|e] l; [|done]. intros Hsub.
  apply post_bind, post_emit, post_bind, post_emit, post_bind, post_emit, post_bind, post_emit.
  apply post_bind. eapply post_conseq; [apply print_results_return|].
  intros v lr ->. apply post_emit.
  eexists (lw ++ _ :: l ++ [_])%list, _. split.
  2:{ apply sublist_inserts_l, sublist_cons, sublist_inserts_r. exact Hsub. }
  rewrite <- !app_assoc. cbn [app]. by rewrite <- !app_assoc.
Qed.

Lemma main_unfold (repo_urls : list string) (w : W) :
  let found := host_path_exists workflows_dir w in
  let r := (if negb found.1 then bind (print no_workflows_line) (fun _ => sys_exit 1)
            else process_all token secrets repo_urls) found.2 in
  value (main token secrets repo_urls w) = value r
  /\ log (main token secrets repo_urls w)
     = EvPrint banner :: EvPrint (PyStr.repeat_char "=" 50)
       :: EvPathExists workflows_dir found.1 :: log r.
Proof. done. Qed.

End Main.

Section Exit.

Context {W : Type} {host : Host W}.

(** C8 (amended).  The script exits with code 1 before processing any
    repository when the access token is unset or empty (it has then only
    printed the three lines of the guard) or when the workflows directory
    does not exist (it has then only printed the banner and the error
    line).  In every other run it prints the processing line of every
    repository, in list order, then the summary, and exits zero, whatever
    the outcomes of the repositories; except that, when the sealing
    library is not installed, the run may end with [SystemExit(1)]
    instead. *)
Theorem script_exit (env : gmap string string) (repo_urls : list string) (w : W) :
  (PyStr.truthy_opt (env !! "GITHUB_TOKEN") = false ->
   exit_code (value (script env repo_urls w)) = 1
   /\ log (script env repo_urls w) = map EvPrint no_token_lines)
  /\ (PyStr.truthy_opt (env !! "GITHUB_TOKEN") = true ->
      (host_path_exists workflows_dir w).1 = false ->
      exit_code (value (script env repo_urls w)) = 1
      /\ log (script env repo_urls w)
         = [EvPrint banner; EvPrint (PyStr.repeat_char "=" 50);
            EvPathExists workflows_dir false; EvPrint no_workflows_line])
  /\ (PyStr.truthy_opt (env !! "GITHUB_TOKEN") = true ->
      (host_path_exists workflows_dir w).1 = true ->
      (exit_code (value (script env repo_urls w)) = 0
       /\ exists l1 l2,
            log (script env repo_urls w) = (l1 ++ EvPrint summary_header :: l2)%list
            /\ sublist (processing_lines repo_urls) l1)
      \/ (host_nacl_installed = false
          /\ value (script env repo_urls w) = Raise (SystemExit 1))).
Proof.
  unfold script. split; [|split].
  - intros Htoken. destruct (env !! "GITHUB_TOKEN") as [GITHUB_TOKEN|]; [|done].
    cbn in Htoken. by rewrite Htoken.
  - intros Htoken Hfound. destruct (env !! "GITHUB_TOKEN") as [GITHUB_TOKEN|]; [|done].
    cbn in Htoken. rewrite Htoken.
    destruct (main_unfold GITHUB_TOKEN (SECRETS_TO_ADD env) repo_urls w) as [Hv Hl].
    cbv zeta in Hv, Hl. rewrite Hv, Hl, Hfound. done.
  - intros Htoken Hfound. destruct (env !! "GITHUB_TOKEN") as [GITHUB_TOKEN|]; [|done].
    cbn in Htoken. rewrite Htoken.
    destruct (main_unfold GITHUB_TOKEN (SECRETS_TO_ADD env) repo_urls w) as [Hv Hl].
    cbv zeta in Hv, Hl. rewrite Hv, Hl, Hfound. cbn [negb].
    pose proof (process_all_spec GITHUB_TOKEN (SECRETS_TO_ADD env) repo_urls
                  (host_path_exists workflows_dir w).2) as Hall.
    destruct (value (process_all _ _ _ _)) as [[]|e].
    + left. split; [done|]. destruct Hall as (l1 & l2 & -> & Hsub).
      eexists (_ :: _ :: _ :: l1), l2. split; [done|].
      by do 3 apply sublist_cons.
    + right. by destruct Hall as [-> ->].
Qed.

End Exit.

(** ** Runs on the reference host *)

(** The existence check is answered 200, no scratch directory can be
    created, and the status is [error]. *)
Lemma error_status_of_reachable_repository :
  reachable example_url sim_no_scratch = true
  /\ value (process_repository "token" example_secrets example_url workflows_dir
              sim_no_scratch)
     = Ok (error_result example_url "No space left on device").
Proof. split; vm_compute; reflexivity. Qed.

Lemma process_repository_status_witness :
  (status_of example_partial_result = error
   <-> reachable example_url sim_refusing = false
       \/ scratch_failed (log (process_repository "token" example_secrets example_url
                                 workflows_dir sim_refusing)))
  /\ (status_of example_partial_result = success
      <-> reachable example_url sim_refusing = true
          /\ ~ scratch_failed (log (process_repository "token" example_secrets example_url
                                      workflows_dir sim_refusing))
          /\ errors example_partial_result = Some [])
  /\ (status_of example_partial_result = partial
      <-> reachable example_url sim_refusing = true
          /\ ~ scratch_failed (log (process_repository "token" example_secrets example_url
                                      workflows_dir sim_refusing))
          /\ has_errors example_partial_result = true)
  /\ (has_errors example_partial_result = true
      <-> workflows_pushed example_partial_result = Some false
          \/ (exists name m, attempted_in example_secrets name
                             /\ secrets_added example_partial_result = Some m
                             /\ m !! name = Some false)
          \/ permissions_updated example_partial_result = Some false).
Proof.
  apply (process_repository_status (host := sim_default_host) "token" example_secrets
           example_url workflows_dir sim_refusing example_partial_result).
  - apply (bool_decide_unpack _). vm_compute. exact I.
  - vm_compute. reflexivity.
Defined.

(** For a repository answered 404 the only request is the existence
    check: no secret and no permission update is sent. *)
Lemma unreachable_repository_skips_all_stages :
  reachable example_url sim_unreachable = false
  /\ value (process_repository "token" example_secrets example_url workflows_dir
              sim_unreachable)
     = Ok (error_result example_url not_accessible)
  /\ api_requests (log (process_repository "token" example_secrets example_url
                          workflows_dir sim_unreachable))
     = [("GET", "https://api.github.com/repos/anisharma07/c4gt-website")].
Proof. repeat split; vm_compute; reflexivity. Qed.

Lemma secrets_added_keys_witness :
  exists m : gmap string bool,
    secrets_added example_result = Some m
    /\ dom m = (list_to_set (map fst example_secrets) : gset string).
Proof.
  apply (secrets_added_keys (host := sim_default_host) "token" example_secrets
           example_url workflows_dir sim_fine example_result).
  - vm_compute. reflexivity.
  - discriminate.
Defined.

(** Without the sealing library the first attempted secret ends the
    process: the second secret with a value is not attempted, and no
    permission update is sent. *)
Lemma missing_library_stops_secrets :
  value (process_repository (host := sim_host false) "token" example_secrets example_url
           workflows_dir sim_fine)
  = Raise (SystemExit 1)
  /\ api_requests (log (process_repository (host := sim_host false) "token" example_secrets
                          example_url workflows_dir sim_fine))
     = [("GET", "https://api.github.com/repos/anisharma07/c4gt-website");
        ("GET", "https://api.github.com/repos/anisharma07/c4gt-website/actions/secrets/public-key")]
  /\ List.filter has_value example_secrets
     = [("AWS_ACCESS_KEY_ID", Some "AKIAEXAMPLE"); ("AWS_REGION", Some "us-east-1")].
Proof. repeat split; vm_compute; reflexivity. Qed.

(** The token is set and the workflows directory exists, and the script
    exits with code 1. *)
Lemma script_exits_nonzero_without_library :
  PyStr.truthy_opt (example_env !! "GITHUB_TOKEN") = true
  /\ (host_path_exists (Host := sim_host false) workflows_dir sim_fine).1 = true
  /\ exit_code (value (script (host := sim_host false) example_env repo_urls sim_fine)) = 1.
Proof. repeat split; vm_compute; reflexivity. Qed.

(** [SystemExit] is not an [Exception]: it leaves [process_repository]. *)
Lemma process_repository_propagates_exit :
  value (process_repository (host := sim_host false) "ghp_example" (SECRETS_TO_ADD example_env)
           "git@github.com:anisharma07/filosign.git" workflows_dir sim_fine)
  = Raise (SystemExit 1).
Proof. vm_compute. reflexivity. Qed.

Lemma skipped_secret_witness :
  exists owner repo m errs,
    extract_repo_info example_url = Ok (owner, repo)
    /\ secrets_added example_partial_result = Some m
    /\ m !! "AWS_BEDROCK_MODEL_ID" = Some false
    /\ errors example_partial_result = Some errs
    /\ (failed_secret "AWS_BEDROCK_MODEL_ID" ∉ errs)
    /\ Forall (fun ev => ~ is_secret_put owner repo "AWS_BEDROCK_MODEL_ID" ev)
         (log (process_repository "token" example_secrets example_url workflows_dir
                 sim_refusing))
    /\ length (List.filter (is_key_get owner repo)
                 (log (process_repository "token" example_secrets example_url workflows_dir
                         sim_refusing)))
       = length (List.filter has_value example_secrets).
Proof.
  apply (proj2 (skipped_secret (host := sim_default_host) "token" example_secrets
                  example_url workflows_dir sim_refusing "AWS_BEDROCK_MODEL_ID" None
                  ltac:(apply (bool_decide_unpack _); vm_compute; exact I)
                  ltac:(apply (bool_decide_unpack _); vm_compute; exact I)
                  eq_refl)
           example_partial_result).
  - vm_compute. reflexivity.
  - discriminate.
Defined.

Lemma unreachable_attempts_nothing_witness :
  exists msg,
    value (process_repository "token" example_secrets example_url workflows_dir
             sim_unreachable)
    = Ok (error_result example_url msg)
    /\ (log (process_repository "token" example_secrets example_url workflows_dir
               sim_unreachable)
        = [EvPrint (processing_line example_url)]
        \/ exists owner repo answer,
             log (process_repository "token" example_secrets example_url workflows_dir
                    sim_unreachable)
             = [EvPrint (processing_line example_url);
                EvGet (repo_api_url owner repo) answer]).
Proof.
  apply (proj1 (unreachable_attempts_nothing (host := sim_default_host) "token"
                  example_secrets example_url workflows_dir sim_unreachable)).
  vm_compute. reflexivity.
Defined.

Lemma secret_outcomes_witness :
  exists owner repo m errs,
    extract_repo_info example_url = Ok (owner, repo)
    /\ secrets_added example_partial_result = Some m
    /\ errors example_partial_result = Some errs
    /\ (forall name,
          attempted_in example_secrets name ->
          exists b, m !! name = Some b
                    /\ (b = true
                        <-> Exists (is_accepted_put owner repo name)
                              (log (process_repository "token" example_secrets example_url
                                      workflows_dir sim_refusing)))
                    /\ (b = false <-> failed_secret name ∈ errs))
    /\ length (List.filter (is_key_get owner repo)
                 (log (process_repository "token" example_secrets example_url workflows_dir
                         sim_refusing)))
       = length (List.filter has_value example_secrets)
    /\ Exists (is_permissions_put owner repo)
         (log (process_repository "token" example_secrets example_url workflows_dir
                 sim_refusing)).
Proof.
  apply (proj2 (secret_outcomes (host := sim_default_host) "token" example_secrets
                  example_url workflows_dir sim_refusing) example_partial_result).
  - apply (bool_decide_unpack _). vm_compute. exact I.
  - vm_compute. reflexivity.
  - discriminate.
Defined.

Lemma process_repository_outcome_witness :
  value (process_repository "token" example_secrets "https://gitlab.com/a/b" workflows_dir
           sim_fine)
  = Ok (error_result "https://gitlab.com/a/b"
          "Invalid GitHub URL format: https://gitlab.com/a/b").
Proof.
  apply (proj1 (proj2 (process_repository_outcome (host := sim_default_host) "token"
                         example_secrets "https://gitlab.com/a/b" workflows_dir sim_fine))
           (invalid_url "https://gitlab.com/a/b")).
  reflexivity.
Defined.

Lemma script_exit_witness :
  (exit_code (value (script example_env repo_urls sim_fine)) = 0
   /\ exists l1 l2,
        log (script example_env repo_urls sim_fine) = (l1 ++ EvPrint summary_header :: l2)%list
        /\ sublist (processing_lines repo_urls) l1)
  \/ (host_nacl_installed = false
      /\ value (script example_env repo_urls sim_fine) = Raise (SystemExit 1)).
Proof.
  apply (proj2 (proj2 (script_exit (host := sim_default_host) example_env repo_urls sim_fine))).
  - reflexivity.
  - reflexivity.
Defined.

(** The script on the reference host. *)

Example script_completes :
  value (script example_env repo_urls sim_fine) = Ok tt.
Proof. vm_compute. reflexivity. Qed.

Example script_without_token :
  value (script (delete "GITHUB_TOKEN" example_env) repo_urls sim_fine)
  = Raise (SystemExit 1).
Proof. vm_compute. reflexivity. Qed.

Example script_with_empty_token :
  value (script (<["GITHUB_TOKEN" := ""]> example_env) repo_urls sim_fine)
  = Raise (SystemExit 1).
Proof. vm_compute. reflexivity. Qed.

Example script_without_workflows :
  value (script (host := sim_host_no_workflows) example_env repo_urls sim_fine)
  = Raise (SystemExit 1)
  /\ api_requests (log (script (host := sim_host_no_workflows) example_env repo_urls sim_fine))
     = [].
Proof. split; vm_compute; reflexivity. Qed.

(** * Further properties of the script *)

(** ** The locator on the references it is given *)

Section LocatorRoundTrip.

Import PyStr.

(** X1.  A reference that does not already end in ".git" is located the
    same with and without that suffix: the same pair, or the same error. *)
Theorem extract_repo_info_git_suffix (repo_url : string) :
  endswith repo_url ".git" = false ->
  extract_repo_info (repo_url ++ ".git") = extract_repo_info repo_url.
Proof.
  intros Hend. unfold extract_repo_info.
  rewrite strip_git_suffix_app. unfold strip_git_suffix. by rewrite Hend.
Qed.

Lemma extract_built (prefix owner repo : string) (c : ascii) :
  prefix <> "" ->
  (count c (owner ++ "/" ++ repo) < count c prefix)%nat ->
  slash_free owner -> slash_free repo ->
  locator_remainder (prefix ++ owner ++ "/" ++ repo) = Some (owner ++ "/" ++ repo) ->
  extract_repo_info (prefix ++ owner ++ "/" ++ repo ++ ".git") = Ok (owner, repo).
Proof.
  intros Hne Hcount Ho Hr Hrem.
  rewrite extract_repo_info_unfold.
  replace (prefix ++ owner ++ "/" ++ repo ++ ".git")
    with ((prefix ++ owner ++ "/" ++ repo) ++ ".git")
    by (by rewrite !append_assoc).
  rewrite strip_git_suffix_app, Hrem.
  change (owner ++ "/" ++ repo) with (owner ++ String "/" repo).
  rewrite split_app by exact Ho. by rewrite split_sep_free by exact Hr.
Qed.

(** X2.  The locator inverts the construction of a reference: from the
    HTTPS reference built from an owner and a name that hold no "/", with
    the ".git" suffix, it returns that owner and that name; and the same
    from the SSH reference when neither holds a ":". *)
Theorem extract_repo_info_round_trip (owner repo : string) :
  slash_free owner -> slash_free repo ->
  extract_repo_info (https_prefix ++ owner ++ "/" ++ repo ++ ".git") = Ok (owner, repo)
  /\ (count ":" owner = O -> count ":" repo = O ->
      extract_repo_info (ssh_prefix ++ owner ++ "/" ++ repo ++ ".git") = Ok (owner, repo)).
Proof.
  intros Ho Hr. split.
  - apply (extract_built https_prefix owner repo "/"); try done.
    + rewrite count_app, Ho. change ("/" ++ repo) with (String "/" repo).
      cbn [count]. rewrite Hr. cbn. lia.
    + unfold locator_remainder, startswith. rewrite prefix_app.
      rewrite replace_occurrence by done. rewrite app_empty.
      f_equal. apply (replace_absent "/").
      rewrite count_app, Ho. change ("/" ++ repo) with (String "/" repo).
      cbn [count]. rewrite Hr. cbn. lia.
  - intros Hco Hcr.
    assert (Hcount : (count ":" (owner ++ "/" ++ repo) < count ":" ssh_prefix)%nat).
    { rewrite count_app, Hco. change ("/" ++ repo) with (String "/" repo).
      cbn [count]. rewrite Hcr. cbn. lia. }
    apply (extract_built ssh_prefix owner repo ":"); try done.
    unfold locator_remainder, startswith.
    assert (String.prefix https_prefix (ssh_prefix ++ owner ++ "/" ++ repo) = false) as ->
      by done.
    rewrite prefix_app, replace_occurrence by done. rewrite app_empty.
    f_equal. by apply (replace_absent ":").
Qed.

End LocatorRoundTrip.

Lemma extract_repo_info_git_suffix_witness :
  extract_repo_info ("git@github.com:anisharma07/filosign" ++ ".git")
  = extract_repo_info "git@github.com:anisharma07/filosign".
Proof. apply extract_repo_info_git_suffix. reflexivity. Defined.

Lemma extract_repo_info_round_trip_witness :
  extract_repo_info (https_prefix ++ "anisharma07" ++ "/" ++ "drand.py" ++ ".git")
  = Ok ("anisharma07", "drand.py").
Proof.
  apply (proj1 (extract_repo_info_round_trip "anisharma07" "drand.py" eq_refl eq_refl)).
Defined.

(** Only one suffix is removed, so a reference that already ends in
    ".git" is located differently once the suffix is added. *)
Example extract_double_suffix :
  extract_repo_info "https://github.com/a/b.git" = Ok ("a", "b")
  /\ extract_repo_info ("https://github.com/a/b.git" ++ ".git") = Ok ("a", "b.git").
Proof. split; reflexivity. Qed.

(** ** Cloning, the default branch and the workflow push *)

Section Clone.

Context {W : Type} {host : Host W}.

(** X3.  [clone_repo] runs nothing when the locator rejects the
    reference, whose error it passes on.  Otherwise it asks for the
    working directory and runs one command, [git clone] of the URL that
    carries the token into the directory named after the repository
    inside [temp_dir]: on exit status 0 it returns that directory, on any
    other status it raises [Exception] with "Failed to clone repository: "
    and the error text of [git], never the [CalledProcessError] itself. *)
Theorem clone_repo_outcome (token repo_url temp_dir : string) (w : W) :
  let r := clone_repo token repo_url temp_dir w in
  match extract_repo_info repo_url with
  | Raise e => value r = Raise e /\ log r = []
  | Ok (owner, repo) =>
      let path := os_path_join temp_dir [repo] in
      let args := ["git"; "clone"; clone_url token owner repo; path] in
      (exists msg, value r = Raise (LibraryError msg) /\ log r = [EvGetcwd (Failed msg)])
      \/ exists cwd,
           (exists p,
              log r = [EvGetcwd (Returned cwd); EvRun args cwd (Returned p)]
              /\ value r = if returncode p =? 0 then Ok path
                           else Raise (Exception ("Failed to clone repository: "
                                                  ++ stderr p)))
           \/ (exists msg,
                 log r = [EvGetcwd (Returned cwd); EvRun args cwd (Failed msg)]
                 /\ value r = Raise (LibraryError msg))
  end.
Proof.
  cbv zeta. revert w. change (post (clone_repo token repo_url temp_dir)
    (fun v l =>
       match extract_repo_info repo_url with
       | Raise e => v = Raise e /\ l = []
       | Ok (owner, repo) =>
           (exists msg, v = Raise (LibraryError msg) /\ l = [EvGetcwd (Failed msg)])
           \/ exists cwd,
                (exists p,
                   l = [EvGetcwd (Returned cwd);
                        EvRun ["git"; "clone"; clone_url token owner repo;
                               os_path_join temp_dir [repo]] cwd (Returned p)]
                   /\ v = if returncode p =? 0 then Ok (os_path_join temp_dir [repo])
                          else Raise (Exception ("Failed to clone repository: "
                                                 ++ stderr p)))
                \/ (exists msg,
                      l = [EvGetcwd (Returned cwd);
                           EvRun ["git"; "clone"; clone_url token owner repo;
                                  os_path_join temp_dir [repo]] cwd (Failed msg)]
                      /\ v = Raise (LibraryError msg))
       end)).
  unfold clone_repo, os_getcwd. fold (clone_url token).
  apply post_bind, post_lift.
  destruct (extract_repo_info repo_url) as [[owner repo]|e]; [|done].
  cbv zeta. fold (clone_url token owner repo).
  apply post_try_except, post_bind, post_call.
  - intros cwd. apply post_bind, post_subprocess_run.
    + intros p. cbn [andb]. destruct (returncode p =? 0) eqn:Hrc; cbn [negb].
      * apply post_ret. right. exists cwd. left. exists p. by rewrite Hrc.
      * cbn [except_CalledProcessError]. apply post_raise.
        right. exists cwd. left. exists p. by rewrite Hrc, app_nil_r.
    + intros msg. cbn [except_CalledProcessError]. right. exists cwd. right. by exists msg.
  - intros msg. cbn [except_CalledProcessError]. left. by exists msg.
Qed.


(** X4.  When the current-branch query cannot be run or exits with a
    status other than 0, [get_default_branch] returns "main" at once: the
    remote HEAD and the local refs are not consulted. *)
Theorem get_default_branch_query_failure (repo_path : string) (w : W) :
  match (host_run q_current repo_path w).1 with
  | Returned current => returncode current <> 0
  | Failed _ => True
  end ->
  value (get_default_branch repo_path w) = Ok "main"
  /\ log (get_default_branch repo_path w)
     = [EvRun q_current repo_path (host_run q_current repo_path w).1].
Proof.
  intros Hfail. unfold get_default_branch.
  rewrite value_try_except, log_try_except, value_bind, log_bind,
    value_subprocess_run, log_subprocess_run.
  change ["git"; "branch"; "--show-current"] with q_current.
  destruct (host_run q_current repo_path w).1 as [current|msg]; [|done].
  cbn [andb]. apply Z.eqb_neq in Hfail. by rewrite Hfail.
Qed.

Lemma copy_workflow_events (repo_path workflows_source file : string) (u : unit) :
  emits (push_event repo_path workflows_source)
    (copy_workflow workflows_source (workflows_dest repo_path) file u).
Proof.
  unfold copy_workflow, shutil_copy2. destruct (is_workflow_file file) eqn:Hfile.
  - cbv zeta. apply emits_bind; [|intros; by apply emits_print].
    apply emits_call. intros r. by exists file.
  - apply emits_ret.
Qed.

Lemma get_default_branch_events (repo_path workflows_source : string) :
  emits (push_event repo_path workflows_source) (get_default_branch repo_path).
Proof.
  unfold get_default_branch. cbn [first_local_branch].
  repeat emits_step; try done; split; eauto.
Qed.

Lemma push_workflows_emits (repo_path workflows_source : string) :
  emits (push_event repo_path workflows_source) (push_workflows repo_path workflows_source).
Proof.
  unfold push_workflows, push_workflows_body. fold (workflows_dest repo_path).
  unfold stderr_or_unknown, bytes_decode, os_getcwd, os_chdir, os_makedirs, os_listdir.
  cbv zeta.
  repeat first [ apply get_default_branch_events
               | apply emits_for_each; intros ? ?; apply copy_workflow_events
               | emits_step ]; try done; split; eauto.
Qed.


Lemma push_workflows_restores (repo_path workflows_source cwd : string) :
  emits (fun ev => forall d r, ev = EvChdir d r -> d = cwd)
    (try_finally
       (try_except (push_workflows_body repo_path workflows_source)
          (except_CalledProcessError (fun err =>
             bind (stderr_or_unknown err)
               (fun text =>
                  bind (print ("   ❌ Git operation failed: " ++ text))
                    (fun _ => ret false)))))
       (try_except (os_chdir cwd) (except_all (ret tt)))).
Proof.
  unfold push_workflows_body, copy_workflow, get_default_branch, stderr_or_unknown,
    bytes_decode, os_chdir, os_makedirs, os_listdir, shutil_copy2.
  cbn [first_local_branch].
  repeat emits_step; try done; by intros ? ? [=].
Qed.

(** X5.  [push_workflows] makes no request to the API.  It runs only
    [git], and only in the clone; it creates only the workflow directory
    of the clone, lists only the source directory, and copies only files
    whose name ends in ".yml" or ".yaml", each from the source directory
    into the workflow directory of the clone under the same name.  The
    only directory it changes to is the working directory it found. *)
Theorem push_workflows_events (repo_path workflows_source : string) (w : W) :
  Forall (push_event repo_path workflows_source)
    (log (push_workflows repo_path workflows_source w))
  /\ forall d r,
       EvChdir d r ∈ log (push_workflows repo_path workflows_source w) ->
       (host_getcwd w).1 = Returned d.
Proof.
  split; [apply push_workflows_emits|].
  intros d r. unfold push_workflows. rewrite log_bind. unfold os_getcwd.
  rewrite value_call, log_call, after_call.
  destruct (host_getcwd w).1 as [cwd|msg].
  - intros Hin. apply elem_of_cons in Hin as [[=]|Hin].
    pose proof (push_workflows_restores repo_path workflows_source cwd (host_getcwd w).2)
      as Hall.
    rewrite Forall_forall in Hall. f_equal. symmetry. by eapply Hall.
  - intros Hin. by apply list_elem_of_singleton in Hin.
Qed.

End Clone.

Lemma get_default_branch_query_failure_witness :
  value (get_default_branch (host := sim_host true) "/r"
           (sim_with_branches (129, "") (Some "refs/remotes/origin/master") ["master"]
              sim_fine))
  = Ok "main"
  /\ log (get_default_branch (host := sim_host true) "/r"
            (sim_with_branches (129, "") (Some "refs/remotes/origin/master") ["master"]
               sim_fine))
     = [EvRun q_current "/r" (Returned (mkCompleted 129 "" ""))].
Proof.
  apply (get_default_branch_query_failure (host := sim_host true)). vm_compute. discriminate.
Defined.

Ltac find_eq := solve [reflexivity | left; find_eq | right; find_eq].
Ltac in_log := rewrite ?elem_of_app, ?elem_of_cons; find_eq.

(** An event of the log is no failed checked command: it is no command
    that returned, or one that returned 0, or one that is not checked. *)
Ltac ok_event :=
  let Heq := fresh in
  let Hchecked := fresh in
  intros ? ? Heq Hchecked;
  first
    [ discriminate Heq
    | simplify_eq; first [ assumption | by destruct Hchecked as [?|[?|[? ?]]] ] ].

Ltac ok_log :=
  repeat first
    [ assumption
    | apply Forall_nil_2
    | apply Forall_app; split
    | apply Forall_cons_2; [ok_event|] ].

Section Push.

Context {W : Type} {host : Host W}.

Variables repo_path workflows_source : string.

Local Abbreviation ok := (checked_ok repo_path).

Lemma copy_loop_ok (dest : string) (files : list string) (u : unit) :
  emits (W := W) ok (for_each files (copy_workflow workflows_source dest) u).
Proof.
  apply emits_for_each. intros file u'. unfold copy_workflow, shutil_copy2.
  repeat emits_step; ok_event.
Qed.

Lemma get_default_branch_ok : emits ok (get_default_branch repo_path).
Proof.
  unfold get_default_branch. cbn [first_local_branch].
  repeat emits_step; ok_event.
Qed.

Lemma copy_loop_post (dest : string) (files : list string) (u : unit) :
  post (W := W) (for_each files (copy_workflow workflows_source dest) u)
    (fun v _ => v = Ok tt \/ exists msg, v = Raise (LibraryError msg)).
Proof.
  revert u. induction files as [|file files IH]; intros u.
  - apply post_ret. left. by destruct u.
  - apply post_for_each_cons, post_bind. unfold copy_workflow at 1, shutil_copy2.
    destruct (is_workflow_file file); cbv zeta.
    + apply post_bind, post_call; [|intros msg; right; by exists msg].
      intros []. apply post_emit. eapply post_conseq; [apply IH | done].
    + apply post_ret. eapply post_conseq; [apply IH | done].
Qed.

Lemma post_total {A : Type} (m : M W A) :
  total m -> post m (fun v _ => exists a, v = Ok a).
Proof. intros H w. apply H. Qed.

Lemma push_workflows_body_outcome :
  post (push_workflows_body repo_path workflows_source) (body_outcome repo_path).
Proof.
  unfold push_workflows_body, os_makedirs, os_listdir. cbv zeta.
  apply post_bind, post_call; [intros [] | intros msg; cbn; ok_log].
  apply post_bind, post_call; [intros files | intros msg; cbn; ok_log].
  apply post_bind.
  eapply post_conseq; [apply post_and; [apply copy_loop_post | apply post_emits, copy_loop_ok]|].
  intros v lc [[->|[msg ->]] Hlc]; [|cbn; ok_log].
  apply post_bind, post_subprocess_run; [intros pa | intros msg; cbn; ok_log].
  fold git_add. cbn [andb]. destruct (returncode pa =? 0) eqn:Hadd; cbn [negb].
  2:{ exists git_add, pa. split; [|done].
      split; [by left|]. split; [in_log | by apply Z.eqb_neq]. }
  apply Z.eqb_eq in Hadd.
  apply post_bind, post_subprocess_run; [intros pd | intros msg; cbn; ok_log].
  fold git_diff. cbn [andb]. destruct (returncode pd =? 0) eqn:Hdiff.
  { apply post_bind, post_emit, post_ret. split; [|done]. split.
    - exists pa. split; [in_log | done].
    - left. exists pd. split; [in_log | by apply Z.eqb_eq]. }
  apply post_bind, post_subprocess_run; [intros pc | intros msg; cbn; ok_log].
  fold git_commit. cbn [andb]. destruct (returncode pc =? 0) eqn:Hcommit; cbn [negb].
  2:{ exists git_commit, pc. split; [|done].
      split; [right; by left|]. split; [in_log | by apply Z.eqb_neq]. }
  apply Z.eqb_eq in Hcommit.
  apply post_bind.
  eapply post_conseq;
    [apply post_and;
       [apply post_total, get_default_branch_total | apply post_emits, get_default_branch_ok]|].
  intros v lb [[branch ->] Hlb].
  apply post_bind, post_emit, post_bind, post_subprocess_run;
    [intros pp | intros msg; cbn; ok_log].
  fold (git_push branch). cbn [andb]. destruct (returncode pp =? 0) eqn:Hpush; cbn [negb].
  2:{ exists (git_push branch), pp. split; [|done].
      split; [right; right; by exists branch|]. split; [in_log | by apply Z.eqb_neq]. }
  apply Z.eqb_eq in Hpush. apply post_ret. split; [|done]. split.
  - exists pa. split; [in_log | done].
  - right. split.
    + exists pc. split; [in_log | done].
    + exists branch, pp. split; [in_log | done].
Qed.

Lemma succeeded_mono (args : list string) (l0 l l1 : list event) :
  succeeded repo_path args l -> succeeded repo_path args (l0 ++ l ++ l1).
Proof. intros (p & Hin & Hrc). exists p. split; [|done]. rewrite !elem_of_app. tauto. Qed.

Lemma failed_with_in (args : list string) (p : completed) (l l' : list event) :
  failed_with repo_path args p l -> (forall ev, ev ∈ l -> ev ∈ l') ->
  failed_with repo_path args p l'.
Proof. intros (Hargs & Hin & Hrc) Hsub. split; [done|]. split; [by apply Hsub | done]. Qed.

Lemma push_true_mono (l0 l l1 : list event) :
  push_outcome repo_path (Ok true) l -> push_outcome repo_path (Ok true) (l0 ++ l ++ l1).
Proof.
  intros (Ha & [Hd|(Hc & branch & Hp)]); (split; [by apply succeeded_mono|]).
  - left. by apply succeeded_mono.
  - right. split; [by apply succeeded_mono|]. exists branch. by apply succeeded_mono.
Qed.

Lemma restore_post (cwd : string) (Q : outcome unit -> list event -> Prop) :
  (forall r, Q (Ok tt) [EvChdir cwd r]) ->
  post (try_except (os_chdir cwd) (except_all (ret tt))) Q.
Proof.
  intros HQ. apply post_try_except. unfold os_chdir. apply post_call.
  - intros []. apply HQ.
  - intros msg. cbn [except_all]. apply post_ret. rewrite app_nil_r. apply HQ.
Qed.

(** X6.  The outcome of [push_workflows] by what [git] answered.  It
    returns [True] only after [git add] succeeded and either the staged
    diff was empty or both the commit and the push exited with status 0.
    It returns [False] only in runs where one of the checked commands
    (add, commit, push) exited with another status and its error text is
    empty or UTF-8, and then it has printed that text.  When the error
    text of the failed command is not UTF-8, decoding it raises and
    [push_workflows] passes that exception on.  Any other exception comes
    from a library call that failed, in a run where no checked command
    did. *)
Theorem push_workflows_outcome (w : W) :
  push_outcome repo_path (value (push_workflows repo_path workflows_source w))
    (log (push_workflows repo_path workflows_source w)).
Proof.
  revert w. change (post (push_workflows repo_path workflows_source) (push_outcome repo_path)).
  unfold push_workflows, os_getcwd.
  apply post_bind, post_call; [intros cwd | intros msg; right; exists msg; split; [done | ok_log]].
  apply post_try_finally, post_try_except.
  eapply post_conseq; [apply push_workflows_body_outcome|].
  intros [b|e] l Hbody.
  - destruct Hbody as [Hout ->]. apply restore_post. intros r.
    by apply (push_true_mono [_] l [_]).
  - destruct e as [| |rc err| |msg|]; try done; cbn [except_CalledProcessError].
    + destruct Hbody as (args & p & Hfailed & ->).
      unfold stderr_or_unknown, bytes_decode. apply post_bind.
      destruct (PyStr.truthy (stderr p)) eqn:Htext;
        [destruct (PyStr.decodes (stderr p)) eqn:Hutf8|].
      * apply post_ret, post_bind, post_emit, post_ret, restore_post. intros r.
        exists args, p. split; [apply (failed_with_in _ _ l); [done|]; intros ev Hev; rewrite !elem_of_app; tauto|].
        split; [unfold shown; by rewrite Hutf8, orb_true_r|].
        unfold git_failed_line, stderr_text. rewrite Htext. in_log.
      * apply post_raise, restore_post. intros r. left.
        exists args, p. split; [apply (failed_with_in _ _ l); [done|]; intros ev Hev; rewrite !elem_of_app; tauto|].
        split; [unfold shown; by rewrite Htext, Hutf8 | done].
      * apply post_ret, post_bind, post_emit, post_ret, restore_post. intros r.
        exists args, p. split; [apply (failed_with_in _ _ l); [done|]; intros ev Hev; rewrite !elem_of_app; tauto|].
        split; [unfold shown; by rewrite Htext|].
        unfold git_failed_line, stderr_text. rewrite Htext. in_log.
    + apply restore_post. intros r. right. exists msg. split; [done|]. cbn in Hbody. ok_log.
Qed.

End Push.

(** ** The requests to the API *)

Ltac log_inv H :=
  repeat first
    [ apply elem_of_nil in H; destruct H
    | apply elem_of_cons in H as [H|H]; [try discriminate H|]
    | apply elem_of_app in H as [H|H] ].

Section Requests.

Context {W : Type} {host : Host W}.

(** X7.  Whenever [create_or_update_secret] sends an upload, the run
    began with the public key request answered 200 with a JSON object
    that holds "key" and "key_id", the sealing library was there, and the
    value was sealed under that key: the upload goes to the URL of the
    secret and its body is the sealed value with that key id.  Nothing
    but printed lines follows the upload. *)
Theorem secret_upload_payload (owner repo secret_name secret_value : string) (w : W)
  (url : string) (data : list (string * json_value)) (r : reply response) :
  EvPut url data r ∈ log (create_or_update_secret owner repo secret_name secret_value w) ->
  exists resp d key key_id sealed rest,
    log (create_or_update_secret owner repo secret_name secret_value w)
    = EvGet (public_key_url owner repo) (Returned resp)
      :: EvImportNacl true
      :: EvSeal key secret_value (Returned sealed)
      :: EvPut url data r :: rest
    /\ status_code resp = 200
    /\ json resp = Some d
    /\ d !! "key" = Some key
    /\ d !! "key_id" = Some key_id
    /\ url = secret_url owner repo secret_name
    /\ data = secret_payload sealed key_id
    /\ Forall (fun ev => exists line, ev = EvPrint line) rest.
Proof.
  revert w url data r.
  change (post (create_or_update_secret owner repo secret_name secret_value)
            (fun _ l =>
               forall url data r,
                 EvPut url data r ∈ l ->
                 exists resp d key key_id sealed rest,
                   l = EvGet (public_key_url owner repo) (Returned resp)
                       :: EvImportNacl true
                       :: EvSeal key secret_value (Returned sealed)
                       :: EvPut url data r :: rest
                   /\ status_code resp = 200
                   /\ json resp = Some d
                   /\ d !! "key" = Some key
                   /\ d !! "key_id" = Some key_id
                   /\ url = secret_url owner repo secret_name
                   /\ data = secret_payload sealed key_id
                   /\ Forall (fun ev => exists line, ev = EvPrint line) rest)).
  unfold create_or_update_secret, get_repo_public_key, encrypt_secret, dict_get.
  fold (public_key_url owner repo).
  wp.
  all: intros url data r Hin; log_inv Hin.
  all: injection Hin as -> -> ->.
  all: eexists _, _, _, _, _, _; split; [reflexivity|].
  all: repeat split; try done; try (by apply Z.eqb_eq); try eassumption.
  all: repeat first [apply Forall_nil_2 | apply Forall_cons_2; [by eexists|]].
Qed.

(** X8.  [update_workflow_permissions] always returns.  Its one request
    is a PUT to the permissions URL of the repository that enables
    Actions, sets the default workflow permissions to "write" and allows
    the approval of pull request reviews; it returns [True] exactly when
    the request is answered 200 or 204, [False] also when the request
    itself fails. *)
Theorem update_workflow_permissions_outcome (owner repo : string) (w : W) :
  exists r rest,
    log (update_workflow_permissions owner repo w)
    = EvPut (permissions_url owner repo) permissions_payload r :: rest
    /\ Forall (fun ev => exists line, ev = EvPrint line) rest
    /\ value (update_workflow_permissions owner repo w)
       = Ok match r with
            | Returned resp => (status_code resp =? 200) || (status_code resp =? 204)
            | Failed _ => false
            end.
Proof.
  revert w.
  change (post (update_workflow_permissions owner repo)
            (fun v l =>
               exists r rest,
                 l = EvPut (permissions_url owner repo) permissions_payload r :: rest
                 /\ Forall (fun ev => exists line, ev = EvPrint line) rest
                 /\ v = Ok match r with
                           | Returned resp =>
                               (status_code resp =? 200) || (status_code resp =? 204)
                           | Failed _ => false
                           end)).
  unfold update_workflow_permissions. fold permissions_payload. wp.
  all: eexists _, _; split; [reflexivity|]; split;
    [repeat first [apply Forall_nil_2 | apply Forall_cons_2; [by eexists|]]|].
  all: by rewrite ?Heqb.
Qed.

Local Abbreviation remote := (fun ev => is_remote ev = true).

Lemma secret_step_remote (owner repo : string) (item : string * option string)
  (result : ProcessingResult) :
  emits remote (secret_step owner repo item result).
Proof.
  destruct item as [secret_name secret_value].
  unfold secret_step, create_or_update_secret, get_repo_public_key, encrypt_secret,
    dict_get, session_get, session_put.
  repeat first [apply (emits_raise (A := string)) | emits_step]; done.
Qed.

Lemma permission_stage_remote (owner repo : string) (result : ProcessingResult) :
  emits remote (permission_stage owner repo result).
Proof.
  unfold permission_stage, update_workflow_permissions, session_put.
  repeat emits_step; done.
Qed.

Lemma stages_scoped (token : string) (secrets : list (string * option string))
  (repo_url workflows_source owner repo : string) :
  post (stages token secrets repo_url workflows_source owner repo)
    (fun _ l =>
       (exists msg, l = [EvTempdir (Failed msg)])
       \/ exists temp_dir inside r rest,
            l = (EvTempdir (Returned temp_dir) :: inside
                   ++ EvCleanup temp_dir r :: rest)%list
            /\ Forall (fun ev => is_local ev = true) inside
            /\ Forall remote rest).
Proof.
  unfold stages, with_tempdir. cbv zeta.
  apply post_bind, post_bind, post_call; [|intros msg; left; by exists msg].
  intros temp_dir. apply post_try_finally.
  eapply post_conseq; [apply post_emits, workflow_stage_local|].
  intros v inside Hinside. apply post_call.
  2:{ intros msg. right. exists temp_dir, inside, (Failed msg), [].
      by destruct v. }
  intros []. destruct v as [result|e].
  2:{ right. by exists temp_dir, inside, (Returned tt), []. }
  match goal with
  | |- post ?m _ =>
      assert (Hrest : emits remote m)
  end.
  { apply emits_bind; [by apply emits_print|]. intros _.
    apply emits_bind; [apply emits_for_each; intros; apply secret_step_remote|].
    intros result'. apply emits_bind; [apply permission_stage_remote|].
    intros result''. apply emits_ret. }
  eapply post_conseq; [apply post_emits, Hrest|].
  intros v rest Hremote. right. exists temp_dir, inside, (Returned tt), rest.
  split; [|done]. cbn [app]. by rewrite <- app_assoc.
Qed.

(** X9.  In every run of [process_repository] the scratch directory is
    scoped: all [git] and file-system events lie between its creation
    and its removal, the removal is attempted on every path once it was
    created, and before and after there are only console output, API
    requests and the sealing library. *)
Theorem scratch_directory_scoped (token : string) (secrets : list (string * option string))
  (repo_url workflows_source : string) (w : W) :
  scratch_scoped (log (process_repository token secrets repo_url workflows_source w)).
Proof.
  revert w.
  change (post (process_repository token secrets repo_url workflows_source)
            (fun _ l => scratch_scoped l)).
  unfold process_repository, check_repo_exists, session_get. cbv zeta.
  apply post_bind, post_emit, post_try_except, post_bind, post_lift.
  destruct (extract_repo_info repo_url) as [[owner repo]|e] eqn:Hinfo.
  2:{ pose proof (extract_repo_info_no_exit repo_url) as Hexit.
      destruct e; cbn [except_Exception is_Exception];
        try (apply post_ret; left; by repeat constructor).
      by destruct (Hexit code). }
  apply post_bind, post_bind, post_call.
  2:{ intros msg. cbn [except_Exception is_Exception]. apply post_ret.
      left. by repeat constructor. }
  intros resp. apply post_ret. destruct (status_code resp =? 200); cbn [negb].
  { eapply post_conseq; [apply stages_scoped|].
    intros v l Hl.
    assert (Hscoped : scratch_scoped
              (EvPrint (processing_line repo_url)
               :: EvGet (GITHUB_API_BASE ++ "/repos/" ++ owner ++ "/" ++ repo) (Returned resp)
               :: l)).
    { destruct Hl as [[msg ->]|(temp_dir & inside & r & rest & -> & Hin & Hrest)].
      - right; left. eexists [_; _], msg. split; [done | by repeat constructor].
      - right; right. eexists [_; _], temp_dir, inside, r, rest.
        split; [done|]. split; [by repeat constructor | done]. }
    destruct v as [res|e]; [exact Hscoped|].
    destruct (except_Exception _ e) as [h|] eqn:Hh; [|exact Hscoped].
    unfold except_Exception in Hh. destruct (is_Exception e); [|done].
    injection Hh as <-. apply post_ret. by rewrite app_nil_r. }
  apply post_ret. left. by repeat constructor.
Qed.

End Requests.

(** ** The processing loop *)

Section Loop.

Context {W : Type} {host : Host W}.

Variables (token : string) (secrets : list (string * option string)).

Lemma process_repository_repo (repo_url workflows_source : string) (w : W)
  (res : ProcessingResult) :
  value (process_repository token secrets repo_url workflows_source w) = Ok res ->
  repo res = repo_url.
Proof.
  intros Hres.
  destruct (process_repository_result token secrets repo_url workflows_source w res Hres)
    as [(msg & -> & _)|(owner & name & answer & _ & _ & Hrun)]; [done|].
  destruct Hrun as [temp_dir lw ls lp pushed e1 added e2 permitted e3 _ -> _ _ _ _].
  by rewrite close_report.
Qed.

(** One step of the loop appends the result of its repository and counts
    it when its status is [success]. *)
Lemma process_step_result (total i : nat) (repo_url : string)
  (results : list ProcessingResult) (n : nat) :
  post (process_step token secrets total (i, repo_url) (results, n))
    (fun v _ =>
       forall acc, v = Ok acc ->
         exists res, acc = ((results ++ [res])%list, (n + if is_success res then 1 else 0)%nat)
                     /\ repo res = repo_url).
Proof.
  intros w. unfold process_step.
  rewrite value_bind. cbn [value print emit after].
  rewrite value_bind.
  destruct (value (process_repository token secrets repo_url workflows_dir w))
    as [res|e] eqn:Hres; [|done].
  apply process_repository_repo in Hres.
  rewrite value_bind.
  assert (Hpause : forall w', exists u,
            value ((if (i <? total)%nat then time_sleep 2 else ret tt) w') = Ok u).
  { intros w'. destruct (i <? total)%nat; by eexists. }
  destruct (Hpause (after (process_repository token secrets repo_url workflows_dir w)))
    as [u ->].
  cbn [value ret]. intros acc [= <-]. exists res. split; [|done].
  f_equal. unfold is_success. destruct (status_of res); lia.
Qed.

(** X10.  When the processing loop of [main] runs to its end, it has
    collected one result per repository, in the order of the list, each
    for its own URL, and the counter it reports is the number of results
    whose status is [success]. *)
Theorem process_loop_results (total : nat) (repo_urls : list string) (start : nat)
  (w : W) (results : list ProcessingResult) (n : nat) :
  value (for_each (enumerate start repo_urls) (process_step token secrets total) ([], O) w)
  = Ok (results, n) ->
  map repo results = repo_urls
  /\ n = length (List.filter is_success results).
Proof.
  assert (Hgen : forall urls start acc0 n0,
    post (for_each (enumerate start urls) (process_step token secrets total) (acc0, n0))
      (fun v _ =>
         forall results n, v = Ok (results, n) ->
           exists new, results = (acc0 ++ new)%list
                       /\ map repo new = urls
                       /\ n = (n0 + length (List.filter is_success new))%nat)).
  { clear. induction urls as [|repo_url urls IH]; intros start acc0 n0.
    - apply post_ret. intros results n [= <- <-]. exists []. by rewrite app_nil_r, Nat.add_0_r.
    - cbn [enumerate]. apply post_for_each_cons, post_bind.
      eapply post_conseq; [apply process_step_result|].
      intros [acc|e] l0 Hstep; [|done].
      destruct (Hstep acc eq_refl) as (res & -> & Hrepo).
      eapply post_conseq; [apply IH|].
      intros v l Hrest results n Hv.
      destruct (Hrest results n Hv) as (new & Hresults & Hnew & Hn).
      exists (res :: new). rewrite Hresults, <- app_assoc. split; [done|].
      split; [cbn; by rewrite Hrepo, Hnew|].
      rewrite Hn. cbn [List.filter]. destruct (is_success res); cbn [length]; lia. }
  intros Hv. destruct (Hgen repo_urls start [] O w results n Hv) as (new & Hresults & Hnew & Hn).
  cbn in Hresults. by rewrite Hresults, Hn.
Qed.

End Loop.

Section Pauses.

Context {W : Type} {host : Host W}.

Variables (token : string) (secrets : list (string * option string)).

Local Abbreviation awake := (fun ev => is_sleep ev = false).

Lemma remote_awake (ev : event) : is_remote ev = true -> awake ev.
Proof. by destruct ev. Qed.

Lemma local_awake (ev : event) : is_local ev = true -> awake ev.
Proof. by destruct ev. Qed.

Lemma process_repository_awake (repo_url workflows_source : string) :
  emits awake (process_repository token secrets repo_url workflows_source).
Proof.
  unfold process_repository, check_repo_exists, stages, with_tempdir, session_get.
  repeat first
    [ eapply emits_weaken; [apply local_awake | apply workflow_stage_local]
    | eapply emits_weaken; [apply remote_awake | apply permission_stage_remote]
    | apply emits_for_each; intros ? ?;
      eapply emits_weaken; [apply remote_awake | apply secret_step_remote]
    | emits_step ]; done.
Qed.

Lemma print_result_awake (result : ProcessingResult) (u : unit) :
  emits (W := W) awake (print_result result u).
Proof. unfold print_result. repeat emits_step; done. Qed.

Lemma filter_sleep_nil (l : list event) : Forall awake l -> List.filter is_sleep l = [].
Proof. induction 1 as [|ev l Hev _ IH]; [done|]. cbn. by rewrite Hev. Qed.

(** One step of the loop pauses once when its repository is not the
    last, and not at all when it is. *)
Lemma process_step_pauses (total i : nat) (repo_url : string)
  (acc : list ProcessingResult * nat) :
  post (process_step token secrets total (i, repo_url) acc)
    (fun v l =>
       match v with
       | Ok _ => List.filter is_sleep l = if (i <? total)%nat then [EvSleep 2] else []
       | Raise _ => True
       end).
Proof.
  destruct acc as [results n]. unfold process_step.
  apply post_bind, post_emit, post_bind.
  eapply post_conseq; [apply post_emits, process_repository_awake|].
  intros [res|e] l Hl; [|done]. apply filter_sleep_nil in Hl.
  apply post_bind. destruct (i <? total)%nat.
  - apply post_time_sleep, post_ret.
    rewrite !List.filter_app, Hl. reflexivity.
  - apply post_ret, post_ret. rewrite !List.filter_app, Hl. reflexivity.
Qed.

Lemma process_loop_pauses (total : nat) (repo_urls : list string) :
  forall (start : nat) (acc : list ProcessingResult * nat),
    post (for_each (enumerate start repo_urls) (process_step token secrets total) acc)
      (fun v l =>
         match v with
         | Ok _ =>
             List.filter is_sleep l
             = replicate (pauses start (length repo_urls) total) (EvSleep 2)
         | Raise _ => True
         end).
Proof.
  induction repo_urls as [|repo_url repo_urls IH]; intros start acc.
  - by apply post_ret.
  - cbn [enumerate]. apply post_for_each_cons, post_bind.
    eapply post_conseq; [apply process_step_pauses|].
    intros [acc'|e] l Hstep; [|done].
    eapply post_conseq; [apply IH|].
    intros [acc''|e] l' Hrest; [|done].
    rewrite List.filter_app, Hstep, Hrest. cbn [length pauses].
    by destruct (start <? total)%nat.
Qed.

Lemma pauses_between (start n total : nat) :
  (start + n = S total)%nat -> pauses start n total = (n - 1)%nat.
Proof.
  revert start. induction n as [|n IH]; intros start Hsum; [done|].
  cbn [pauses]. destruct n as [|n].
  - cbn [pauses]. destruct (Nat.ltb_spec start total); lia.
  - rewrite IH by lia. destruct (Nat.ltb_spec start total); lia.
Qed.

(** X11.  When the processing loop and the summary run to the end, the
    script has paused exactly once between every two consecutive
    repositories, for two seconds each time: one pause fewer than there
    are repositories, and none after the last. *)
Theorem pauses_between_repositories (repo_urls : list string) (w : W) (u : unit) :
  value (process_all token secrets repo_urls w) = Ok u ->
  List.filter is_sleep (log (process_all token secrets repo_urls w))
  = replicate (length repo_urls - 1) (EvSleep 2).
Proof.
  revert w.
  change (post (process_all token secrets repo_urls)
            (fun v l =>
               v = Ok u ->
               List.filter is_sleep l = replicate (length repo_urls - 1) (EvSleep 2))).
  unfold process_all. cbv zeta. apply post_bind.
  match goal with
  | |- post ?m _ =>
      assert (Hwarn : post (W := W) m (fun v l => v = Ok tt /\ List.filter is_sleep l = []))
  end.
  { destruct (map fst _); [by apply post_ret|]. by apply post_bind, post_emit, post_emit. }
  eapply post_conseq; [exact Hwarn|]. intros v lw [-> Hlw]. clear Hwarn.
  apply post_bind, post_emit, post_bind.
  eapply post_conseq; [apply process_loop_pauses|].
  intros [[results n]|e] l Hloop; [|done].
  apply post_bind, post_emit, post_bind, post_emit, post_bind, post_emit, post_bind, post_emit.
  apply post_bind.
  eapply post_conseq;
    [apply post_emits, (emits_for_each awake results print_result tt);
     intros; apply print_result_awake|].
  intros [[]|e] lr Hlr; [|done]. apply filter_sleep_nil in Hlr.
  apply post_emit. intros _.
  rewrite !List.filter_app, Hlw, Hloop, Hlr. cbn [List.filter is_sleep app].
  rewrite app_nil_r. f_equal. apply pauses_between. lia.
Qed.

End Pauses.

(** ** Runs without secrets, and failed clones *)

Section WithoutSecrets.

Context {W : Type} {host : Host W}.

Variables (token : string) (secrets : list (string * option string)).
Hypothesis no_values : Forall (fun item => has_value item = false) secrets.

Lemma skipped_loop_no_exit (owner repo : string) (result : ProcessingResult) :
  no_exit (for_each secrets (secret_step owner repo) result).
Proof.
  revert result. clear token. induction secrets as [|[name v] rest IH]; intros result.
  - apply no_exit_ret.
  - apply Forall_cons in no_values as [Hv Hrest].
    cbn [for_each]. apply no_exit_bind; [|intros; by apply IH].
    intros w code. by rewrite (secret_step_skip owner repo name v result w Hv).
Qed.

Lemma workflow_stage_no_exit (repo_url workflows_source temp_dir : string)
  (result : ProcessingResult) :
  no_exit (workflow_stage token repo_url workflows_source temp_dir result).
Proof.
  unfold workflow_stage.
  repeat first [apply clone_repo_no_exit | apply push_workflows_no_exit | no_exit_step].
Qed.

Lemma permission_stage_no_exit (owner repo : string) (result : ProcessingResult) :
  no_exit (permission_stage owner repo result).
Proof.
  unfold permission_stage, update_workflow_permissions, session_put.
  repeat no_exit_step.
Qed.

Lemma stages_no_exit (repo_url workflows_source owner repo : string) :
  no_exit (stages token secrets repo_url workflows_source owner repo).
Proof.
  unfold stages, with_tempdir.
  repeat first [ apply workflow_stage_no_exit | apply skipped_loop_no_exit
               | apply permission_stage_no_exit | no_exit_step ].
Qed.

(** X12.  When no configured secret has a value, [process_repository]
    returns a result on every host, also on one without the sealing
    library: the library is asked for only when a secret is sealed. *)
Theorem process_repository_without_values (repo_url workflows_source : string) (w : W) :
  exists res, value (process_repository token secrets repo_url workflows_source w) = Ok res.
Proof.
  revert w. change (total (process_repository token secrets repo_url workflows_source)).
  unfold process_repository.
  apply total_bind; [apply total_emit|]. intros _.
  apply total_try_except_Exception; [|intros e; apply total_ret].
  apply no_exit_bind; [apply lift_no_exit, extract_repo_info_no_exit|].
  intros [owner repo]. unfold check_repo_exists, session_get.
  repeat first [apply stages_no_exit | no_exit_step].
Qed.

End WithoutSecrets.

Section CloneFailure.

Context {W : Type} {host : Host W}.

Lemma push_workflows_no_clone (repo_path workflows_source : string) :
  emits (fun ev => is_clone ev = false) (push_workflows repo_path workflows_source).
Proof.
  unfold push_workflows, push_workflows_body, copy_workflow, get_default_branch,
    stderr_or_unknown, bytes_decode, os_getcwd, os_chdir, os_makedirs, os_listdir,
    shutil_copy2.
  cbn [first_local_branch].
  repeat emits_step; done.
Qed.

(** X13.  When the clone exits with a status other than 0, the workflow
    stage runs no other command: it returns the result with one more
    error, "Failed to process workflows: Failed to clone repository: "
    followed by the error text of [git], leaves [workflows_pushed] as it
    was, and prints one line after the clone. *)
Theorem workflow_stage_clone_failure (token repo_url workflows_source temp_dir : string)
  (result : ProcessingResult) (w : W) (args : list string) (cwd : string) (p : completed) :
  EvRun ("git" :: "clone" :: args) cwd (Returned p)
    ∈ log (workflow_stage token repo_url workflows_source temp_dir result w) ->
  returncode p <> 0 ->
  value (workflow_stage token repo_url workflows_source temp_dir result w)
  = Ok (append_error (failed_workflows ("Failed to clone repository: " ++ stderr p)) result)
  /\ exists line,
       log (workflow_stage token repo_url workflows_source temp_dir result w)
       = [EvPrint "   📥 Cloning repository..."; EvGetcwd (Returned cwd);
          EvRun ("git" :: "clone" :: args) cwd (Returned p); EvPrint line].
Proof.
  revert w args cwd p.
  change (post (workflow_stage token repo_url workflows_source temp_dir result)
            (fun v l =>
               forall args cwd p,
                 EvRun ("git" :: "clone" :: args) cwd (Returned p) ∈ l ->
                 returncode p <> 0 ->
                 v = Ok (append_error
                           (failed_workflows ("Failed to clone repository: " ++ stderr p))
                           result)
                 /\ exists line,
                      l = [EvPrint "   📥 Cloning repository..."; EvGetcwd (Returned cwd);
                           EvRun ("git" :: "clone" :: args) cwd (Returned p);
                           EvPrint line])).
  unfold workflow_stage, clone_repo, os_getcwd.
  apply post_try_except, post_bind, post_emit, post_bind, post_bind, post_lift.
  pose proof (extract_repo_info_no_exit repo_url) as Hexit.
  destruct (extract_repo_info repo_url) as [[owner repo]|e].
  2:{ destruct e; try (by destruct (Hexit code)); wp.
      all: intros args cwd p Hin; log_inv Hin. }
  apply post_try_except, post_bind, post_call.
  2:{ intros msg. wp. intros args cwd p Hin. log_inv Hin. }
  intros cwd0. apply post_bind, post_subprocess_run.
  2:{ intros msg. wp. intros args cwd p Hin. log_inv Hin. }
  intros p0. cbn [andb]. destruct (returncode p0 =? 0) eqn:Hrc0; cbn [negb].
  - apply post_ret, post_bind, post_emit, post_bind.
    eapply post_conseq; [apply post_emits, push_workflows_no_clone|].
    intros v lp Hlp. rewrite Forall_forall in Hlp.
    assert (Hno : forall args cwd p,
              EvRun ("git" :: "clone" :: args) cwd (Returned p) ∈ lp -> False).
    { intros args cwd p Hin. by specialize (Hlp _ Hin). }
    apply Z.eqb_eq in Hrc0.
    destruct v as [[]|e]; [| |destruct e]; wp.
    all: intros args cwd p Hin Hrc; log_inv Hin; try (by destruct (Hno _ _ _ Hin)).
    all: injection Hin as -> -> ->; congruence.
  - wp. intros args cwd p Hin Hrc. log_inv Hin.
    injection Hin as -> -> ->. split; [reflexivity | by eexists].
Qed.

End CloneFailure.

(** ** Further runs on the reference host *)

Lemma secret_upload_payload_witness :
  exists resp d key key_id sealed rest,
    log (create_or_update_secret "anisharma07" "c4gt-website" "AWS_REGION" "us-east-1"
           sim_fine)
    = EvGet (public_key_url "anisharma07" "c4gt-website") (Returned resp)
      :: EvImportNacl true
      :: EvSeal key "us-east-1" (Returned sealed)
      :: EvPut (secret_url "anisharma07" "c4gt-website" "AWS_REGION")
           (secret_payload "sealed:us-east-1" "568250167242549743")
           (Returned (mkResponse 201 "" None))
      :: rest
    /\ status_code resp = 200
    /\ json resp = Some d
    /\ d !! "key" = Some key
    /\ d !! "key_id" = Some key_id
    /\ secret_url "anisharma07" "c4gt-website" "AWS_REGION"
       = secret_url "anisharma07" "c4gt-website" "AWS_REGION"
    /\ secret_payload "sealed:us-east-1" "568250167242549743" = secret_payload sealed key_id
    /\ Forall (fun ev => exists line, ev = EvPrint line) rest.
Proof.
  apply (secret_upload_payload (host := sim_default_host)).
  apply (list_elem_of_lookup_2 _ 3). vm_compute. reflexivity.
Defined.

Lemma process_loop_results_witness :
  map repo [example_result;
            error_result "https://gitlab.com/a/b"
              "Invalid GitHub URL format: https://gitlab.com/a/b"]
  = [example_url; "https://gitlab.com/a/b"]
  /\ 1%nat = length (List.filter is_success
                       [example_result;
                        error_result "https://gitlab.com/a/b"
                          "Invalid GitHub URL format: https://gitlab.com/a/b"]).
Proof.
  apply (process_loop_results (host := sim_default_host) "token" example_secrets 2
           [example_url; "https://gitlab.com/a/b"] 1 sim_fine).
  vm_compute. reflexivity.
Defined.

Lemma pauses_between_repositories_witness :
  List.filter is_sleep (log (process_all "token" example_secrets repo_urls sim_fine))
  = replicate (length repo_urls - 1) (EvSleep 2).
Proof.
  apply (pauses_between_repositories (host := sim_default_host) "token" example_secrets
           repo_urls sim_fine tt).
  vm_compute. reflexivity.
Defined.

Lemma process_repository_without_values_witness :
  exists res,
    value (process_repository (host := sim_host false) "token" example_no_values example_url
             workflows_dir sim_fine)
    = Ok res.
Proof.
  apply (process_repository_without_values (host := sim_host false) "token"
           example_no_values).
  repeat constructor.
Defined.

Lemma workflow_stage_clone_failure_witness :
  value (workflow_stage (host := sim_host_no_clone) "token" example_url workflows_dir
           "/tmp/tmpk3x9" (fresh_result example_url) sim_fine)
  = Ok (append_error
          (failed_workflows
             ("Failed to clone repository: " ++ "remote: Repository not found."))
          (fresh_result example_url))
  /\ exists line,
       log (workflow_stage (host := sim_host_no_clone) "token" example_url workflows_dir
              "/tmp/tmpk3x9" (fresh_result example_url) sim_fine)
       = [EvPrint "   📥 Cloning repository..."; EvGetcwd (Returned "/home/user/hub");
          EvRun ["git"; "clone"; clone_url "token" "anisharma07" "c4gt-website";
                 "/tmp/tmpk3x9/c4gt-website"]
            "/home/user/hub" (done_with 128 "remote: Repository not found.");
          EvPrint line].
Proof.
  apply (workflow_stage_clone_failure (host := sim_host_no_clone) "token" example_url
           workflows_dir "/tmp/tmpk3x9" (fresh_result example_url) sim_fine
           [clone_url "token" "anisharma07" "c4gt-website"; "/tmp/tmpk3x9/c4gt-website"]
           "/home/user/hub" (mkCompleted 128 "" "remote: Repository not found.")).
  - apply (list_elem_of_lookup_2 _ 2). vm_compute. reflexivity.
  - cbn. lia.
Defined.
